(** * frame-randomizer: the frame production pipeline

    A shallow embedding of the server code of frame-randomizer that produces,
    recovers, cleans up and serves frames, and of the client code that
    displays a fuzzy match:
    - the loader module ([src/unnamed/part_001], which exports [getShowData]
      and [getFrameProducerQueue]): [ffmpegFrame], [recoverFrames],
      [generateFrame], [chooseRandomFrame] and [randomTimeInEpisode];
    - the cleanup plugin ([src/unnamed/part_000]): [cleanupAnswers],
      [cleanupOrphanedImages], [cleanupExpiredImages],
      [cleanupOrphanedAndExpiredImages], [cleanupExpiredRuns] and the
      callback of the plugin's timer;
    - [src/server/api/frame/get/[basename].ts]: the frame-serving handler;
    - [src/server/api/gen.ts] and its forerunner [src/unnamed/part_002]: the
      earlier [generateFrame];
    - [src/utils/fuzzy.ts]: [chunkMatchText].

    The persisted stores (the namespaces of [useStorage]) are finite maps
    from string keys to records, the output directory is a finite set of
    paths.

    Code whose result depends only on the stores is written in state-passing
    style: a sweep that maps an asynchronous callback over the keys of a
    store is a fold of the callback's effect, since every callback touches
    the records of its own key only; the calls to the stores and to the
    filesystem succeed, and one sweep reads one value of [Date.now()].

    Code whose point is the order of its asynchronous calls is written as a
    task: the tree of the calls it starts and the promises it awaits.  The
    executions of a task interleave it with the environment, which carries
    out the calls that are in flight in any order, or lets them fail; an
    execution starts with nothing in flight and records every call and every
    outcome in a log. *)

From Stdlib Require Import ZArith QArith Qround Qminmax Lia Lqa Ascii String List.
From stdpp Require Import base gmap strings list fin_maps.

Local Open Scope Z_scope.

(** ** Data model

    The record types are declared in [server/types.ts], which is not part of
    the sources at hand; their fields are those that the code reads and
    writes, and those of section 3 of the spec. *)

(** A JS [number | null] expiry timestamp, in milliseconds. *)
Abbreviation timestamp := (option Z).

(** JS truthiness of [expiryTs]: [null] and [0] are both falsy. *)
Definition truthy (ts : timestamp) : bool :=
  match ts with
  | Some t => negb (t =? 0)
  | None => false
  end.

(** Modelled from the spec: [StoredFileState], [{ expiryTs }]. *)
Record StoredFileState := mkFileState { fileExpiryTs : timestamp }.

(** Modelled from the spec: [StoredAnswer],
    [{ season, episode, seekTime, expiryTs }]. *)
Record StoredAnswer := mkAnswer {
  season : Z;
  episode : Z;
  seekTime : Q;
  answerExpiryTs : timestamp
}.

(** Modelled from the spec: the entries of a run's history, an ordered
    sequence of served-frame interactions.  The code below only looks at the
    length of the history, so an entry is kept as the id of the frame it
    concerns. *)
Definition HistoryEntry : Type := string.

(** Modelled from the spec: [StoredRunData], [{ history, expiryTs }]. *)
Record StoredRunData := mkRun {
  history : list HistoryEntry;
  runExpiryTs : timestamp
}.

(** The item handed to the producer queue. *)
Record QueueItem := mkItem { imageId : string }.

Global Instance QueueItem_eq_dec : EqDecision QueueItem.
Proof. solve_decision. Defined.

(** The options of the runtime config that the modelled code reads. *)
Record RuntimeConfig := mkConfig {
  frameOutputDir : string;
  imageOutputExtension : string;
  frameGenMaxAttempts : Z;
  frameRequiredStandardDeviation : Z;
  runRetentionThreshold : Z
}.

(** The four storage namespaces and the output directory. *)
Record World := mkWorld {
  frameStateStorage : gmap string StoredFileState;
  answerStorage : gmap string StoredAnswer;
  runStateStorage : gmap string StoredRunData;
  archivedRunStorage : gmap string StoredRunData;
  files : gset string
}.

(** [storage.getKeys()]: the keys of a namespace, each once. *)
Definition getKeys {V} (m : gmap string V) : list string := (map_to_list m).*1.

Definition set_frameState (f : gmap string StoredFileState → gmap string StoredFileState)
    (w : World) : World :=
  mkWorld (f (frameStateStorage w)) (answerStorage w) (runStateStorage w)
          (archivedRunStorage w) (files w).

Definition set_answer (f : gmap string StoredAnswer → gmap string StoredAnswer)
    (w : World) : World :=
  mkWorld (frameStateStorage w) (f (answerStorage w)) (runStateStorage w)
          (archivedRunStorage w) (files w).

Definition set_runState (f : gmap string StoredRunData → gmap string StoredRunData)
    (w : World) : World :=
  mkWorld (frameStateStorage w) (answerStorage w) (f (runStateStorage w))
          (archivedRunStorage w) (files w).

Definition set_archivedRun (f : gmap string StoredRunData → gmap string StoredRunData)
    (w : World) : World :=
  mkWorld (frameStateStorage w) (answerStorage w) (runStateStorage w)
          (f (archivedRunStorage w)) (files w).

Definition set_files (f : gset string → gset string) (w : World) : World :=
  mkWorld (frameStateStorage w) (answerStorage w) (runStateStorage w)
          (archivedRunStorage w) (f (files w)).

(** Modelled from the spec: [imagePathForId] lives in [server/file.ts], which
    is not part of the sources at hand.  Image files have the deterministic
    name [{id}.{extension}] under the configured output directory. *)
Definition imagePathForId (config : RuntimeConfig) (id : string) : string :=
  frameOutputDir config +:+ "/" +:+ id +:+ "." +:+ imageOutputExtension config.

(** ** Recovery scan (server/load.ts, [recoverFrames]) *)

Record RecoveryStats := mkStats {
  noAnswer : nat;
  unservedAnswer : nat;
  cleanedFileAnswer : nat;
  servedFile : nat;
  recoveredCount : nat;
  missingFile : nat
}.

Definition noStats : RecoveryStats := mkStats 0 0 0 0 0 0.

Definition statsTotal (s : RecoveryStats) : nat :=
  (noAnswer s + unservedAnswer s + cleanedFileAnswer s + servedFile s
   + recoveredCount s + missingFile s)%nat.

(** [++counter] for each of the six counters. *)
Definition countNoAnswer (s : RecoveryStats) : RecoveryStats :=
  mkStats (S (noAnswer s)) (unservedAnswer s) (cleanedFileAnswer s)
          (servedFile s) (recoveredCount s) (missingFile s).
Definition countUnservedAnswer (s : RecoveryStats) : RecoveryStats :=
  mkStats (noAnswer s) (S (unservedAnswer s)) (cleanedFileAnswer s)
          (servedFile s) (recoveredCount s) (missingFile s).
Definition countCleanedFileAnswer (s : RecoveryStats) : RecoveryStats :=
  mkStats (noAnswer s) (unservedAnswer s) (S (cleanedFileAnswer s))
          (servedFile s) (recoveredCount s) (missingFile s).
Definition countServedFile (s : RecoveryStats) : RecoveryStats :=
  mkStats (noAnswer s) (unservedAnswer s) (cleanedFileAnswer s)
          (S (servedFile s)) (recoveredCount s) (missingFile s).
Definition countRecovered (s : RecoveryStats) : RecoveryStats :=
  mkStats (noAnswer s) (unservedAnswer s) (cleanedFileAnswer s)
          (servedFile s) (S (recoveredCount s)) (missingFile s).
Definition countMissingFile (s : RecoveryStats) : RecoveryStats :=
  mkStats (noAnswer s) (unservedAnswer s) (cleanedFileAnswer s)
          (servedFile s) (recoveredCount s) (S (missingFile s)).

(** JS truthiness of a stored record or [null], and of the [expiryTs] of a
    record that may be [null] (read only where the record is there). *)
Definition present {V} (data : option V) : bool := bool_decide (is_Some data).
Definition fileExpirySet (fileData : option StoredFileState) : bool :=
  from_option (λ f, truthy (fileExpiryTs f)) false fileData.
Definition answerExpirySet (answerData : option StoredAnswer) : bool :=
  from_option (λ a, truthy (answerExpiryTs a)) false answerData.

(** The callback of [ids.map(async (id) => ...)]: it returns the id, or the
    empty string for an id that is not recovered, and bumps one counter.  The
    [removeItem] and [fs.rm] calls that the source does not await are applied
    on the spot; they concern the key [id] only.  [fs.stat] succeeds when the
    file is in the output directory. *)
Definition recoverOne (config : RuntimeConfig) (id : string)
    (w : World) (st : RecoveryStats) : string * World * RecoveryStats :=
  let fileData := frameStateStorage w !! id in
  let answerData := answerStorage w !! id in
  if present fileData && negb (present answerData) then
    ("",
     set_files (λ fs, fs ∖ {[imagePathForId config id]})
       (set_frameState (delete id) w),
     countNoAnswer st)
  else if negb (present fileData) && present answerData then
    if negb (answerExpirySet answerData)
    then ("", set_answer (delete id) w, countUnservedAnswer st)
    else ("", w, countCleanedFileAnswer st)
  else if present fileData && fileExpirySet fileData then
    ("", w, countServedFile st)
  else if bool_decide (imagePathForId config id ∈ files w) then
    (id, w, countRecovered st)
  else
    ("",
     (if negb (present answerData) || negb (answerExpirySet answerData)
      then set_answer (delete id) else (λ w0, w0))
       (set_frameState (delete id) w),
     countMissingFile st).

(** [Promise.all(ids.map(...))]: the results come in the order of [ids].  The
    callbacks interleave in the source, but each one reads and writes the
    records and the file of its own id only, so they are run in turn. *)
Fixpoint recoverAll (config : RuntimeConfig) (ids : list string)
    (w : World) (st : RecoveryStats) : list string * World * RecoveryStats :=
  match ids with
  | [] => ([], w, st)
  | id :: rest =>
    let '(r, w1, st1) := recoverOne config id w st in
    let '(rs, w2, st2) := recoverAll config rest w1 st1 in
    (r :: rs, w2, st2)
  end.

Record Recovery := mkRecovery {
  recovered : list QueueItem;
  stats : RecoveryStats;
  worldAfter : World
}.

Definition recoverFrames (config : RuntimeConfig) (w : World) : Recovery :=
  let ids := getKeys (frameStateStorage w) in
  let '(results, w', st) := recoverAll config ids w noStats in
  mkRecovery
    (map mkItem (List.filter (λ id, negb (String.eqb id "")) results)) st w'.

(** ** Cleanup sweeps (server/plugins/cleanup.ts) *)

(** JS [ts < now] on a [number | null]: [null] counts as 0. *)
Definition js_lt (ts : timestamp) (now : Z) : bool := from_option (λ t, t) 0 ts <? now.

(** The callback of [answerIds.map(...)] in [cleanupAnswers]; [now] is the
    value of [Date.now()]. *)
Definition cleanupAnswer (now : Z) (answerId : string) (w : World) : World :=
  match answerStorage w !! answerId with
  | Some answer =>
    if truthy (answerExpiryTs answer) && js_lt (answerExpiryTs answer) now
    then set_answer (delete answerId) w
    else w
  | None => w
  end.

Definition cleanupAnswers (now : Z) (w : World) : World :=
  let answerIds := getKeys (answerStorage w) in
  foldl (λ w' answerId, cleanupAnswer now answerId w') w answerIds.

(** [lodash.intersection] of two arrays: the values of the first that occur
    in the second, each once, in the order of the first. *)
Fixpoint uniq (seen l : list string) : list string :=
  match l with
  | [] => []
  | x :: rest =>
    if bool_decide (x ∈ seen) then uniq seen rest else x :: uniq (x :: seen) rest
  end.

Definition intersection (a b : list string) : list string :=
  uniq [] (List.filter (λ x, bool_decide (x ∈ b)) a).

(** The character class [[0-9a-f\-]]. *)
Definition isKeyChar (c : ascii) : bool :=
  match c with
  | "0" | "1" | "2" | "3" | "4" | "5" | "6" | "7" | "8" | "9"
  | "a" | "b" | "c" | "d" | "e" | "f" | "-" => true
  | _ => false
  end%char.

(** The longest prefix of a list whose elements all satisfy [p]. *)
Fixpoint takeWhile {A} (p : A → bool) (l : list A) : list A :=
  match l with
  | x :: rest => if p x then x :: takeWhile p rest else []
  | [] => []
  end.

(** [filenameToKeyRe.exec(frameFile)] for the regular expression
    [/(?<key>[0-9a-f\-]+)\.${ext}$] (the pattern starts with a slash), with
    an extension of letters and digits: the file name must end in [.ext],
    and the longest run of key characters before that must be non-empty and
    preceded by a slash.  The result is the group [key].  The string is
    read from its end. *)
Definition filenameToKey (ext frameFile : string) : option string :=
  let file := reverse (list_ascii_of_string frameFile) in
  let dotExt := reverse (list_ascii_of_string ("." +:+ ext)) in
  if bool_decide (dotExt `prefix_of` file) then
    let stem := drop (length dotExt) file in
    let key := takeWhile isKeyChar stem in
    match key, drop (length key) stem with
    | _ :: _, "/"%char :: _ => Some (string_of_list_ascii (reverse key))
    | _, _ => None
    end
  else None.

(** [cleanupOrphanedImages]: the files that [fs.rm] is called on. *)
Definition cleanupOrphanedImages (config : RuntimeConfig)
    (frameFileIds frames1 frames2 : list string) : list string :=
  let ext := imageOutputExtension config in
  flat_map
    (λ frameFile,
       match filenameToKey ext frameFile with
       | Some key =>
         if negb (bool_decide (key ∈ frameFileIds)) then [frameFile] else []
       | None => []
       end)
    (intersection frames1 frames2).

(** The output directory once every [fs.rm] of the orphan sweep is done. *)
Definition orphanSweep (config : RuntimeConfig)
    (frameFileIds frames1 frames2 : list string) (w : World) : World :=
  set_files
    (λ fs, fs ∖ list_to_set (cleanupOrphanedImages config frameFileIds frames1 frames2))
    w.

(** The two tests of [cleanupExpiredRuns] on a run:
    [!data.expiryTs || data.expiryTs < Date.now()] and
    [data.history.length >= config.runRetentionThreshold]. *)
Definition runExpired (now : Z) (data : StoredRunData) : bool :=
  negb (truthy (runExpiryTs data)) || js_lt (runExpiryTs data) now.

Definition runImportant (config : RuntimeConfig) (data : StoredRunData) : bool :=
  runRetentionThreshold config <=? Z.of_nat (length (history data)).

(** The run as it is archived: [data.expiryTs = null]. *)
Definition archivedCopy (data : StoredRunData) : StoredRunData :=
  mkRun (history data) None.

(** What the callback of [keys.map(...)] in [cleanupExpiredRuns] leaves in
    the stores once its [Promise.all(work)] is done ([cleanupExpiredRun]
    below is the same callback, call by call). *)
Definition cleanupExpiredRunEffect (config : RuntimeConfig) (now : Z)
    (runId : string) (w : World) : World :=
  match runStateStorage w !! runId with
  | Some data =>
    if runExpired now data then
      let w1 := set_runState (delete runId) w in
      if runImportant config data
      then set_archivedRun (<[runId := archivedCopy data]>) w1
      else w1
    else w
  | None => w
  end.

Definition cleanupExpiredRuns (config : RuntimeConfig) (now : Z) (w : World) : World :=
  let keys := getKeys (runStateStorage w) in
  foldl (λ w' runId, cleanupExpiredRunEffect config now runId w') w keys.

(** ** Frame-serving handler (server/api/frame/get/[basename].ts) *)

(** [traversingPathRe.test(s)] for [/[/\\]|\.\./]: some character is a slash
    or a backslash, or two dots follow each other. *)
Fixpoint traversingPathRe (s : list ascii) : bool :=
  match s with
  | [] => false
  | c :: rest =>
    Ascii.eqb c "/" || Ascii.eqb c "\"
    || (Ascii.eqb c "." && match rest with d :: _ => Ascii.eqb d "." | [] => false end)
    || traversingPathRe rest
  end.

(** [s.endsWith(suffix)]. *)
Definition endsWith (s suffix : string) : bool :=
  bool_decide (list_ascii_of_string suffix `suffix_of` list_ascii_of_string s).

(** [path.join(dir, basename)] for a basename that holds no separator and no
    dot-dot segment: nothing is normalised away. *)
Definition pathJoin (dir basename : string) : string := dir +:+ "/" +:+ basename.

(** A query parameter that asks for cleanup: set, and neither empty,
    ["false"] nor ["0"]. *)
Definition cleanupRequested (cleanuponload : option string) : bool :=
  match cleanuponload with
  | Some v => negb (String.eqb v "") && negb (String.eqb v "false") && negb (String.eqb v "0")
  | None => false
  end.

Inductive HandlerResult :=
| HttpError (statusCode : Z)
| SendStream (file id : string) (logFetch cleanupOnClose : bool).

(** The handler.  [createReadStream file] is [None] when the call hands back
    a stream, which it does also for a file that is not there (the stream
    reports that later, once the handler has returned), and the error code
    when the call itself throws.  The first component of the result lists the
    paths handed to the filesystem, in order. *)
Definition frameGetHandler (config : RuntimeConfig)
    (createReadStream : string → option string)
    (basename runId cleanuponload : option string) : list string * HandlerResult :=
  match basename with
  | None => ([], HttpError 404)
  | Some basename =>
    if String.eqb basename "" then ([], HttpError 404)
    else if traversingPathRe (list_ascii_of_string basename)
            || negb (endsWith basename ("." +:+ imageOutputExtension config))
    then ([], HttpError 400)
    else
      let file := pathJoin (frameOutputDir config) basename in
      match createReadStream file with
      | None =>
        let id :=
          String.substring 0
            (String.length basename - (String.length (imageOutputExtension config) + 1))
            basename in
        ([file],
         SendStream file id
           (from_option (λ r, negb (String.eqb r "")) false runId)
           (cleanupRequested cleanuponload))
      | Some code =>
        ([file], if String.eqb code "ENOENT" then HttpError 404 else HttpError 500)
      end
  end.

(** ** Asynchronous tasks

    The code of [generateFrame], of the directory listing and of the run
    cleanup starts storage calls, subprocesses and timers, keeps their
    promises and awaits them later.  A task is the tree of those calls; its
    executions interleave it with the environment, which settles the calls
    that are in flight in any order. *)

(** Modelled from the spec: [ServerEpisodeData] is declared in
    [server/file.ts], not part of the sources at hand; these are the fields
    that [ffmpegFrame] and [generateFrame] read. *)
Record ServerEpisodeData := mkEpisode {
  season_number : Z;
  episode_number : Z;
  filename : string
}.

(** The interface [RandomEpisode]. *)
Record RandomEpisode := mkRandom {
  randomEpisode : ServerEpisodeData;
  randomSeekTime : Q
}.

Inductive command :=
| Ffmpeg (seek : Q) (input outputPath : string)
| Identify (outputPath : string).

(** The asynchronous calls. *)
Inductive op :=
| SetFrameState (key : string) (v : StoredFileState)
| SetAnswer (key : string) (v : StoredAnswer)
| GetRun (key : string)
| RemoveRun (key : string)
| SetArchivedRun (key : string) (v : StoredRunData)
| GetFrameKeys
| Glob (pattern : string)
| Sleep (ms : Z)
| Exec (c : command).

(** What a fulfilled promise holds.  [VStat] is [parseInt] of the output of
    [identify], [None] for [NaN]. *)
Inductive value :=
| VUnit
| VStat (stddev : option Z)
| VKeys (keys : list string)
| VRun (data : option StoredRunData).

(** The output directory once [ffmpeg] has written [out]. *)
Definition wrote (out : string) (w : World) : World :=
  set_files (λ fs, {[out]} ∪ fs) w.

(** The effect and the result of a call that succeeds, at the moment it is
    carried out.  A listing may return any files of the output directory. *)
Inductive completes : op → World → value → World → Prop :=
| completes_setFrameState k v w :
    completes (SetFrameState k v) w VUnit (set_frameState (<[k := v]>) w)
| completes_setAnswer k v w :
    completes (SetAnswer k v) w VUnit (set_answer (<[k := v]>) w)
| completes_getRun k w :
    completes (GetRun k) w (VRun (runStateStorage w !! k)) w
| completes_removeRun k w :
    completes (RemoveRun k) w VUnit (set_runState (delete k) w)
| completes_setArchivedRun k v w :
    completes (SetArchivedRun k v) w VUnit (set_archivedRun (<[k := v]>) w)
| completes_getFrameKeys w :
    completes GetFrameKeys w (VKeys (getKeys (frameStateStorage w))) w
| completes_glob pattern listing w :
    (∀ f, f ∈ listing → f ∈ files w) →
    completes (Glob pattern) w (VKeys listing) w
| completes_sleep ms w :
    completes (Sleep ms) w VUnit w
| completes_ffmpeg seek input out w :
    completes (Exec (Ffmpeg seek input out)) w VUnit (wrote out w)
| completes_identify out stddev w :
    completes (Exec (Identify out)) w (VStat stddev) w.

(** The log of an execution: a call is made under a promise number, and it
    comes to an end with a result, or with [None] when it fails.  Promises
    are numbered in the order they are created. *)
Inductive event :=
| EvIssue (p : nat) (o : op)
| EvSettle (p : nat) (o : op) (r : option value).

(** The state of an execution: the stores and the output directory, the
    calls in flight, the calls chained to a promise with [then] (the new
    promise, the promise waited for, the call), the next promise number, and
    the log. *)
Record AState := mkAState {
  world : World;
  pending : list (nat * op);
  chained : list (nat * nat * op);
  next : nat;
  log : list event
}.

Definition init (w : World) : AState := mkAState w [] [] 0 [].

Definition fulfilled (s : AState) (p : nat) (v : value) : Prop :=
  ∃ o, EvSettle p o (Some v) ∈ log s.

Definition failed (s : AState) (p : nat) : Prop :=
  ∃ o, EvSettle p o None ∈ log s.

(** Calling an asynchronous function: the call is in flight from now on. *)
Definition issue (o : op) (s : AState) : AState :=
  mkAState (world s) (pending s ++ [(next s, o)]) (chained s) (S (next s))
           (log s ++ [EvIssue (next s) o]).

(** [p.then(() => o)]: the call [o] is made once [p] is fulfilled. *)
Definition chain (p : nat) (o : op) (s : AState) : AState :=
  mkAState (world s) (pending s) (chained s ++ [(next s, p, o)]) (S (next s)) (log s).

(** The moves of the environment.  [settle]: the call behind promise [p]
    comes to an end, with result [r] ([None] when it fails) and world [w'].
    [fire]: the call chained as promise [p'] is made.  [dropChained]: it is
    given up, and [p'] is rejected. *)
Definition settle (p : nat) (o : op) (r : option value) (w' : World) (s : AState) : AState :=
  mkAState w' (filter (λ x, x.1 ≠ p) (pending s)) (chained s) (next s)
           (log s ++ [EvSettle p o r]).

Definition fire (p' : nat) (o : op) (s : AState) : AState :=
  mkAState (world s) (pending s ++ [(p', o)])
           (filter (λ x, x.1.1 ≠ p') (chained s)) (next s)
           (log s ++ [EvIssue p' o]).

Definition dropChained (p' : nat) (o : op) (s : AState) : AState :=
  mkAState (world s) (pending s)
           (filter (λ x, x.1.1 ≠ p') (chained s)) (next s)
           (log s ++ [EvSettle p' o None]).

(** One move of the environment: a call in flight succeeds or fails, or a
    chained call is made once the promise it waits for is fulfilled, or
    given up once that promise is rejected. *)
Inductive env_step : AState → AState → Prop :=
| env_fulfil s p o v w' :
    (p, o) ∈ pending s →
    completes o (world s) v w' →
    env_step s (settle p o (Some v) w' s)
| env_reject s p o :
    (p, o) ∈ pending s →
    env_step s (settle p o None (world s) s)
| env_fire s p' p o v :
    (p', p, o) ∈ chained s →
    fulfilled s p v →
    env_step s (fire p' o s)
| env_drop s p' p o :
    (p', p, o) ∈ chained s →
    failed s p →
    env_step s (dropChained p' o s).

Inductive env_star : AState → AState → Prop :=
| env_refl s : env_star s s
| env_next s1 s2 s3 : env_step s1 s2 → env_star s2 s3 → env_star s1 s3.

(** A task: what an asynchronous function does, up to its result.  [Call]
    starts a call and hands its promise to the rest of the function without
    waiting; [Then p o] is [p.then(() => o)]; [Await ps] is
    [await Promise.all(ps)]. *)
Inductive task (A : Type) : Type :=
| Ret (a : A)
| Uuid (k : string → task A)
| Choose (episodes : list ServerEpisodeData) (k : RandomEpisode → task A)
| Call (o : op) (k : nat → task A)
| Then (p : nat) (o : op) (k : nat → task A)
| Await (ps : list nat) (k : list value → task A).

Arguments Ret {A} a.
Arguments Uuid {A} k.
Arguments Choose {A} episodes k.
Arguments Call {A} o k.
Arguments Then {A} p o k.
Arguments Await {A} ps k.

Fixpoint bind {A B} (t : task A) (f : A → task B) : task B :=
  match t with
  | Ret a => f a
  | Uuid k => Uuid (λ id, bind (k id) f)
  | Choose eps k => Choose eps (λ r, bind (k r) f)
  | Call o k => Call o (λ p, bind (k p) f)
  | Then p o k => Then p o (λ q, bind (k q) f)
  | Await ps k => Await ps (λ vs, bind (k vs) f)
  end.

Inductive outcome (A : Type) : Type :=
| Returned (a : A)
| Thrown.

Arguments Returned {A} a.
Arguments Thrown {A}.

(** The executions of a task: [exec t s out s'] when [t], started in [s],
    ends with [out] in [s'].  The environment moves between any two steps of
    the task.  [Uuid] is [myUuid(config)], [Choose] is [chooseFrame()]: it
    picks an episode of the catalogue and a time, and throws on an empty
    catalogue.  [Await ps] is [await Promise.all(ps)]: it goes on once all of
    [ps] are fulfilled and throws once one is rejected. *)
Fixpoint exec {A} (t : task A) (s : AState) (out : outcome A) (s' : AState) : Prop :=
  match t with
  | Ret a => env_star s s' ∧ out = Returned a
  | Uuid k => ∃ id, exec (k id) s out s'
  | Choose eps k =>
    (∃ r, randomEpisode r ∈ eps ∧ exec (k r) s out s')
    ∨ (eps = [] ∧ out = Thrown ∧ env_star s s')
  | Call o k => ∃ s1, env_star s s1 ∧ exec (k (next s1)) (issue o s1) out s'
  | Then p o k => ∃ s1, env_star s s1 ∧ exec (k (next s1)) (chain p o s1) out s'
  | Await ps k =>
    ∃ s1, env_star s s1 ∧
      ((∃ vs, Forall2 (fulfilled s1) ps vs ∧ exec (k vs) s1 out s')
       ∨ (∃ p, p ∈ ps ∧ failed s1 p ∧ out = Thrown ∧ s' = s1))
  end.

(** ** Frame generation (server/load.ts, [ffmpegFrame] and [generateFrame]) *)

(** [parseInt(stdout) < requiredStddev]; a comparison with [NaN] is false. *)
Definition statBelow (vs : list value) (requiredStddev : Z) : bool :=
  match vs with
  | [VStat (Some n)] => n <? requiredStddev
  | _ => false
  end.

(** The do-while loop of [ffmpegFrame].  [rejected] is the value of the
    variable when the body is entered.  The loop is cut after [fuel] rounds,
    which gives [None]; [ffmpegLoop_sound] shows that this never happens with
    the fuel that [ffmpegFrame] provides. *)
Fixpoint ffmpegLoop (config : RuntimeConfig) (episodes : list ServerEpisodeData)
    (outputPath : string) (fuel : nat) (rejected : Z) : task (option RandomEpisode) :=
  match fuel with
  | O => Ret None
  | S fuel' =>
    let maxRejects := frameGenMaxAttempts config in
    let requiredStddev := frameRequiredStandardDeviation config in
    let rejected := rejected + 1 in
    Choose episodes (λ random,
    Call (Exec (Ffmpeg (randomSeekTime random) (filename (randomEpisode random)) outputPath))
      (λ extraction,
    Await [extraction] (λ _,
    if (0 <? requiredStddev) && (rejected <? maxRejects) then
      Call (Exec (Identify outputPath)) (λ identify,
      Await [identify] (λ stdout,
      if statBelow stdout requiredStddev
      then ffmpegLoop config episodes outputPath fuel' rejected
      else Ret (Some random)))
    else Ret (Some random))))
  end.

Definition ffmpegFrame (config : RuntimeConfig) (chooseFrame : list ServerEpisodeData)
    (outputPath : string) : task (option RandomEpisode) :=
  ffmpegLoop config chooseFrame outputPath
    (S (Z.to_nat (frameGenMaxAttempts config))) (-1).

(** The answer that [generateFrame] stores for a chosen frame. *)
Definition answerOf (random : RandomEpisode) : StoredAnswer :=
  mkAnswer (season_number (randomEpisode random))
           (episode_number (randomEpisode random))
           (randomSeekTime random) None.

(** [generateFrame].  The promise of the frame-state write is kept in
    [storeImageIdP] and awaited at the end, together with the answer write. *)
Definition generateFrame (config : RuntimeConfig) (episodes : list ServerEpisodeData)
    : task (option QueueItem) :=
  Uuid (λ imageId,
  let imagePath := imagePathForId config imageId in
  Call (SetFrameState imageId (mkFileState None)) (λ storeImageIdP,
  bind (ffmpegFrame config episodes imagePath) (λ chosen,
  match chosen with
  | Some random =>
    Call (SetAnswer imageId (answerOf random)) (λ storeAnswerP,
    Await [storeAnswerP; storeImageIdP] (λ _,
    Ret (Some (mkItem imageId))))
  | None => Ret None
  end))).

(** ** The two listings of [cleanupOrphanedAndExpiredImages] *)

(** The first statement of [cleanupOrphanedAndExpiredImages]: the keys of the
    frame-state storage, a listing, and a second listing chained to a timer
    of one second, awaited together. *)
Definition listFrames (config : RuntimeConfig)
    : task (list string * list string * list string) :=
  let ext := imageOutputExtension config in
  let globPattern := pathJoin (frameOutputDir config) ("*." +:+ ext) in
  Call GetFrameKeys (λ keysP,
  Call (Glob globPattern) (λ frames1P,
  Call (Sleep 1000) (λ sleepP,
  Then sleepP (Glob globPattern) (λ frames2P,
  Await [keysP; frames1P; frames2P] (λ vs,
  Ret (match vs with
       | [VKeys frameFileIds; VKeys frames1; VKeys frames2] =>
         (frameFileIds, frames1, frames2)
       | _ => ([], [], [])
       end)))))).

(** ** The callback of [cleanupExpiredRuns], call by call *)

(** [now] is the value of [Date.now()].  The removal of the live record is
    the first element of [work]; the archive write is pushed after it. *)
Definition cleanupExpiredRun (config : RuntimeConfig) (now : Z) (runId : string)
    : task unit :=
  Call (GetRun runId) (λ dataP,
  Await [dataP] (λ vs,
  match vs with
  | [VRun (Some data)] =>
    if runExpired now data then
      Call (RemoveRun runId) (λ removeP,
      if runImportant config data then
        Call (SetArchivedRun runId (archivedCopy data)) (λ archiveP,
        Await [removeP; archiveP] (λ _, Ret tt))
      else Await [removeP] (λ _, Ret tt))
    else Ret tt
  | _ => Ret tt
  end)).

(** ** Expired images and the whole cleanup tick (server/plugins/cleanup.ts) *)

(** JS [ts <= now] on a [number | null]: [null] counts as 0. *)
Definition js_le (ts : timestamp) (now : Z) : bool := from_option (λ t, t) 0 ts <=? now.

(** The callback of [frameFileIds.map(...)] in [cleanupExpiredImages]; [now]
    is the value of [Date.now()].  The record of an expired frame is removed
    together with its image file; [fs.rm] of a file that is not there fails
    with [ENOENT], which is caught. *)
Definition cleanupExpiredImage (config : RuntimeConfig) (now : Z) (fileId : string)
    (w : World) : World :=
  match frameStateStorage w !! fileId with
  | Some storedFileState =>
    if truthy (fileExpiryTs storedFileState) && js_le (fileExpiryTs storedFileState) now
    then
      let frameFile := imagePathForId config fileId in
      set_files (λ fs, fs ∖ {[frameFile]}) (set_frameState (delete fileId) w)
    else w
  | None => w
  end.

Definition cleanupExpiredImages (config : RuntimeConfig) (now : Z)
    (frameFileIds : list string) (w : World) : World :=
  foldl (λ w' fileId, cleanupExpiredImage config now fileId w') w frameFileIds.

(** [cleanupOrphanedAndExpiredImages] once the keys and the two listings
    [frames1] and [frames2] are there: the orphan sweep and the expiry sweep
    work from the same list of tracked ids. *)
Definition cleanupOrphanedAndExpiredImages (config : RuntimeConfig) (now : Z)
    (frames1 frames2 : list string) (w : World) : World :=
  let frameFileIds := getKeys (frameStateStorage w) in
  cleanupExpiredImages config now frameFileIds
    (orphanSweep config frameFileIds frames1 frames2 w).

(** The callback of [setInterval]: the three sweeps of one tick, which are
    started together and awaited together.  They are carried out one after
    the other here, on one reading of the clock; their order makes no
    difference, as is shown further down. *)
Definition cleanupTick (config : RuntimeConfig) (now : Z)
    (frames1 frames2 : list string) (w : World) : World :=
  cleanupExpiredRuns config now
    (cleanupOrphanedAndExpiredImages config now frames1 frames2
       (cleanupAnswers now w)).

(** ** Choosing a frame (server/load.ts, [chooseRandomFrame] and
    [randomTimeInEpisode])

    JS numbers are taken as exact rationals; [random] is the value of
    [Math.random()], a number from 0 up to but not including 1. *)

(** [Math.floor(x)] and [Math.round(x)], which rounds a half upwards. *)
Definition mathFloor (x : Q) : Z := Qfloor x.
Definition mathRound (x : Q) : Z := Qfloor (x + (1 # 2))%Q.

(** [episodes[Math.floor(Math.random() * episodes.length)]], the first
    line of [chooseRandomFrame]; [None] is [undefined].  In a task, [Choose]
    stands for this choice. *)
Definition chooseEpisode {A} (random : Q) (episodes : list A) : option A :=
  let index := mathFloor (random * inject_Z (Z.of_nat (length episodes)))%Q in
  if index <? 0 then None else episodes !! Z.to_nat index.

(** The fields of [ServerEpisodeData] that [randomTimeInEpisode] reads;
    [episode.length] is [episodeLength] here. *)
Record EpisodeTiming := mkTiming {
  genLength : Q;
  skipRanges : list (Q * Q);
  episodeLength : Q;
  framerate : Q
}.

Section RandomTime.

(** [offsetTimeBySkipRanges] is imported from [server/file.ts], which is not
    part of the sources at hand: it is left open. *)
Variable offsetTimeBySkipRanges : Q → list (Q * Q) → Q.

(** The time before it is rounded: [Math.min(offsetTimeBySkipRanges(...),
    episode.length)].  (The function of the same name in the earlier
    endpoint returns this time as it is; the loader's rounds it.) *)
Definition offsetTimeInEpisode (random : Q) (episode : EpisodeTiming) : Q :=
  let randomUnoffsetTime := (random * genLength episode)%Q in
  Qmin (offsetTimeBySkipRanges randomUnoffsetTime (skipRanges episode))
       (episodeLength episode).

Definition randomTimeInEpisode (random : Q) (episode : EpisodeTiming) : Q :=
  let offsetTime := offsetTimeInEpisode random episode in
  (inject_Z (mathRound (offsetTime * framerate episode)) / framerate episode)%Q.

End RandomTime.

(** ** The earlier generation endpoint (server/api/gen.ts)

    [generateFrame] of [server/api/gen.ts], which is also the body of the
    handler of its forerunner ([src/unnamed/part_002]).  This version has no
    frame-state store and no quality gate.  Its answers, [{ season, episode,
    seekTime }] without an expiry, go to the storage namespace [genimg],
    which is the answer store of the world here; its episode records
    ([EpisodeDatum], with the fields [season], [episode] and [filename]) are
    kept as [ServerEpisodeData]. *)

Module Gen.

(** The options that the endpoint reads. *)
Record RuntimeConfig := mkConfig {
  imageOutputDir : string;
  imageOutputExtension : string
}.

(** [path.join(config.imageOutputDir, `${imageId}.${ext}`)]. *)
Definition imagePath (config : RuntimeConfig) (imageId : string) : string :=
  pathJoin (imageOutputDir config) (imageId +:+ "." +:+ imageOutputExtension config).

(** [generateFrame]: the extraction ([ffmpegFrame], which calls [exec] at
    once) and the answer write are started one after the other and awaited
    together. *)
Definition generateFrame (config : RuntimeConfig) (episodeData : list ServerEpisodeData)
    : task QueueItem :=
  Uuid (λ imageId,
  let imagePath := imagePath config imageId in
  Choose episodeData (λ random,
  Call (Exec (Ffmpeg (randomSeekTime random) (filename (randomEpisode random)) imagePath))
    (λ ffmpegP,
  Call (SetAnswer imageId (answerOf random)) (λ answerP,
  Await [ffmpegP; answerP] (λ _,
  Ret (mkItem imageId)))))).

End Gen.

(** ** Fuzzy match display (utils/fuzzy.ts) *)

Module Fuzzy.

(** A piece of the text to display. *)
Record SearchPart := mkPart { part : string; matching : bool }.

(** The fields of Fuse's [FuseResultMatch] that [chunkMatchText] reads: the
    matched ranges, each a pair [[start, end]] with [end] inclusive, and the
    text, which is optional.  The characters of a string stand for the code
    units of the JS string. *)
Record FuseResultMatch := mkMatch {
  indices : list (Z * Z);
  value : option string
}.

(** An argument of [substring], brought into [0 .. length]. *)
Definition clampIndex (len : nat) (i : Z) : nat :=
  Z.to_nat (Z.max 0 (Z.min i (Z.of_nat len))).

(** JS [s.substring(indexStart, indexEnd)]: both arguments are brought into
    the string, and swapped when the first is the larger. *)
Definition substring (s : string) (indexStart indexEnd : Z) : string :=
  let a := clampIndex (String.length s) indexStart in
  let b := clampIndex (String.length s) indexEnd in
  String.substring (Nat.min a b) (Nat.max a b - Nat.min a b) s.

(** [match.value?.substring(a, b) || ""]. *)
Definition valuePart (m : FuseResultMatch) (a b : Z) : string :=
  from_option (λ v, substring v a b) "" (value m).

(** The [for] loop from the range at [index] on.  [prev] is
    [match.indices[index - 1]], and [None] when [index === 0]. *)
Fixpoint chunkLoop (m : FuseResultMatch) (prev : option (Z * Z))
    (ranges : list (Z * Z)) : list SearchPart :=
  match ranges with
  | [] => []
  | (start, end_) :: ranges' =>
    let unmatched :=
      match prev with
      | None =>
        if negb (start =? 0) then [mkPart (valuePart m 0 start) false] else []
      | Some (_, prevEnd) => [mkPart (valuePart m (prevEnd + 1) start) false]
      end in
    unmatched ++ mkPart (valuePart m start (end_ + 1)) true
      :: chunkLoop m (Some (start, end_)) ranges'
  end.

(** [chunkMatchText]; [None] when it throws [Error("No matches")].
    [valueLength] is [match.value?.length], so the test
    [lastEnd + 1 !== match.value?.length] holds whenever there is no text. *)
Definition chunkMatchText (m : FuseResultMatch) : option (list SearchPart) :=
  match last (indices m) with
  | None => None
  | Some (_, lastEnd) =>
    let parts := chunkLoop m None (indices m) in
    let valueLength := (λ v, Z.of_nat (String.length v)) <$> value m in
    if bool_decide (Some (lastEnd + 1) ≠ valueLength)
    then Some (parts ++ [mkPart (valuePart m (lastEnd + 1) (default 0 valueLength)) false])
    else Some parts
  end.

End Fuzzy.

(** * The vocabulary of the properties

    The definitions below do not embed code: they name what the properties
    further down talk about (categories, events of a log, invariants of the
    executions) and the concrete stores and executions that the properties
    are tried on. *)

(** ** Recovery scan *)

Global Instance RecoveryStats_eq_dec : EqDecision RecoveryStats.
Proof. solve_decision. Defined.

(** The six categories, as the six ways to bump one counter. *)
Definition categories : list (RecoveryStats → RecoveryStats) :=
  [countNoAnswer; countUnservedAnswer; countCleanedFileAnswer;
   countServedFile; countRecovered; countMissingFile].

(** Two different counters were not bumped by the same call. *)
Ltac stats_differ :=
  match goal with
  | H : ?f ?st = ?g ?st |- _ =>
    unfold countNoAnswer, countUnservedAnswer, countCleanedFileAnswer,
      countServedFile, countRecovered, countMissingFile in H;
    injection H; intros; lia
  | H : ¬ (?x = ?x) |- _ => destruct H; reflexivity
  end.

(** A config: frames in [/tmp/genimg] as [.webp], at most 5 rejections, a
    required standard deviation of 10, a retention threshold of 5. *)
Definition config0 : RuntimeConfig := mkConfig "/tmp/genimg" "webp" 5 10 5.

Definition answer0 : StoredAnswer := mkAnswer 1 2 (167 # 2) None.

(** A world with one pending frame, ["f1"]. *)
Definition world_f1 : World :=
  mkWorld {[ "f1" := mkFileState None ]} {[ "f1" := answer0 ]} ∅ ∅
          {[ "/tmp/genimg/f1.webp" ]}.

(** A world whose only tracked frame has the empty string as its id. *)
Definition world_empty_id : World :=
  mkWorld {[ "" := mkFileState None ]} {[ "" := answer0 ]} ∅ ∅
          {[ "/tmp/genimg/.webp" ]}.

(** ** Answer expiry *)

(** What [cleanupAnswers] does to one answer. *)
Definition answerKept (now : Z) (answer : StoredAnswer) : option StoredAnswer :=
  if truthy (answerExpiryTs answer) && js_lt (answerExpiryTs answer) now
  then None else Some answer.

(** The spec's example: a sweep at time [T] with an answer that expired at
    [T-1] and one that expires at [T+1000]. *)
Definition T0 : Z := 1700000000000.

Definition world_answers : World :=
  mkWorld ∅ {[ "old" := mkAnswer 1 2 (167 # 2) (Some (T0 - 1));
               "new" := mkAnswer 1 3 (5 # 1) (Some (T0 + 1000)) ]} ∅ ∅ ∅.

(** ** Orphan image sweep *)

(** Two listings and an output directory: a frame, a file of another name,
    and a file that only the second listing sees. *)
Definition listing0 : list string :=
  ["/tmp/genimg/0a1b-ff.webp"; "/tmp/genimg/cover.webp"].

Definition world_listing : World :=
  mkWorld ∅ ∅ ∅ ∅ (list_to_set ("/tmp/genimg/late.webp" :: listing0)).

(** The characters that a frame id is made of: the digits, the letters [a]
    to [f] and the hyphen. *)
Definition keyChars : list ascii := list_ascii_of_string "0123456789abcdef-".

(** ** Frame-serving handler *)

(** [sub] occurs in [s]. *)
Definition contains (sub s : string) : Prop := ∃ a b, s = a +:+ sub +:+ b.

(** The same on lists of characters. *)
Definition hasInfix (sub l : list ascii) : Prop := ∃ a b, l = a ++ sub ++ b.

(** ** Invariants of executions *)

(** The promise number of an event. *)
Definition evId (e : event) : nat :=
  match e with EvIssue p _ | EvSettle p _ _ => p end.

(** The calls that a task makes all satisfy [P]. *)
Fixpoint issues {A} (P : op → Prop) (t : task A) : Prop :=
  match t with
  | Ret _ => True
  | Uuid k => ∀ id, issues P (k id)
  | Choose _ k => ∀ r, issues P (k r)
  | Call o k => P o ∧ ∀ p, issues P (k p)
  | Then _ o k => P o ∧ ∀ p, issues P (k p)
  | Await _ k => ∀ vs, issues P (k vs)
  end.

(** Promise numbers in use are below [next], and every call in flight or
    chained satisfies [P]. *)
Record Fresh (P : op → Prop) (s : AState) : Prop := mkFresh {
  fresh_pending : ∀ p o, (p, o) ∈ pending s → (p < next s)%nat ∧ P o;
  fresh_chained : ∀ p' p o, (p', p, o) ∈ chained s → (p' < next s)%nat ∧ P o;
  fresh_log : ∀ e, e ∈ log s → (evId e < next s)%nat
}.

(** The promise [pF] stands for the call [oF]; as soon as it is fulfilled
    the world satisfies [Q]. *)
Record Owns (Q : World → Prop) (pF : nat) (oF : op) (s : AState) : Prop := mkOwns {
  owns_next : (pF < next s)%nat;
  owns_pending : ∀ o, (pF, o) ∈ pending s → o = oF;
  owns_chained : ∀ p o, (pF, p, o) ∈ chained s → o = oF;
  owns_settled : ∀ o v, EvSettle pF o (Some v) ∈ log s →
                        o = oF ∧ (∃ w w', completes oF w v w') ∧ Q (world s)
}.

(** ** The quality gate *)

(** The extractions started in a stretch of the log, in order. *)
Definition extractions (l : list event) : list command :=
  omap (λ e, match e with
             | EvIssue _ (Exec (Ffmpeg seek input out)) => Some (Ffmpeg seek input out)
             | _ => None
             end) l.

(** The extraction that [ffmpegFrame] starts for a chosen frame. *)
Definition extractionOf (random : RandomEpisode) (outputPath : string) : command :=
  Ffmpeg (randomSeekTime random) (filename (randomEpisode random)) outputPath.

(** From [s] to [s'] nothing was chained, and the extractions started in
    between are [xs]. *)
Definition Ext (s s' : AState) (xs : list command) : Prop :=
  chained s' = [] ∧ ∃ l, log s' = log s ++ l ∧ extractions l = xs.

(** The call runs a subprocess. *)
Definition isExec (o : op) : Prop := ∃ c, o = Exec c.

(** The number of rounds still open when the body is entered with
    [rejected]: the round itself and the re-seeks that [maxRejects] allows. *)
Definition roundsLeft (config : RuntimeConfig) (rejected : Z) : nat :=
  S (Z.to_nat (frameGenMaxAttempts config - (rejected + 1))).

(** A run of [ffmpegFrame] with one re-seek allowed: the first frame is
    rejected (standard deviation 3, below the required 10), the second is
    accepted without a check. *)
Definition config_gate : RuntimeConfig := mkConfig "/tmp/genimg" "webp" 1 10 5.
Definition episode0 : ServerEpisodeData := mkEpisode 1 2 "s01e02.mkv".
Definition random0 : RandomEpisode := mkRandom episode0 (167 # 2).
Definition random1 : RandomEpisode := mkRandom episode0 (5 # 1).
Definition out0 : string := "/tmp/genimg/0a1b-ff.webp".
Definition world0 : World := mkWorld ∅ ∅ ∅ ∅ ∅.
Definition world_out0 : World := mkWorld ∅ ∅ ∅ ∅ {[ out0 ]}.

Definition run_gate : AState :=
  let x0 := Exec (extractionOf random0 out0) in
  let x1 := Exec (extractionOf random1 out0) in
  let i := Exec (Identify out0) in
  settle 2 x1 (Some VUnit) (wrote out0 (wrote out0 world0))
    (issue x1
       (settle 1 i (Some (VStat (Some 3))) (wrote out0 world0)
          (issue i
             (settle 0 x0 (Some VUnit) (wrote out0 world0)
                (issue x0 (init world0)))))).

(** Goals about concrete logs and lists of calls in flight. *)
Ltac in_list :=
  vm_compute; repeat first [apply list_elem_of_here | apply list_elem_of_further].

(** One move of the environment that fulfils a call, then none. *)
Ltac fulfil_one p o v w :=
  eapply env_next; [apply (env_fulfil _ p o v w); [in_list|constructor]|apply env_refl].

(** The awaited promises are fulfilled in the log at hand. *)
Ltac fulfilled_now := repeat constructor; eexists; in_list.

(** ** Order of events in a log *)

(** The first event of a log among those that satisfy [P] or [Q]: [Some
    true] when it satisfies [P], [Some false] when it satisfies [Q] only,
    [None] when there is none. *)
Fixpoint firstOf (P Q : event → bool) (l : list event) : option bool :=
  match l with
  | [] => None
  | e :: rest => if P e then Some true else if Q e then Some false else firstOf P Q rest
  end.

(** A [P] event occurs in the log, and no [Q] event occurs ahead of it. *)
Definition precedes (P Q : event → bool) (l : list event) : bool :=
  bool_decide (firstOf P Q l = Some true).

(** Events by the kind of their call: the call is made, has succeeded. *)
Definition issueOf (f : op → bool) (e : event) : bool :=
  match e with EvIssue _ o => f o | _ => false end.

Definition fulfilOf (f : op → bool) (e : event) : bool :=
  match e with EvSettle _ o (Some _) => f o | _ => false end.

Definition isSetFrameState (o : op) : bool :=
  match o with SetFrameState _ _ => true | _ => false end.
Definition isExtraction (o : op) : bool :=
  match o with Exec (Ffmpeg _ _ _) => true | _ => false end.
Definition isRemoveRun (o : op) : bool :=
  match o with RemoveRun _ => true | _ => false end.
Definition isSetArchivedRun (o : op) : bool :=
  match o with SetArchivedRun _ _ => true | _ => false end.

(** ** Frame generation *)

(** The calls of one frame generation: the two writes and subprocesses. *)
Definition generationCall (id : string) (answer : option StoredAnswer) (o : op) : Prop :=
  o = SetFrameState id (mkFileState None) ∨ isExec o
  ∨ ∃ a, answer = Some a ∧ o = SetAnswer id a.

(** A run of [generateFrame] without a quality gate, in which the
    frame-state write is carried out only after the extraction is over. *)
Definition config_nogate : RuntimeConfig := mkConfig "/tmp/genimg" "webp" 5 0 5.

Definition run_generate : AState :=
  let id := "0a1b-ff" in
  let oF := SetFrameState id (mkFileState None) in
  let x := Exec (extractionOf random0 out0) in
  let oA := SetAnswer id (answerOf random0) in
  let w1 := wrote out0 world0 in
  let w2 := set_frameState (<[id := mkFileState None]>) w1 in
  let w3 := set_answer (<[id := answerOf random0]>) w2 in
  settle 2 oA (Some VUnit) w3
    (settle 0 oF (Some VUnit) w2
       (issue oA
          (settle 1 x (Some VUnit) w1
             (issue x (issue oF (init world0)))))).

(** ** Run expiry and archival *)

(** What the sweep does to the live record and to the archived record of
    one run id. *)
Definition liveAfter (now : Z) (live : option StoredRunData) : option StoredRunData :=
  live ≫= λ data, if runExpired now data then None else Some data.

Definition archiveAfter (config : RuntimeConfig) (now : Z)
    (live archived : option StoredRunData) : option StoredRunData :=
  match live with
  | Some data =>
    if runExpired now data && runImportant config data
    then Some (archivedCopy data) else archived
  | None => archived
  end.

(** The calls of the callback once the run is known to have expired. *)
Definition runCall (runId : string) (archive : option StoredRunData) (o : op) : Prop :=
  o = RemoveRun runId ∨ ∃ d, archive = Some d ∧ o = SetArchivedRun runId d.

(** What the calls of the callback leave untouched: every store but the two
    run stores, and in those every key but [runId]; the archive as a whole
    when no archive write is made. *)
Definition runFrame (runId : string) (w : World) (archive : option StoredRunData)
    (w' : World) : Prop :=
  frameStateStorage w' = frameStateStorage w
  ∧ answerStorage w' = answerStorage w
  ∧ files w' = files w
  ∧ (∀ k, k ≠ runId → runStateStorage w' !! k = runStateStorage w !! k)
  ∧ (∀ k, k ≠ runId ∨ archive = None →
          archivedRunStorage w' !! k = archivedRunStorage w !! k).

(** The spec's example: an expired run with a history of 10 entries, and a
    retention threshold of 5. *)
Definition run10 : StoredRunData := mkRun (replicate 10 "f1") (Some (T0 - 1)).

Definition world_run : World := mkWorld ∅ ∅ {[ "run1" := run10 ]} ∅ ∅.

(** An execution of the callback for that run in which the removal of the
    live record is carried out before the archive write. *)
Definition run_cleanup : AState :=
  let oG := GetRun "run1" in
  let oR := RemoveRun "run1" in
  let oA := SetArchivedRun "run1" (archivedCopy run10) in
  let w1 := set_runState (delete "run1") world_run in
  let w2 := set_archivedRun (<["run1" := archivedCopy run10]>) w1 in
  settle 2 oA (Some VUnit) w2
    (settle 1 oR (Some VUnit) w1
       (issue oA
          (issue oR
             (settle 0 oG (Some (VRun (Some run10))) world_run
                (issue oG (init world_run)))))).

(** ** The two listings *)

(** Events by promise number: the call behind [p] is made, has succeeded,
    has come to an end. *)
Definition issuedP (p : nat) (e : event) : bool :=
  match e with EvIssue q _ => Nat.eqb q p | _ => false end.
Definition fulfilledP (p : nat) (e : event) : bool :=
  match e with EvSettle q _ (Some _) => Nat.eqb q p | _ => false end.
Definition endedP (p : nat) (e : event) : bool :=
  match e with EvSettle q _ _ => Nat.eqb q p | _ => false end.

(** The promise [p'] stands for the call [o'] chained to the promise [p]:
    the call is made only once [p] is fulfilled. *)
Record Waits (p p' : nat) (o' : op) (s : AState) : Prop := mkWaits {
  waits_chained : ∀ q o, (p', q, o) ∈ chained s → q = p ∧ o = o';
  waits_pending : ∀ o, (p', o) ∈ pending s → o = o' ∧ EvIssue p' o' ∈ log s;
  waits_settled : ∀ o r, EvSettle p' o (Some r) ∈ log s → EvIssue p' o' ∈ log s;
  waits_order : firstOf (fulfilledP p) (issuedP p') (log s) ≠ Some false
}.

(** An execution of the listing step in which the timer fires, and the
    second listing is started, while the first listing is still in flight. *)
Definition run_listing : AState :=
  let pat := "/tmp/genimg/*.webp" in
  let keys := VKeys (getKeys (frameStateStorage world_out0)) in
  settle 1 (Glob pat) (Some (VKeys [out0])) world_out0
    (settle 3 (Glob pat) (Some (VKeys [out0])) world_out0
       (settle 0 GetFrameKeys (Some keys) world_out0
          (fire 3 (Glob pat)
             (settle 2 (Sleep 1000) (Some VUnit) world_out0
                (chain 2 (Glob pat)
                   (issue (Sleep 1000)
                      (issue (Glob pat)
                         (issue GetFrameKeys (init world_out0))))))))).

(** ** Expired images *)

(** The test of [cleanupExpiredImages] on a frame, and what the sweep does
    to its record. *)
Definition fileExpired (now : Z) (st : StoredFileState) : bool :=
  truthy (fileExpiryTs st) && js_le (fileExpiryTs st) now.

Definition fileKept (now : Z) (st : StoredFileState) : option StoredFileState :=
  if fileExpired now st then None else Some st.

(** The image files of the frames of [ids] that have expired in [w]. *)
Definition expiredImage (config : RuntimeConfig) (now : Z) (w : World)
    (ids : list string) (f : string) : Prop :=
  ∃ id st, id ∈ ids ∧ frameStateStorage w !! id = Some st
           ∧ fileExpired now st = true ∧ f = imagePathForId config id.

(** A world with one tracked frame that has not been served, and its image
    file. *)
Definition world_tracked : World :=
  mkWorld {[ "0a1b-ff" := mkFileState None ]} ∅ ∅ ∅ {[ out0 ]}.

(** A world with a frame and its answer that both expire at [T0]. *)
Definition world_expiring : World :=
  mkWorld {[ "0a1b-ff" := mkFileState (Some T0) ]}
          {[ "0a1b-ff" := mkAnswer 1 2 (167 # 2) (Some T0) ]} ∅ ∅ {[ out0 ]}.

(** ** Run archival when a write fails *)

(** Membership in a list that is given element by element. *)
Ltac in_log := repeat first [apply list_elem_of_here | apply list_elem_of_further].

(** ** Recovery scan: ready and consistent frames *)

(** A frame that is ready to be served: tracked and not served yet, with an
    answer, and with its image file. *)
Definition readyFrame (config : RuntimeConfig) (w : World) (id : string) : Prop :=
  (∃ st, frameStateStorage w !! id = Some st ∧ truthy (fileExpiryTs st) = false)
  ∧ is_Some (answerStorage w !! id)
  ∧ imagePathForId config id ∈ files w.

(** What the callback of the scan returns for an id. *)
Definition recoverResult (config : RuntimeConfig) (id : string) (w : World) : string :=
  (recoverOne config id w noStats).1.1.

(** Two worlds hold the same records and the same image file for an id. *)
Definition sameFrame (config : RuntimeConfig) (id : string) (w1 w2 : World) : Prop :=
  frameStateStorage w1 !! id = frameStateStorage w2 !! id
  ∧ answerStorage w1 !! id = answerStorage w2 !! id
  ∧ (imagePathForId config id ∈ files w1 ↔ imagePathForId config id ∈ files w2).

(** The stores are consistent at an id: a tracked frame has an answer, and
    a tracked frame that has not been served has its image file. *)
Definition consistentFrame (config : RuntimeConfig) (w : World) (id : string) : Prop :=
  ∀ st, frameStateStorage w !! id = Some st →
        is_Some (answerStorage w !! id)
        ∧ (truthy (fileExpiryTs st) = false → imagePathForId config id ∈ files w).

(** A world with a frame that has lost its answer, a frame that has lost
    its image, a frame that is ready, and an answer without a frame. *)
Definition world_broken : World :=
  mkWorld {[ "a1" := mkFileState None; "b2" := mkFileState None;
             "c3" := mkFileState None ]}
          {[ "b2" := answer0; "c3" := answer0; "d4" := answer0 ]} ∅ ∅
          {[ "/tmp/genimg/a1.webp"; "/tmp/genimg/c3.webp" ]}.

(** ** What the scan leaves alone *)

(** [w'] is [w] with some frame-state records, answers and files taken
    away: nothing is added, no record is changed, and the run stores are
    the same. *)
Definition shrunk (w w' : World) : Prop :=
  frameStateStorage w' ⊆ frameStateStorage w
  ∧ answerStorage w' ⊆ answerStorage w
  ∧ files w' ⊆ files w
  ∧ runStateStorage w' = runStateStorage w
  ∧ archivedRunStorage w' = archivedRunStorage w.

(** ** Choosing a frame *)

(** An episode of a little more than ten seconds at ten frames a second,
    whose times are drawn from twenty seconds, and a skip-range function
    that skips nothing. *)
Definition timing0 : EpisodeTiming := mkTiming 20 [] (1006 # 100) 10.
Definition noSkip (time : Q) (ranges : list (Q * Q)) : Q := time.

(** ** The quality gate, subprocess by subprocess *)

(** The subprocesses started in a stretch of the log, in order. *)
Definition commands (l : list event) : list command :=
  omap (λ e, match e with EvIssue _ (Exec c) => Some c | _ => None end) l.

(** From [s] to [s'] nothing was chained, and the subprocesses started in
    between are [cs]. *)
Definition Cmds (s s' : AState) (cs : list command) : Prop :=
  chained s' = [] ∧ ∃ l, log s' = log s ++ l ∧ commands l = cs.

Definition isIdentify (c : command) : bool :=
  match c with Identify _ => true | Ffmpeg _ _ _ => false end.

(** Extractions to [out] and checks of [out] take turns, an extraction
    first. *)
Definition takesTurns (out : string) (cs : list command) : Prop :=
  ∀ i c, cs !! i = Some c →
         if Nat.even i then ∃ seek input, c = Ffmpeg seek input out
         else c = Identify out.

(** The checks that the loop may still run when its body is entered with
    [rejected]: none without a required deviation, else one for every
    re-seek that is left. *)
Definition checksLeft (config : RuntimeConfig) (rejected : Z) : nat :=
  if 0 <? frameRequiredStandardDeviation config
  then Z.to_nat (frameGenMaxAttempts config - (rejected + 1))
  else 0%nat.

(** ** Frame generation: what it touches *)

(** The file that a subprocess writes or reads. *)
Definition commandOutput (c : command) : string :=
  match c with Ffmpeg _ _ out => out | Identify out => out end.

(** The calls of the frame generation for [id]: writes of the records of
    [id], and subprocesses on its image file. *)
Definition ownCall (config : RuntimeConfig) (id : string) (o : op) : Prop :=
  (∃ v, o = SetFrameState id v) ∨ (∃ a, o = SetAnswer id a)
  ∨ (∃ c, o = Exec c ∧ commandOutput c = imagePathForId config id).

(** [w'] is [w] but for the two records and the image file of [id]. *)
Definition sameExcept (config : RuntimeConfig) (id : string) (w w' : World) : Prop :=
  (∀ k, k ≠ id → frameStateStorage w' !! k = frameStateStorage w !! k)
  ∧ (∀ k, k ≠ id → answerStorage w' !! k = answerStorage w !! k)
  ∧ runStateStorage w' = runStateStorage w
  ∧ archivedRunStorage w' = archivedRunStorage w
  ∧ (∀ f, f ≠ imagePathForId config id → f ∈ files w' ↔ f ∈ files w).

(** ** The earlier generation endpoint *)

(** An execution of the earlier [generateFrame]: the extraction and the
    answer write are started, then carried out in that order. *)
Definition config_gen : Gen.RuntimeConfig := Gen.mkConfig "/tmp/genimg" "webp".

Definition run_gen : AState :=
  let id := "0a1b-ff" in
  let x := Exec (extractionOf random0 out0) in
  let oA := SetAnswer id (answerOf random0) in
  let w1 := wrote out0 world0 in
  let w2 := set_answer (<[id := answerOf random0]>) w1 in
  settle 1 oA (Some VUnit) w2
    (settle 0 x (Some VUnit) w1
       (issue oA (issue x (init world0)))).

(** ** Fuzzy match display *)

(** The text of the parts, put together. *)
Definition partsText (parts : list Fuzzy.SearchPart) : string :=
  foldr (λ p s, Fuzzy.part p +:+ s) "" parts.

(** Ranges as Fuse gives them for a text of [len] characters: every range
    has [start <= end] and lies in the text, and the ranges come in order
    without overlap.  [lo] is the least index the next range may start at. *)
Fixpoint rangesFrom (lo len : Z) (ranges : list (Z * Z)) : Prop :=
  match ranges with
  | [] => True
  | (start, end_) :: rest =>
    lo ≤ start ∧ start ≤ end_ ∧ end_ < len ∧ rangesFrom (end_ + 1) len rest
  end.

(** No two neighbours in a list of flags are equal. *)
Fixpoint alternates (flags : list bool) : Prop :=
  match flags with
  | a :: rest => match rest with b :: _ => a ≠ b | [] => True end ∧ alternates rest
  | [] => True
  end.

(** The characters of a list from index [a] up to, not including, [b]. *)
Definition slice {A} (a b : Z) (l : list A) : list A :=
  take (Z.to_nat (b - a)) (drop (Z.to_nat a) l).

(** The index after the last range, [lo] when there is none. *)
Definition rangesEnd (lo : Z) (ranges : list (Z * Z)) : Z :=
  from_option (λ r, r.2 + 1) lo (last ranges).

(** * Properties *)

(** ** Strings *)

Lemma chars_app (a b : string) :
  list_ascii_of_string (a +:+ b) = list_ascii_of_string a ++ list_ascii_of_string b.
Proof.
  induction a as [|c a IH]; [reflexivity|].
  change (String c a +:+ b) with (String c (a +:+ b)).
  cbn [list_ascii_of_string]. rewrite IH. reflexivity.
Qed.

Lemma chars_inj (a b : string) :
  list_ascii_of_string a = list_ascii_of_string b → a = b.
Proof.
  intros H. rewrite <- (string_of_list_ascii_of_string a).
  rewrite <- (string_of_list_ascii_of_string b). congruence.
Qed.

Lemma imagePathForId_inj config id1 id2 :
  imagePathForId config id1 = imagePathForId config id2 → id1 = id2.
Proof.
  unfold imagePathForId. intros H.
  apply (f_equal list_ascii_of_string) in H.
  rewrite !chars_app in H.
  apply chars_inj.
  apply app_inv_head in H. apply app_inv_head in H.
  apply app_inv_tail in H. exact H.
Qed.

(** ** Sanity checks of the string functions *)

Example filenameToKey_uuid :
  filenameToKey "webp" "/tmp/genimg/0a1b-ff.webp" = Some "0a1b-ff".
Proof. reflexivity. Qed.
Example filenameToKey_other :
  filenameToKey "webp" "/tmp/genimg/cover.webp" = None.
Proof. reflexivity. Qed.
Example filenameToKey_noslash :
  filenameToKey "webp" "0a1b.webp" = None.
Proof. reflexivity. Qed.
Example filenameToKey_partial :
  filenameToKey "webp" "/tmp/x0a1b.webp" = None.
Proof. reflexivity. Qed.
Example intersection_ex :
  intersection ["a"; "b"; "a"; "c"] ["c"; "a"] = ["a"; "c"].
Proof. reflexivity. Qed.

(** ** Recovery scan *)

Lemma recoverOne_category config id w st :
  ∃ i bump, categories !! i = Some bump ∧ (recoverOne config id w st).2 = bump st.
Proof.
  unfold recoverOne.
  repeat match goal with |- context [if ?b then _ else _] => destruct b end;
    cbn [snd];
    first [ by exists 0%nat; eexists | by exists 1%nat; eexists
          | by exists 2%nat; eexists | by exists 3%nat; eexists
          | by exists 4%nat; eexists | by exists 5%nat; eexists ].
Qed.

Lemma category_total i bump st :
  categories !! i = Some bump → statsTotal (bump st) = S (statsTotal st).
Proof.
  unfold categories. intros H.
  do 6 (destruct i as [|i]; [injection H as <-; unfold statsTotal; cbn; lia|]).
  discriminate.
Qed.

Lemma category_once i bump st :
  categories !! i = Some bump →
  length (filter (λ c, bump st = c st) categories) = 1%nat.
Proof.
  unfold categories. intros H.
  do 6 (destruct i as [|i];
        [injection H as <-; rewrite !filter_cons, filter_nil;
         repeat case_decide; first [reflexivity | exfalso; stats_differ]|]).
  discriminate.
Qed.

Lemma recoverAll_total config ids w st :
  statsTotal (recoverAll config ids w st).2 = (statsTotal st + length ids)%nat.
Proof.
  revert w st. induction ids as [|id ids IH]; intros w st; cbn [recoverAll].
  - cbn. lia.
  - destruct (recoverOne config id w st) as [[r w1] st1] eqn:E1.
    specialize (IH w1 st1).
    destruct (recoverAll config ids w1 st1) as [[rs w2] st2].
    cbn [snd length] in *. rewrite IH.
    destruct (recoverOne_category config id w st) as (i & bump & Hi & Hb).
    rewrite E1 in Hb. cbn [snd] in Hb. subst st1.
    rewrite (category_total _ _ _ Hi). lia.
Qed.

(** C3.  Every call of the scan's callback bumps exactly one of the six
    counters, by one; so after the scan the six counts add up to the number
    of scanned ids. *)
Theorem recovery_counts_partition config w :
  (∀ id w0 st,
     length (filter (λ c, (recoverOne config id w0 st).2 = c st) categories) = 1%nat)
  ∧ statsTotal (stats (recoverFrames config w))
    = length (getKeys (frameStateStorage w)).
Proof.
  split.
  - intros id w0 st.
    destruct (recoverOne_category config id w0 st) as (i & bump & Hi & ->).
    by apply (category_once i).
  - unfold recoverFrames.
    pose proof (recoverAll_total config (getKeys (frameStateStorage w)) w noStats) as H.
    destruct (recoverAll config (getKeys (frameStateStorage w)) w noStats)
      as [[rs w'] st]. cbn in *. exact H.
Qed.

(** The callback for one id leaves the records and the file of another id
    alone. *)
Lemma recoverOne_other config id' id w st :
  id' ≠ id →
  let w' := (recoverOne config id' w st).1.2 in
  frameStateStorage w' !! id = frameStateStorage w !! id
  ∧ answerStorage w' !! id = answerStorage w !! id
  ∧ (imagePathForId config id ∈ files w' ↔ imagePathForId config id ∈ files w).
Proof.
  intros Hne. unfold recoverOne.
  assert (imagePathForId config id ≠ imagePathForId config id') as Hp.
  { intros E. apply imagePathForId_inj in E. congruence. }
  repeat match goal with |- context [if ?b then _ else _] => destruct b end;
    cbn; rewrite ?lookup_delete_ne by done; repeat split; try done;
    rewrite ?elem_of_difference, ?elem_of_singleton; tauto.
Qed.

Lemma recoverOne_result config id w st :
  (recoverOne config id w st).1.1 = "" ∨ (recoverOne config id w st).1.1 = id.
Proof.
  unfold recoverOne.
  repeat match goal with |- context [if ?b then _ else _] => destruct b end;
    cbn; auto.
Qed.

Lemma recoverOne_pending config id w st a :
  frameStateStorage w !! id = Some (mkFileState None) →
  answerStorage w !! id = Some a →
  imagePathForId config id ∈ files w →
  (recoverOne config id w st).1.1 = id.
Proof.
  intros Hf Ha Hfile. unfold recoverOne. rewrite Hf, Ha.
  unfold present. cbn.
  rewrite !bool_decide_eq_true_2 by eauto. reflexivity.
Qed.

Lemma recoverAll_count config ids id w st a :
  id ≠ "" → NoDup ids →
  frameStateStorage w !! id = Some (mkFileState None) →
  answerStorage w !! id = Some a →
  imagePathForId config id ∈ files w →
  count_occ string_dec (recoverAll config ids w st).1.1 id
  = (if bool_decide (id ∈ ids) then 1 else 0)%nat.
Proof.
  intros Hid Hnd. revert w st.
  induction Hnd as [|id' ids Hnotin Hnd IH]; intros w st Hf Ha Hfile;
    cbn [recoverAll].
  - reflexivity.
  - destruct (recoverOne config id' w st) as [[r w1] st1] eqn:E1.
    destruct (decide (id' = id)) as [->|Hne].
    + (* the id itself: it is returned, and does not come again *)
      pose proof (recoverOne_pending config id w st a Hf Ha Hfile) as Hr.
      rewrite E1 in Hr. cbn in Hr. subst r.
      rewrite bool_decide_eq_true_2 by (left; done).
      assert (count_occ string_dec (recoverAll config ids w1 st1).1.1 id = 0%nat)
        as H0.
      { apply count_occ_not_In. intros Hin.
        clear IH E1 Hf Ha Hfile. revert w1 st1 Hin.
        induction ids as [|x ids IHx]; intros w1 st1; cbn [recoverAll].
        - cbn. tauto.
        - destruct (recoverOne config x w1 st1) as [[r2 w2] st2] eqn:E2.
          specialize (IHx (λ H, Hnotin (list_elem_of_further _ _ _ H))
                          (NoDup_cons_1_2 _ _ Hnd) w2 st2).
          destruct (recoverAll config ids w2 st2) as [[rs w3] st3].
          cbn in *. intros [Hx|Hin]; [|tauto].
          pose proof (recoverOne_result config x w1 st1) as Hres.
          rewrite E2 in Hres. cbn in Hres.
          destruct Hres as [->| ->]; [congruence|].
          subst. apply Hnotin. left. }
      destruct (recoverAll config ids w1 st1) as [[rs w2] st2].
      cbn in *. rewrite H0. destruct (string_dec id id); [done|congruence].
    + pose proof (recoverOne_other config id' id w st Hne) as Hoth.
      rewrite E1 in Hoth. cbn in Hoth. destruct Hoth as (Hf1 & Ha1 & Hfile1).
      specialize (IH w1 st1).
      rewrite Hf1, Ha1 in IH. specialize (IH Hf Ha (proj2 Hfile1 Hfile)).
      pose proof (recoverOne_result config id' w st) as Hres.
      rewrite E1 in Hres. cbn in Hres.
      destruct (recoverAll config ids w1 st1) as [[rs w2] st2].
      cbn in *. rewrite IH.
      destruct (string_dec r id) as [->|_].
      * destruct Hres; congruence.
      * rewrite (bool_decide_ext (id ∈ id' :: ids) (id ∈ ids)); [done|].
        rewrite elem_of_cons. split; [intros [E|H]; [congruence|done]|by right].
Qed.

Lemma getKeys_NoDup {V} (m : gmap string V) : NoDup (getKeys m).
Proof. apply NoDup_fst_map_to_list. Qed.

Lemma getKeys_elem {V} (m : gmap string V) k :
  k ∈ getKeys m ↔ is_Some (m !! k).
Proof.
  unfold getKeys. rewrite list_elem_of_fmap. split.
  - intros ([k' v] & -> & H). apply elem_of_map_to_list in H. eauto.
  - intros [v H]. exists (k, v). split; [done|]. by apply elem_of_map_to_list.
Qed.

Lemma count_occ_items (results : list string) id :
  id ≠ "" →
  count_occ QueueItem_eq_dec
    (map mkItem (List.filter (λ x, negb (String.eqb x "")) results)) (mkItem id)
  = count_occ string_dec results id.
Proof.
  intros Hid. induction results as [|r rs IH]; [reflexivity|].
  cbn [List.filter]. destruct (String.eqb_spec r "") as [->|Hr]; cbn [negb map].
  - rewrite count_occ_cons_neq by congruence. exact IH.
  - destruct (decide (r = id)) as [->|Hne].
    + rewrite !count_occ_cons_eq by done. by rewrite IH.
    + rewrite !count_occ_cons_neq by congruence. exact IH.
Qed.

(** C2.  A tracked frame id with a [FileState] of null expiry, an [Answer]
    of null expiry and its image file on disk is in the recovered seed list
    exactly once.  A frame id is a key of the frame-state storage, and
    [generateFrame] is the only code that writes a key there, an id fresh
    from [myUuid]: a frame id is not the empty string, which is the hypothesis
    [id ≠ ""], as the stores of a [World] take any string as a key. *)
Theorem recovery_includes_pending_once config w id a :
  id ≠ "" →
  frameStateStorage w !! id = Some (mkFileState None) →
  answerStorage w !! id = Some a →
  answerExpiryTs a = None →
  imagePathForId config id ∈ files w →
  count_occ QueueItem_eq_dec (recovered (recoverFrames config w)) (mkItem id) = 1%nat.
Proof.
  intros Hid Hf Ha _ Hfile. unfold recoverFrames.
  pose proof (recoverAll_count config (getKeys (frameStateStorage w)) id w noStats a
                Hid (getKeys_NoDup _) Hf Ha Hfile) as H.
  destruct (recoverAll config (getKeys (frameStateStorage w)) w noStats)
    as [[rs w'] st]. cbn in *.
  rewrite count_occ_items by done. rewrite H.
  rewrite bool_decide_eq_true_2; [done|].
  apply getKeys_elem. eauto.
Qed.

Lemma recovery_includes_pending_once_witness :
  count_occ QueueItem_eq_dec (recovered (recoverFrames config0 world_f1)) (mkItem "f1")
  = 1%nat.
Proof.
  apply (recovery_includes_pending_once config0 world_f1 "f1" answer0).
  - discriminate.
  - reflexivity.
  - reflexivity.
  - reflexivity.
  - vm_compute. reflexivity.
Defined.

(** The empty string is no frame id: it is the value that the callback of
    the scan returns for a frame that it does not recover, and the filter
    drops it.  A world that had it as a key would not get it back. *)
Lemma recovery_drops_empty_id :
  frameStateStorage world_empty_id !! "" = Some (mkFileState None)
  ∧ answerStorage world_empty_id !! "" = Some answer0
  ∧ answerExpiryTs answer0 = None
  ∧ imagePathForId config0 "" ∈ files world_empty_id
  ∧ count_occ QueueItem_eq_dec
      (recovered (recoverFrames config0 world_empty_id)) (mkItem "") ≠ 1%nat.
Proof.
  split; [reflexivity|]. split; [reflexivity|]. split; [reflexivity|].
  split.
  - vm_compute. reflexivity.
  - vm_compute. intros H. discriminate H.
Qed.

(** ** Answer expiry *)

Lemma cleanupAnswer_lookup now id w k :
  answerStorage (cleanupAnswer now id w) !! k
  = if decide (id = k) then answerStorage w !! k ≫= answerKept now
    else answerStorage w !! k.
Proof.
  unfold cleanupAnswer, answerKept.
  destruct (decide (id = k)) as [->|Hne].
  - destruct (answerStorage w !! k) as [a|] eqn:E; cbn; [|by rewrite E].
    destruct (truthy _ && js_lt _ _); cbn; [apply lookup_delete_eq|done].
  - destruct (answerStorage w !! id) as [a|]; [|done].
    destruct (truthy _ && js_lt _ _); cbn; [by apply lookup_delete_ne|done].
Qed.

Lemma cleanupAnswers_fold now ids w k :
  NoDup ids →
  answerStorage (foldl (λ w' answerId, cleanupAnswer now answerId w') w ids) !! k
  = if bool_decide (k ∈ ids) then answerStorage w !! k ≫= answerKept now
    else answerStorage w !! k.
Proof.
  intros Hnd. revert w. induction Hnd as [|id ids Hnotin Hnd IH]; intros w.
  - reflexivity.
  - cbn [foldl]. rewrite IH, cleanupAnswer_lookup.
    destruct (decide (id = k)) as [->|Hne].
    + rewrite (bool_decide_eq_false_2 (k ∈ ids)) by done.
      rewrite bool_decide_eq_true_2 by (left; done). done.
    + rewrite (bool_decide_ext (k ∈ id :: ids) (k ∈ ids)); [done|].
      rewrite elem_of_cons. split; [intros [E|H]; [congruence|done]|by right].
Qed.

Lemma cleanupAnswers_lookup now w k :
  answerStorage (cleanupAnswers now w) !! k
  = answerStorage w !! k ≫= answerKept now.
Proof.
  unfold cleanupAnswers. rewrite cleanupAnswers_fold by apply getKeys_NoDup.
  case_bool_decide as Hk; [done|].
  destruct (answerStorage w !! k) eqn:E; [|done].
  destruct Hk. apply getKeys_elem. eauto.
Qed.




(** ** Orphan image sweep *)

Lemma uniq_elem seen l x : x ∈ uniq seen l ↔ x ∈ l ∧ x ∉ seen.
Proof.
  revert seen. induction l as [|y l IH]; intros seen; cbn [uniq].
  - split; [by intros ?%elem_of_nil|by intros [?%elem_of_nil _]].
  - case_bool_decide as Hy.
    + rewrite IH, elem_of_cons. split; [tauto|].
      intros [[->|H] Hn]; [done|tauto].
    + rewrite elem_of_cons, IH, elem_of_cons.
      rewrite (elem_of_cons l x y).
      destruct (decide (x = y)) as [->|Hne]; tauto.
Qed.

Lemma intersection_elem a b x : x ∈ intersection a b ↔ x ∈ a ∧ x ∈ b.
Proof.
  unfold intersection. rewrite uniq_elem, !list_elem_of_In, List.filter_In.
  rewrite bool_decide_eq_true, <- !list_elem_of_In.
  split; [tauto|]. intros H. split; [done|]. by intros ?%elem_of_nil.
Qed.

(** The files that the orphan sweep removes: those in both listings whose
    name gives a key that is not among the tracked ids. *)
Lemma cleanupOrphanedImages_elem config frameFileIds frames1 frames2 f :
  f ∈ cleanupOrphanedImages config frameFileIds frames1 frames2
  ↔ f ∈ frames1 ∧ f ∈ frames2
    ∧ ∃ key, filenameToKey (imageOutputExtension config) f = Some key
             ∧ key ∉ frameFileIds.
Proof.
  unfold cleanupOrphanedImages. rewrite list_elem_of_In, in_flat_map. split.
  - intros (x & Hx & Hf). apply list_elem_of_In, intersection_elem in Hx.
    destruct (filenameToKey _ x) as [key|] eqn:E; [|by destruct Hf].
    case_bool_decide as Hk; cbn in Hf; [by destruct Hf|].
    destruct Hf as [<-|[]]. destruct Hx. eauto.
  - intros (H1 & H2 & key & E & Hk). exists f. split.
    + apply list_elem_of_In, intersection_elem. done.
    + rewrite E. rewrite bool_decide_eq_false_2 by done. by left.
Qed.

Lemma takeWhile_app {A} (p : A → bool) (l : list A) x rest :
  Forall (λ c, p c = true) l → p x = false →
  takeWhile p (l ++ x :: rest) = l.
Proof.
  intros Hl Hx. induction Hl as [|c l Hc Hl IH]; cbn.
  - by rewrite Hx.
  - by rewrite Hc, IH.
Qed.

Lemma takeWhile_spec {A} (p : A → bool) (l : list A) :
  ∃ k rest, l = k ++ rest ∧ takeWhile p l = k
            ∧ Forall (λ x, p x = true) k
            ∧ match rest with c :: _ => p c = false | [] => True end.
Proof.
  induction l as [|x l (k & rest & -> & Hk & Hall & Hrest)].
  - by exists [], [].
  - cbn [takeWhile]. destruct (p x) eqn:Ex.
    + exists (x :: k), rest. rewrite Hk. repeat split; [by constructor|done].
    + by exists [], (x :: k ++ rest).
Qed.

(** The character class of the pattern holds the characters of a frame id
    and no other. *)
Lemma isKeyChar_keyChars c : isKeyChar c = true ↔ c ∈ keyChars.
Proof.
  assert (isKeyChar c = bool_decide (c ∈ keyChars)) as ->.
  { destruct c as [[] [] [] [] [] [] [] []]; vm_compute; reflexivity. }
  apply bool_decide_eq_true.
Qed.

(** A file name [{id}.{ext}] in any directory gives back its id when the id
    is a non-empty string of the characters [0-9a-f-]. *)
Lemma filenameToKey_named ext dir id :
  id ≠ "" →
  Forall (λ c, isKeyChar c = true) (list_ascii_of_string id) →
  filenameToKey ext (dir +:+ "/" +:+ id +:+ "." +:+ ext) = Some id.
Proof.
  intros Hid Hkey. unfold filenameToKey.
  rewrite !chars_app. cbn [list_ascii_of_string].
  rewrite !reverse_app. cbn [reverse rev_append]. rewrite <- !(assoc_L (++)).
  set (e := reverse (list_ascii_of_string ext)).
  set (d := reverse (list_ascii_of_string dir)).
  set (k := reverse (list_ascii_of_string id)).
  change (reverse ["."%char]) with ["."%char].
  change (reverse ["/"%char]) with ["/"%char].
  rewrite bool_decide_eq_true_2.
  2:{ exists (k ++ ["/"%char] ++ d). by rewrite <- !(assoc_L (++)). }
  rewrite (assoc_L (++) e ["."%char]).
  rewrite drop_app_length.
  assert (takeWhile isKeyChar (k ++ ["/"%char] ++ d) = k) as Htw.
  { apply takeWhile_app; [|reflexivity].
    unfold k. apply Forall_reverse. exact Hkey. }
  assert (k ≠ []) as Hk.
  { intros Ek. apply (f_equal length) in Ek. unfold k in Ek.
    rewrite length_reverse in Ek. destruct id; [done|]. cbn in Ek. lia. }
  assert (string_of_list_ascii (reverse k) = id) as Hrev.
  { unfold k. rewrite reverse_involutive.
    apply string_of_list_ascii_of_string. }
  rewrite Htw. clearbody k. destruct k as [|c k']; [done|].
  rewrite drop_app_length. cbn [app]. by rewrite Hrev.
Qed.

Lemma filenameToKey_imagePath config id :
  id ≠ "" →
  Forall (λ c, isKeyChar c = true) (list_ascii_of_string id) →
  filenameToKey (imageOutputExtension config) (imagePathForId config id) = Some id.
Proof. apply filenameToKey_named. Qed.

(** The pattern matches no other file names: a name that gives a key is
    [{key}.{ext}] in some directory, and the key is a non-empty string of the
    characters [0-9a-f-]. *)
Lemma filenameToKey_Some ext f key :
  filenameToKey ext f = Some key →
  ∃ dir, f = dir +:+ "/" +:+ key +:+ "." +:+ ext
         ∧ key ≠ ""
         ∧ Forall (λ c, isKeyChar c = true) (list_ascii_of_string key).
Proof.
  unfold filenameToKey. case_bool_decide as Hpre; [|done].
  destruct Hpre as [stem Hfile]. rewrite Hfile, drop_app_length.
  destruct (takeWhile_spec isKeyChar stem) as (k & rest & -> & Htw & Hall & _).
  rewrite Htw. destruct k as [|c k]; [done|]. rewrite drop_app_length.
  destruct rest as [|c' rest]; [done|].
  destruct (decide (c' = "/"%char)) as [->|Hne].
  2:{ destruct c' as [[] [] [] [] [] [] [] []]; done. }
  intros [= <-]. exists (string_of_list_ascii (reverse rest)).
  split; [|split].
  - apply chars_inj.
    rewrite !chars_app, !list_ascii_of_string_of_list_ascii.
    rewrite <- (reverse_involutive (list_ascii_of_string f)), Hfile.
    rewrite !reverse_app, reverse_involutive, chars_app, reverse_cons.
    cbn [list_ascii_of_string]. by rewrite <- !(assoc_L (++)).
  - intros E. apply (f_equal list_ascii_of_string) in E.
    rewrite list_ascii_of_string_of_list_ascii, reverse_cons in E.
    by destruct (reverse k).
  - rewrite list_ascii_of_string_of_list_ascii. by apply Forall_reverse.
Qed.

(** C4, as amended.  The orphan sweep leaves alone every file that is not in
    both listings; it removes a file that is in both listings and is the
    image file of an untracked id made of the characters [0-9a-f-] (and not
    empty), the names that the sweep's pattern accepts.  Files with other
    names are left in place, tracked or not: the files removed are the files
    in both listings with a name [{id}.{ext}], in any directory, for a
    non-empty untracked id of these characters, and the output directory
    loses these files and no other. *)
Theorem orphan_sweep_double_listing config frameFileIds frames1 frames2 w :
  let w' := orphanSweep config frameFileIds frames1 frames2 w in
  let removed := cleanupOrphanedImages config frameFileIds frames1 frames2 in
  (∀ f, ¬ (f ∈ frames1 ∧ f ∈ frames2) →
        (f ∉ removed) ∧ (f ∈ files w → f ∈ files w'))
  ∧ (∀ id, id ≠ "" →
           Forall (λ c, c ∈ keyChars) (list_ascii_of_string id) →
           id ∉ frameFileIds →
           imagePathForId config id ∈ frames1 →
           imagePathForId config id ∈ frames2 →
           imagePathForId config id ∈ removed
           ∧ imagePathForId config id ∉ files w')
  ∧ (∀ f, f ∈ removed
          ↔ f ∈ frames1 ∧ f ∈ frames2
            ∧ ∃ dir id,
                f = dir +:+ "/" +:+ id +:+ "." +:+ imageOutputExtension config
                ∧ id ≠ ""
                ∧ Forall (λ c, c ∈ keyChars) (list_ascii_of_string id)
                ∧ id ∉ frameFileIds)
  ∧ (∀ f, f ∈ files w' ↔ f ∈ files w ∧ f ∉ removed).
Proof.
  cbv zeta. unfold orphanSweep. cbn [files set_files].
  assert (∀ id, Forall (λ c, c ∈ keyChars) (list_ascii_of_string id)
                ↔ Forall (λ c, isKeyChar c = true) (list_ascii_of_string id))
    as Hchars.
  { intros id. split; intros H; (eapply Forall_impl; [exact H|]);
      intros c; apply isKeyChar_keyChars. }
  split; [|split; [|split]].
  - intros f Hnot.
    assert (f ∉ cleanupOrphanedImages config frameFileIds frames1 frames2) as Hf.
    { rewrite cleanupOrphanedImages_elem. tauto. }
    split; [done|]. intros Hin.
    rewrite elem_of_difference, elem_of_list_to_set. done.
  - intros id Hid Hkey Hn H1 H2.
    assert (imagePathForId config id
            ∈ cleanupOrphanedImages config frameFileIds frames1 frames2) as Hf.
    { rewrite cleanupOrphanedImages_elem. split; [done|]. split; [done|].
      exists id. split; [|done]. apply filenameToKey_imagePath; [done|].
      by apply Hchars. }
    split; [done|].
    rewrite elem_of_difference, elem_of_list_to_set. tauto.
  - intros f. rewrite cleanupOrphanedImages_elem. split.
    + intros (H1 & H2 & key & Hkey & Hn). split; [done|]. split; [done|].
      apply filenameToKey_Some in Hkey as (dir & -> & Hne & Hall).
      exists dir, key. split; [done|]. split; [done|]. split; [|done].
      by apply Hchars.
    + intros (H1 & H2 & dir & id & -> & Hne & Hall & Hn).
      split; [done|]. split; [done|]. exists id. split; [|done].
      apply filenameToKey_named; [done|]. by apply Hchars.
  - intros f. by rewrite elem_of_difference, elem_of_list_to_set.
Qed.

Lemma orphan_sweep_double_listing_witness :
  (("/tmp/genimg/late.webp"
     ∉ cleanupOrphanedImages config0 [] listing0 ("/tmp/genimg/late.webp" :: listing0))
   ∧ ("/tmp/genimg/late.webp" ∈ files world_listing →
      "/tmp/genimg/late.webp"
        ∈ files (orphanSweep config0 [] listing0
                   ("/tmp/genimg/late.webp" :: listing0) world_listing)))
  ∧ (imagePathForId config0 "0a1b-ff"
       ∈ cleanupOrphanedImages config0 [] listing0 ("/tmp/genimg/late.webp" :: listing0)
     ∧ imagePathForId config0 "0a1b-ff"
         ∉ files (orphanSweep config0 [] listing0
                    ("/tmp/genimg/late.webp" :: listing0) world_listing)).
Proof.
  split.
  - apply (proj1 (orphan_sweep_double_listing config0 [] listing0
                    ("/tmp/genimg/late.webp" :: listing0) world_listing)).
    intros [H _]. vm_compute in H.
    repeat (apply elem_of_cons in H as [H|H]; [discriminate H|]).
    by apply elem_of_nil in H.
  - apply (proj1 (proj2 (orphan_sweep_double_listing config0 [] listing0
                           ("/tmp/genimg/late.webp" :: listing0) world_listing))).
    + intros H. discriminate H.
    + apply Forall_forall. intros c Hc. revert c Hc. apply Forall_forall.
      vm_compute. repeat constructor.
    + apply not_elem_of_nil.
    + vm_compute. left.
    + vm_compute. right. left.
Defined.

(** C4 as stated fails for a file whose name is not made of the characters
    [0-9a-f-]: it is in both listings, its id is not tracked, and the sweep
    leaves it in place. *)
Lemma orphan_sweep_keeps_other_names :
  imagePathForId config0 "cover" ∈ listing0
  ∧ imagePathForId config0 "cover" ∈ listing0
  ∧ ("cover" ∉ ([] : list string))
  ∧ imagePathForId config0 "cover" ∈ files world_listing
  ∧ cleanupOrphanedImages config0 [] listing0 listing0 = ["/tmp/genimg/0a1b-ff.webp"]
  ∧ imagePathForId config0 "cover"
      ∈ files (orphanSweep config0 [] listing0 listing0 world_listing).
Proof.
  assert (imagePathForId config0 "cover" ∈ listing0) as Hin.
  { vm_compute. right. left. }
  split; [done|]. split; [done|]. split; [apply not_elem_of_nil|].
  split; [vm_compute; reflexivity|]. split; [reflexivity|].
  vm_compute. reflexivity.
Qed.

(** ** Frame-serving handler *)

Lemma contains_chars sub s :
  contains sub s ↔ hasInfix (list_ascii_of_string sub) (list_ascii_of_string s).
Proof.
  unfold contains, hasInfix. split.
  - intros (a & b & ->). exists (list_ascii_of_string a), (list_ascii_of_string b).
    by rewrite !chars_app.
  - intros (a & b & H). exists (string_of_list_ascii a), (string_of_list_ascii b).
    apply chars_inj. rewrite !chars_app, !list_ascii_of_string_of_list_ascii. exact H.
Qed.

Lemma hasInfix_cons sub c l : hasInfix sub l → hasInfix sub (c :: l).
Proof. intros (a & b & ->). by exists (c :: a), b. Qed.

Lemma traversingPathRe_infix l :
  traversingPathRe l = true
  ↔ hasInfix ["/"%char] l ∨ hasInfix ["\"%char] l ∨ hasInfix ["."%char; "."%char] l.
Proof.
  split.
  - induction l as [|c l IH]; cbn [traversingPathRe]; [discriminate|].
    rewrite !orb_true_iff, andb_true_iff.
    intros [[[Hc|Hc]|[Hc Hd]]|Hrest].
    + apply Ascii.eqb_eq in Hc as ->. left. by exists [], l.
    + apply Ascii.eqb_eq in Hc as ->. right. left. by exists [], l.
    + apply Ascii.eqb_eq in Hc as ->. destruct l as [|d l]; [discriminate|].
      apply Ascii.eqb_eq in Hd as ->. right. right. by exists [], l.
    + destruct (IH Hrest) as [H|[H|H]]; eauto using hasInfix_cons.
  - assert (∀ sub, (∀ b, traversingPathRe (sub ++ b) = true) →
                   hasInfix sub l → traversingPathRe l = true) as Hgen.
    { intros sub Hsub (a & b & ->). induction a as [|c a IH]; [apply Hsub|].
      cbn [app traversingPathRe]. rewrite IH. apply orb_true_r. }
    intros [H|[H|H]]; (eapply Hgen; [|exact H]); intros b; reflexivity.
Qed.

Lemma endsWith_suffix s suffix :
  endsWith s suffix = true ↔ ∃ pre, s = pre +:+ suffix.
Proof.
  unfold endsWith. rewrite bool_decide_eq_true. split.
  - intros [k Hk]. exists (string_of_list_ascii k). apply chars_inj.
    by rewrite chars_app, list_ascii_of_string_of_list_ascii.
  - intros [pre ->]. exists (list_ascii_of_string pre). apply chars_app.
Qed.

(** C10.  A missing (absent or empty) basename is answered with 404; a
    basename that holds a slash, a backslash or two dots in a row, or that
    does not end in the image extension, is answered with 400; both without
    any access to the filesystem.  Every path the handler does hand to the
    filesystem is the output directory joined with a basename free of
    separators and of dot-dot, so it names a file in that directory. *)
Theorem frame_handler_confined config createReadStream runId cleanuponload :
  frameGetHandler config createReadStream None runId cleanuponload
  = ([], HttpError 404)
  ∧ frameGetHandler config createReadStream (Some "") runId cleanuponload
    = ([], HttpError 404)
  ∧ (∀ basename,
       basename ≠ "" →
       contains "/" basename ∨ contains "\" basename ∨ contains ".." basename
       ∨ ¬ (∃ pre, basename = pre +:+ "." +:+ imageOutputExtension config) →
       frameGetHandler config createReadStream (Some basename) runId cleanuponload
       = ([], HttpError 400))
  ∧ (∀ request file,
       file ∈ (frameGetHandler config createReadStream request runId cleanuponload).1 →
       ∃ basename,
         request = Some basename
         ∧ file = pathJoin (frameOutputDir config) basename
         ∧ ¬ contains "/" basename ∧ ¬ contains "\" basename
         ∧ ¬ contains ".." basename
         ∧ ∃ pre, basename = pre +:+ "." +:+ imageOutputExtension config).
Proof.
  split; [reflexivity|]. split; [reflexivity|]. split.
  - intros basename Hne Hbad. unfold frameGetHandler.
    destruct (String.eqb_spec basename ""); [done|].
    destruct (traversingPathRe (list_ascii_of_string basename)) eqn:Et; [done|].
    destruct (endsWith basename _) eqn:Ee; [|done]. exfalso.
    apply endsWith_suffix in Ee.
    assert (¬ (traversingPathRe (list_ascii_of_string basename) = true)) as Hn
      by congruence.
    rewrite traversingPathRe_infix in Hn.
    rewrite !contains_chars in Hbad. cbn [list_ascii_of_string] in Hbad. tauto.
  - intros request file. unfold frameGetHandler.
    destruct request as [basename|]; [|by intros ?%elem_of_nil].
    destruct (String.eqb_spec basename ""); [by intros ?%elem_of_nil|].
    destruct (traversingPathRe (list_ascii_of_string basename)) eqn:Et;
      [by intros ?%elem_of_nil|].
    destruct (endsWith basename _) eqn:Ee; [|by intros ?%elem_of_nil].
    assert (¬ (traversingPathRe (list_ascii_of_string basename) = true)) as Hn
      by congruence.
    rewrite traversingPathRe_infix in Hn.
    apply endsWith_suffix in Ee.
    intros Hin.
    assert (file = pathJoin (frameOutputDir config) basename) as ->.
    { destruct (createReadStream _); cbn in Hin;
        by apply list_elem_of_singleton in Hin. }
    exists basename. rewrite !contains_chars. cbn [list_ascii_of_string].
    split; [done|]. split; [done|]. tauto.
Qed.

Lemma frame_handler_confined_witness :
  frameGetHandler config0 (λ _, None) (Some "../../etc/passwd.webp") None None
  = ([], HttpError 400)
  ∧ ∃ basename,
      Some "0a1b-ff.webp" = Some basename
      ∧ "/tmp/genimg/0a1b-ff.webp" = pathJoin (frameOutputDir config0) basename
      ∧ ¬ contains "/" basename ∧ ¬ contains "\" basename
      ∧ ¬ contains ".." basename
      ∧ ∃ pre, basename = pre +:+ "." +:+ imageOutputExtension config0.
Proof.
  destruct (frame_handler_confined config0 (λ _, None) None None)
    as (_ & _ & Hreject & Hopen).
  split.
  - apply Hreject.
    + intros H. discriminate H.
    + left. exists "..", "../etc/passwd.webp". reflexivity.
  - apply (Hopen (Some "0a1b-ff.webp")). vm_compute. left.
Defined.

Example frame_handler_serves :
  frameGetHandler config0 (λ _, None) (Some "0a1b-ff.webp") (Some "run1") None
  = (["/tmp/genimg/0a1b-ff.webp"],
     SendStream "/tmp/genimg/0a1b-ff.webp" "0a1b-ff" true false).
Proof. reflexivity. Qed.

(** ** Executions of tasks: the log only grows *)

Lemma env_star_trans s1 s2 s3 : env_star s1 s2 → env_star s2 s3 → env_star s1 s3.
Proof. induction 1; eauto using env_star. Qed.

Lemma env_star_one s s' : env_step s s' → env_star s s'.
Proof. eauto using env_star. Qed.

Lemma env_step_frame s s' :
  env_step s s' → next s' = next s ∧ ∃ e, log s' = log s ++ [e].
Proof. destruct 1; cbn; eauto. Qed.

Lemma env_star_frame s s' :
  env_star s s' → next s' = next s ∧ ∃ l, log s' = log s ++ l.
Proof.
  induction 1 as [s|s1 s2 s3 Hstep _ (Hn & l & Hl)].
  - split; [done|]. exists []. by rewrite app_nil_r.
  - apply env_step_frame in Hstep as (Hn1 & e & He). split; [congruence|].
    exists (e :: l). rewrite Hl, He, <- (assoc_L (++)). done.
Qed.

Lemma exec_log {A} (t : task A) s out s' :
  exec t s out s' → ∃ l, log s' = log s ++ l.
Proof.
  revert s. induction t as [a|k IH|eps k IH|o k IH|p o k IH|ps k IH];
    intros s; cbn [exec].
  - intros [H _]. by apply env_star_frame in H as [_ H].
  - intros [id H]. eauto.
  - intros [(r & _ & H)|(_ & _ & H)]; [eauto|].
    by apply env_star_frame in H as [_ H].
  - intros (s1 & H1 & H). apply env_star_frame in H1 as (_ & l1 & Hl1).
    apply IH in H as [l Hl]. cbn in Hl. exists (l1 ++ EvIssue (next s1) o :: l).
    rewrite Hl, Hl1, <- !(assoc_L (++)). done.
  - intros (s1 & H1 & H). apply env_star_frame in H1 as (_ & l1 & Hl1).
    apply IH in H as [l Hl]. cbn in Hl. exists (l1 ++ l).
    rewrite Hl, Hl1, <- !(assoc_L (++)). done.
  - intros (s1 & H1 & [(vs & _ & H)|(p & _ & _ & _ & ->)]);
      apply env_star_frame in H1 as (_ & l1 & Hl1).
    + apply IH in H as [l Hl]. exists (l1 ++ l).
      rewrite Hl, Hl1, <- !(assoc_L (++)). done.
    + eauto.
Qed.

(** Moves of the environment ahead of a task are part of its execution. *)
Lemma exec_front {A} (t : task A) s s1 out s' :
  env_star s s1 → exec t s1 out s' → exec t s out s'.
Proof.
  intros Hs. revert s s1 Hs.
  induction t as [a|k IH|eps k IH|o k IH|p o k IH|ps k IH];
    intros s s1 Hs; cbn [exec].
  - intros [H ->]. eauto using env_star_trans.
  - intros [id H]. eauto.
  - intros [(r & Hr & H)|(-> & -> & H)]; [left; eauto|right].
    eauto using env_star_trans.
  - intros (s2 & H2 & H). eauto using env_star_trans.
  - intros (s2 & H2 & H). eauto using env_star_trans.
  - intros (s2 & H2 & H). eauto using env_star_trans.
Qed.

(** An execution of [bind t f] is one of [t] followed by one of [f]. *)
Lemma exec_bind {A B} (t : task A) (f : A → task B) s out s' :
  exec (bind t f) s out s' →
  (∃ a s1, exec t s (Returned a) s1 ∧ exec (f a) s1 out s')
  ∨ (out = Thrown ∧ exec t s Thrown s').
Proof.
  revert s. induction t as [a|k IH|eps k IH|o k IH|p o k IH|ps k IH];
    intros s; cbn [bind exec].
  - intros H. left. exists a, s. split; [|done]. split; [apply env_refl|done].
  - intros [id H]. apply IH in H as [(a & s1 & H1 & H2)|[-> H]]; eauto 8.
  - intros [(r & Hr & H)|(-> & -> & H)]; [|by right; eauto].
    apply IH in H as [(a & s1 & H1 & H2)|[-> H]]; [left|right]; eauto 10.
  - intros (s1 & Hs & H).
    apply IH in H as [(a & s2 & H1 & H2)|[-> H]]; [left|right]; eauto 10.
  - intros (s1 & Hs & H).
    apply IH in H as [(a & s2 & H1 & H2)|[-> H]]; [left|right]; eauto 10.
  - intros (s1 & Hs & [(vs & Hvs & H)|(p & Hp & Hr & -> & ->)]).
    + apply IH in H as [(a & s2 & H1 & H2)|[-> H]]; [left|right].
      * exists a, s2. split; [|done]. exists s1. split; [done|]. left. eauto.
      * split; [done|]. exists s1. split; [done|]. left. eauto.
    + right. split; [done|]. exists s1. split; [done|]. right. eauto.
Qed.

(** ** Invariants of executions *)

Lemma Fresh_init P w : Fresh P (init w).
Proof. split; cbn; intros; by apply elem_of_nil in H. Qed.

Lemma Fresh_mono (P P' : op → Prop) s :
  (∀ o, P o → P' o) → Fresh P s → Fresh P' s.
Proof.
  intros HP [H1 H2 H3]. split; [| |done].
  - intros p o H. destruct (H1 p o H). auto.
  - intros p' p o H. destruct (H2 p' p o H). auto.
Qed.

Lemma Fresh_issue P o s : P o → Fresh P s → Fresh P (issue o s).
Proof.
  intros Ho [H1 H2 H3]. split; cbn.
  - intros p o' [H|H]%elem_of_app.
    + destruct (H1 _ _ H). split; [lia|done].
    + apply list_elem_of_singleton in H. injection H as -> ->. split; [lia|done].
  - intros p' p o' H. destruct (H2 _ _ _ H). split; [lia|done].
  - intros e [H|H]%elem_of_app.
    + apply H3 in H. lia.
    + apply list_elem_of_singleton in H. subst e. cbn. lia.
Qed.

Lemma Fresh_chain P p o s : P o → Fresh P s → Fresh P (chain p o s).
Proof.
  intros Ho [H1 H2 H3]. split; cbn.
  - intros q o' H. destruct (H1 _ _ H). split; [lia|done].
  - intros p' q o' [H|H]%elem_of_app.
    + destruct (H2 _ _ _ H). split; [lia|done].
    + apply list_elem_of_singleton in H. injection H as -> -> ->. split; [lia|done].
  - intros e H. apply H3 in H. lia.
Qed.

Lemma Fresh_env_step P s s' : env_step s s' → Fresh P s → Fresh P s'.
Proof.
  intros Hstep [H1 H2 H3].
  destruct Hstep as [s p o v w' Hp Hc|s p o Hp|s p' p o v Hc Hf|s p' p o Hc Hr];
    split; cbn.
  - intros q o' [_ H]%list_elem_of_filter. auto.
  - done.
  - intros e [H|H]%elem_of_app; [auto|].
    apply list_elem_of_singleton in H. subst e. cbn. by destruct (H1 _ _ Hp).
  - intros q o' [_ H]%list_elem_of_filter. auto.
  - done.
  - intros e [H|H]%elem_of_app; [auto|].
    apply list_elem_of_singleton in H. subst e. cbn. by destruct (H1 _ _ Hp).
  - intros q o' [H|H]%elem_of_app; [auto|].
    apply list_elem_of_singleton in H. injection H as -> ->. eauto.
  - intros q' q o' [_ H]%list_elem_of_filter. eauto.
  - intros e [H|H]%elem_of_app; [auto|].
    apply list_elem_of_singleton in H. subst e. cbn. by destruct (H2 _ _ _ Hc).
  - done.
  - intros q' q o' [_ H]%list_elem_of_filter. eauto.
  - intros e [H|H]%elem_of_app; [auto|].
    apply list_elem_of_singleton in H. subst e. cbn. by destruct (H2 _ _ _ Hc).
Qed.

Lemma Fresh_env_star P s s' : env_star s s' → Fresh P s → Fresh P s'.
Proof. induction 1; eauto using Fresh_env_step. Qed.

Lemma Fresh_exec {A} P (t : task A) s out s' :
  issues P t → exec t s out s' → Fresh P s → Fresh P s'.
Proof.
  revert s. induction t as [a|k IH|eps k IH|o k IH|p o k IH|ps k IH];
    intros s Ht; cbn [exec issues] in *.
  - intros [H _]. eauto using Fresh_env_star.
  - intros [id H]. eauto.
  - intros [(r & _ & H)|(_ & _ & H)]; eauto using Fresh_env_star.
  - destruct Ht as [Ho Hk]. intros (s1 & H1 & H) Hs.
    eapply IH; eauto using Fresh_env_star, Fresh_issue.
  - destruct Ht as [Ho Hk]. intros (s1 & H1 & H) Hs.
    eapply IH; eauto using Fresh_env_star, Fresh_chain.
  - intros (s1 & H1 & [(vs & _ & H)|(p & _ & _ & _ & ->)]) Hs;
      eauto using Fresh_env_star.
Qed.

Section Owns.
(** [Q] is a fact about the world that the call [oF] brings about and that
    no call in flight undoes. *)
Variable P : op → Prop.
Variable Q : World → Prop.
Variable pF : nat.
Variable oF : op.
Hypothesis Q_stable : ∀ o w v w', P o → completes o w v w' → Q w → Q w'.
Hypothesis Q_established : ∀ w v w', completes oF w v w' → Q w'.

Lemma Owns_create s : pF = next s → Fresh P s → Owns Q pF oF (issue oF s).
Proof.
  intros Hp [H1 H2 H3]. split; cbn; rewrite Hp.
  - lia.
  - intros o [H|H]%elem_of_app.
    + destruct (H1 _ _ H). lia.
    + apply list_elem_of_singleton in H. by injection H as ->.
  - intros p o H. destruct (H2 _ _ _ H). lia.
  - intros o v [H|H]%elem_of_app.
    + apply H3 in H. cbn in H. lia.
    + apply list_elem_of_singleton in H. discriminate H.
Qed.

Lemma Owns_create_chain p s : pF = next s → Fresh P s → Owns Q pF oF (chain p oF s).
Proof.
  intros Hp [H1 H2 H3]. split; cbn; rewrite Hp.
  - lia.
  - intros o H. destruct (H1 _ _ H). lia.
  - intros q o [H|H]%elem_of_app.
    + destruct (H2 _ _ _ H). lia.
    + apply list_elem_of_singleton in H. by injection H as _ ->.
  - intros o v H. apply H3 in H. cbn in H. lia.
Qed.

Lemma Owns_issue o s : Owns Q pF oF s → Owns Q pF oF (issue o s).
Proof.
  intros [H0 H1 H2 H3]. split; cbn.
  - lia.
  - intros o' [H|H]%elem_of_app; [auto|].
    apply list_elem_of_singleton in H. injection H as E _. lia.
  - done.
  - intros o' v [H|H]%elem_of_app; [auto|].
    apply list_elem_of_singleton in H. discriminate H.
Qed.

Lemma Owns_chain p o s : Owns Q pF oF s → Owns Q pF oF (chain p o s).
Proof.
  intros [H0 H1 H2 H3]. split; cbn.
  - lia.
  - done.
  - intros q o' [H|H]%elem_of_app; [eauto|].
    apply list_elem_of_singleton in H. injection H as E _ _. lia.
  - done.
Qed.

Lemma Owns_env_step s s' : env_step s s' → Fresh P s → Owns Q pF oF s → Owns Q pF oF s'.
Proof.
  intros Hstep [F1 F2 F3] [H0 H1 H2 H3].
  destruct Hstep as [s p o v w' Hp Hc|s p o Hp|s p' p o v Hc Hf|s p' p o Hc Hr];
    split; cbn; try done.
  - intros o' [_ H]%list_elem_of_filter. auto.
  - intros o' v' [H|H]%elem_of_app.
    + destruct (H3 _ _ H) as (-> & Hcomp & HQ). split; [done|]. split; [done|].
      destruct (F1 _ _ Hp). eauto.
    + apply list_elem_of_singleton in H. injection H as -> -> ->.
      pose proof (H1 _ Hp) as ->. eauto 6.
  - intros o' [_ H]%list_elem_of_filter. auto.
  - intros o' v' [H|H]%elem_of_app; [auto|].
    apply list_elem_of_singleton in H. discriminate H.
  - intros o' [H|H]%elem_of_app; [auto|].
    apply list_elem_of_singleton in H. injection H as -> ->. eauto.
  - intros q o' [_ H]%list_elem_of_filter. eauto.
  - intros o' v' [H|H]%elem_of_app; [auto|].
    apply list_elem_of_singleton in H. discriminate H.
  - intros q o' [_ H]%list_elem_of_filter. eauto.
  - intros o' v' [H|H]%elem_of_app; [auto|].
    apply list_elem_of_singleton in H. discriminate H.
Qed.

Lemma Owns_env_star s s' : env_star s s' → Fresh P s → Owns Q pF oF s → Owns Q pF oF s'.
Proof. induction 1; eauto using Owns_env_step, Fresh_env_step. Qed.

Lemma Owns_exec {A} (t : task A) s out s' :
  issues P t → exec t s out s' → Fresh P s → Owns Q pF oF s → Owns Q pF oF s'.
Proof.
  revert s. induction t as [a|k IH|eps k IH|o k IH|p o k IH|ps k IH];
    intros s Ht; cbn [exec issues] in *.
  - intros [H _]. eauto using Owns_env_star.
  - intros [id H]. eauto.
  - intros [(r & _ & H)|(_ & _ & H)]; eauto using Owns_env_star.
  - destruct Ht as [Ho Hk]. intros (s1 & H1 & H) Hs Hown.
    eapply IH; eauto using Fresh_env_star, Fresh_issue, Owns_env_star, Owns_issue.
  - destruct Ht as [Ho Hk]. intros (s1 & H1 & H) Hs Hown.
    eapply IH; eauto using Fresh_env_star, Fresh_chain, Owns_env_star, Owns_chain.
  - intros (s1 & H1 & [(vs & _ & H)|(q & _ & _ & _ & ->)]) Hs Hown;
      eauto using Fresh_env_star, Owns_env_star.
Qed.
End Owns.

(** ** The quality gate of [ffmpegFrame] *)

Lemma extractions_app l1 l2 : extractions (l1 ++ l2) = extractions l1 ++ extractions l2.
Proof. apply omap_app. Qed.

Lemma Ext_trans s1 s2 s3 xs ys : Ext s1 s2 xs → Ext s2 s3 ys → Ext s1 s3 (xs ++ ys).
Proof.
  intros (_ & l1 & Hl1 & <-) (Hc & l2 & Hl2 & <-). split; [done|].
  exists (l1 ++ l2). rewrite Hl2, Hl1, <- (assoc_L (++)), extractions_app. done.
Qed.

Lemma Ext_env_step s s' : chained s = [] → env_step s s' → Ext s s' [].
Proof.
  intros Hc Hstep.
  destruct Hstep as [s p o v w' Hp Hcomp|s p o Hp|s p' p o v Hch Hf|s p' p o Hch Hr].
  - split; [done|]. by eexists.
  - split; [done|]. by eexists.
  - rewrite Hc in Hch. by apply elem_of_nil in Hch.
  - rewrite Hc in Hch. by apply elem_of_nil in Hch.
Qed.

Lemma Ext_env_star s s' : chained s = [] → env_star s s' → Ext s s' [].
Proof.
  intros Hc Hs. induction Hs as [s|s1 s2 s3 Hstep _ IH].
  - split; [done|]. exists []. by rewrite app_nil_r.
  - pose proof (Ext_env_step _ _ Hc Hstep) as H12.
    apply (Ext_trans _ _ _ [] [] H12). apply IH. by destruct H12.
Qed.

Lemma Ext_issue s o :
  chained s = [] → Ext s (issue o s) (extractions [EvIssue (next s) o]).
Proof. intros Hc. split; [done|]. by eexists. Qed.

Lemma ffmpegLoop_issues config eps out fuel rejected :
  issues isExec (ffmpegLoop config eps out fuel rejected).
Proof.
  revert rejected. induction fuel as [|fuel IH]; intros rejected; cbn; [done|].
  intros random. split; [by eexists|]. intros p vs.
  destruct (_ && _); cbn; [|done].
  split; [by eexists|]. intros q stdout. destruct (statBelow _ _); cbn; auto.
Qed.

Lemma Ext_done s s2 s' xs : Ext s s2 xs → env_star s2 s' → Ext s s' xs.
Proof.
  intros E H. rewrite <- (app_nil_r xs). apply (Ext_trans _ _ _ _ _ E).
  apply Ext_env_star; [by destruct E|done].
Qed.

Lemma Ext_call s s2 o xs :
  Ext s s2 xs → Ext s (issue o s2) (xs ++ extractions [EvIssue (next s2) o]).
Proof. intros E. apply (Ext_trans _ _ _ _ _ E). apply Ext_issue. by destruct E. Qed.

Lemma roundsLeft_next config rejected :
  rejected + 1 < frameGenMaxAttempts config →
  roundsLeft config rejected = S (roundsLeft config (rejected + 1)).
Proof. unfold roundsLeft. lia. Qed.

Lemma ffmpegLoop_sound config eps out fuel rejected s res s' :
  chained s = [] →
  (roundsLeft config rejected ≤ fuel)%nat →
  exec (ffmpegLoop config eps out fuel rejected) s res s' →
  ∃ xs, Ext s s' xs
        ∧ (length xs ≤ roundsLeft config rejected)%nat
        ∧ ∀ r, res = Returned r →
               ∃ random, r = Some random ∧ randomEpisode random ∈ eps
                         ∧ last xs = Some (extractionOf random out).
Proof.
  revert rejected s. induction fuel as [|fuel IH]; intros rejected s Hc Hfuel.
  { unfold roundsLeft in Hfuel. lia. }
  cbn [ffmpegLoop exec].
  intros [(random & Hin & s1 & Hs1 & s2 & Hs2 & Hawait)|(_ & -> & Hs)].
  2:{ exists []. split; [by apply Ext_env_star|]. split; [cbn; lia|]. discriminate. }
  pose proof (Ext_done _ _ _ _
                (Ext_call _ _ (Exec (extractionOf random out)) _
                   (Ext_env_star _ _ Hc Hs1)) Hs2) as E2.
  cbn in E2. fold (extractionOf random out) in E2.
  (* one extraction so far; the round ends here unless the gate rejects *)
  assert (∀ s'', Ext s s'' [extractionOf random out] →
            (∀ r, res = Returned r → r = Some random) →
            ∃ xs, Ext s s'' xs ∧ (length xs ≤ roundsLeft config rejected)%nat
                  ∧ ∀ r, res = Returned r →
                         ∃ random', r = Some random' ∧ randomEpisode random' ∈ eps
                                   ∧ last xs = Some (extractionOf random' out))
    as Hround.
  { intros s'' E Hres. exists [extractionOf random out].
    split; [done|]. split; [cbn; unfold roundsLeft; lia|].
    intros r Hr. apply Hres in Hr as ->. eauto. }
  destruct Hawait as [(vs & _ & Hrest)|(p & _ & _ & -> & ->)].
  2:{ by apply Hround. }
  destruct (0 <? frameRequiredStandardDeviation config) eqn:Ereq; cbn [andb] in Hrest.
  2:{ destruct Hrest as [Hs' ->]. apply Hround; [by apply (Ext_done _ _ _ _ E2)|].
      by intros r [= <-]. }
  destruct (Z.ltb_spec (rejected + 1) (frameGenMaxAttempts config)) as [Hlt|Hge].
  2:{ destruct Hrest as [Hs' ->]. apply Hround; [by apply (Ext_done _ _ _ _ E2)|].
      by intros r [= <-]. }
  cbn [exec] in Hrest.
  destruct Hrest as (s3 & Hs3 & s4 & Hs4 & Hgate).
  pose proof (Ext_done _ _ _ _
                (Ext_call _ _ (Exec (Identify out)) _ (Ext_done _ _ _ _ E2 Hs3))
                Hs4) as E4.
  cbn in E4.
  destruct Hgate as [(stdout & _ & Hrest)|(p & _ & _ & -> & ->)].
  2:{ by apply Hround. }
  destruct (statBelow stdout (frameRequiredStandardDeviation config)).
  2:{ destruct Hrest as [Hs' ->]. apply Hround; [by apply (Ext_done _ _ _ _ E4)|].
      by intros r [= <-]. }
  (* rejected: one more round *)
  rewrite (roundsLeft_next _ _ Hlt) in Hfuel |- *.
  apply IH in Hrest as (xs & E & Hlen & Hlast); [|by destruct E4|lia].
  exists (extractionOf random out :: xs). split; [apply (Ext_trans _ _ _ _ _ E4 E)|].
  split; [cbn; lia|].
  intros r Hr. destruct (Hlast r Hr) as (random' & -> & Hin' & Hl).
  exists random'. split; [done|]. split; [done|].
  destruct xs as [|x xs]; [discriminate Hl|]. exact Hl.
Qed.

(** Every execution of [ffmpegFrame] from a state where no call is chained:
    the bound on its extractions and the frame it returns. *)
Lemma ffmpegFrame_sound config eps out s res s' :
  chained s = [] →
  exec (ffmpegFrame config eps out) s res s' →
  ∃ l, log s' = log s ++ l
       ∧ (length (extractions l) ≤ 1 + Z.to_nat (frameGenMaxAttempts config))%nat
       ∧ ∀ r, res = Returned r →
              ∃ random, r = Some random ∧ randomEpisode random ∈ eps
                        ∧ last (extractions l) = Some (extractionOf random out).
Proof.
  intros Hc Hexec. unfold ffmpegFrame in Hexec.
  apply ffmpegLoop_sound in Hexec as (xs & (_ & l & Hl & <-) & Hlen & Hres);
    [|done|unfold roundsLeft; lia].
  exists l. split; [done|]. split; [|done].
  unfold roundsLeft in Hlen. replace (frameGenMaxAttempts config - (-1 + 1))
    with (frameGenMaxAttempts config) in Hlen by lia. lia.
Qed.

(** The loop against a gate that rejects every frame: it runs all its
    rounds, and accepts the last frame without a further check. *)
Lemma ffmpegLoop_all_rejected config ep eps out fuel rejected s :
  ep ∈ eps → chained s = [] →
  0 < frameRequiredStandardDeviation config →
  (roundsLeft config rejected ≤ fuel)%nat →
  ∃ s' random xs,
    exec (ffmpegLoop config eps out fuel rejected) s (Returned (Some random)) s'
    ∧ Ext s s' xs ∧ length xs = roundsLeft config rejected.
Proof.
  intros Hep Hc Hreq. revert rejected s Hc.
  induction fuel as [|fuel IH]; intros rejected s Hc Hfuel.
  { unfold roundsLeft in Hfuel. lia. }
  set (random := mkRandom ep 0).
  set (x := Exec (extractionOf random out)).
  set (s1 := issue x s).
  set (s2 := settle (next s) x (Some VUnit) (wrote out (world s1)) s1).
  assert (env_star s1 s2) as H12.
  { apply env_star_one, env_fulfil; [|constructor].
    cbn. apply elem_of_app. right. apply list_elem_of_singleton. done. }
  assert (Forall2 (fulfilled s2) [next s] [VUnit]) as Hf2.
  { repeat constructor. exists x. cbn. apply elem_of_app. right.
    by apply list_elem_of_singleton. }
  pose proof (Ext_done _ _ _ _ (Ext_call _ _ x _ (Ext_env_star _ _ Hc (env_refl s))) H12)
    as E2. cbn in E2. fold (extractionOf random out) in E2.
  cbn [ffmpegLoop exec]. apply Z.ltb_lt in Hreq as Hreq'. rewrite Hreq'. cbn [andb].
  destruct (Z.ltb_spec (rejected + 1) (frameGenMaxAttempts config)) as [Hlt|Hge].
  - (* the gate is consulted and rejects *)
    set (i := Exec (Identify out)).
    set (s3 := issue i s2).
    set (s4 := settle (next s2) i (Some (VStat (Some 0))) (world s3) s3).
    assert (env_star s3 s4) as H34.
    { apply env_star_one, env_fulfil; [|constructor].
      cbn. apply elem_of_app. right. apply list_elem_of_singleton. done. }
    assert (Forall2 (fulfilled s4) [next s2] [VStat (Some 0)]) as Hf4.
    { repeat constructor. exists i. cbn. apply elem_of_app. right.
      by apply list_elem_of_singleton. }
    pose proof (Ext_done _ _ _ _ (Ext_call _ _ i _ E2) H34) as E4. cbn in E4.
    rewrite (roundsLeft_next _ _ Hlt) in Hfuel |- *.
    destruct (IH (rejected + 1) s4 (proj1 E4) ltac:(lia))
      as (s' & random' & xs & Hexec & E & Hlen).
    exists s', random', (extractionOf random out :: xs).
    split; [|split; [apply (Ext_trans _ _ _ _ _ E4 E)|cbn; lia]].
    left. exists random. split; [done|]. exists s. split; [apply env_refl|].
    exists s2. split; [done|]. left. exists [VUnit]. split; [done|].
    exists s2. split; [apply env_refl|]. exists s4. split; [done|].
    left. exists [VStat (Some 0)]. split; [done|].
    cbn [statBelow]. rewrite Hreq'. exact Hexec.
  - exists s2, random, [extractionOf random out].
    split; [|split; [done|unfold roundsLeft; cbn; lia]].
    left. exists random. split; [done|]. exists s. split; [apply env_refl|].
    exists s2. split; [done|]. left. exists [VUnit]. split; [done|].
    split; [apply env_refl|done].
Qed.

(** [ffmpegFrame] can always come to an end: with a catalogue that is not
    empty, and a gate that rejects every frame, it returns after exactly one
    extraction and [frameGenMaxAttempts] re-seeks. *)
Lemma ffmpegFrame_terminates config ep eps out s :
  ep ∈ eps → chained s = [] →
  0 < frameRequiredStandardDeviation config →
  ∃ s' random l,
    exec (ffmpegFrame config eps out) s (Returned (Some random)) s'
    ∧ log s' = log s ++ l
    ∧ length (extractions l) = S (Z.to_nat (frameGenMaxAttempts config)).
Proof.
  intros Hep Hc Hreq.
  destruct (ffmpegLoop_all_rejected config ep eps out
              (S (Z.to_nat (frameGenMaxAttempts config))) (-1) s Hep Hc Hreq)
    as (s' & random & xs & Hexec & (_ & l & Hl & <-) & Hlen).
  { unfold roundsLeft. lia. }
  exists s', random, l. split; [done|]. split; [done|].
  rewrite Hlen. unfold roundsLeft. f_equal. f_equal. lia.
Qed.

Lemma ffmpegFrame_run_gate :
  exec (ffmpegFrame config_gate [episode0] out0) (init world0)
       (Returned (Some random1)) run_gate.
Proof.
  unfold ffmpegFrame. cbn.
  left. exists random0. split; [by left|].
  eexists. split; [apply env_refl|].
  eexists. split.
  { fulfil_one 0%nat (Exec (extractionOf random0 out0)) VUnit (wrote out0 world0). }
  left. exists [VUnit]. split; [fulfilled_now|]. cbn.
  eexists. split; [apply env_refl|].
  eexists. split.
  { fulfil_one 1%nat (Exec (Identify out0)) (VStat (Some 3)) (wrote out0 world0). }
  left. exists [VStat (Some 3)]. split; [fulfilled_now|]. cbn.
  left. exists random1. split; [by left|].
  eexists. split; [apply env_refl|].
  eexists. split.
  { fulfil_one 2%nat (Exec (extractionOf random1 out0)) VUnit
      (wrote out0 (wrote out0 world0)). }
  left. exists [VUnit]. split; [fulfilled_now|]. cbn.
  split; [apply env_refl|reflexivity].
Qed.

(** C7.  From a state where no call is chained, every execution of
    [ffmpegFrame] starts at most one extraction plus [frameGenMaxAttempts]
    re-seeks (none for a negative setting) and, when it returns, returns the
    frame of the last extraction it started, whatever the statistics were;
    the loop never runs out of the rounds the model gives it.  And it does
    come to an end against a gate that rejects every frame: with a threshold
    set and a catalogue that is not empty, there is an execution that
    returns after exactly one extraction and [frameGenMaxAttempts]
    re-seeks. *)
Theorem ffmpegFrame_bounded config eps out s :
  chained s = [] →
  (∀ res s',
     exec (ffmpegFrame config eps out) s res s' →
     ∃ l, log s' = log s ++ l
          ∧ (length (extractions l) ≤ 1 + Z.to_nat (frameGenMaxAttempts config))%nat
          ∧ ∀ r, res = Returned r →
                 ∃ random, r = Some random ∧ randomEpisode random ∈ eps
                           ∧ last (extractions l) = Some (extractionOf random out))
  ∧ (∀ ep, ep ∈ eps → 0 < frameRequiredStandardDeviation config →
       ∃ s' random l,
         exec (ffmpegFrame config eps out) s (Returned (Some random)) s'
         ∧ log s' = log s ++ l
         ∧ length (extractions l) = S (Z.to_nat (frameGenMaxAttempts config))).
Proof.
  intros Hc. split.
  - intros res s'. by apply ffmpegFrame_sound.
  - intros ep Hep Hreq. by apply (ffmpegFrame_terminates config ep).
Qed.

Lemma ffmpegFrame_bounded_witness :
  (∃ l, log run_gate = log (init world0) ++ l
        ∧ (length (extractions l) ≤ 1 + Z.to_nat (frameGenMaxAttempts config_gate))%nat
        ∧ ∀ r, Returned (Some random1) = Returned r →
               ∃ random, r = Some random ∧ randomEpisode random ∈ [episode0]
                         ∧ last (extractions l) = Some (extractionOf random out0))
  ∧ (∃ s' random l,
       exec (ffmpegFrame config_gate [episode0] out0) (init world0)
            (Returned (Some random)) s'
       ∧ log s' = log (init world0) ++ l
       ∧ length (extractions l) = S (Z.to_nat (frameGenMaxAttempts config_gate))).
Proof.
  destruct (ffmpegFrame_bounded config_gate [episode0] out0 (init world0) eq_refl)
    as [Hall Hone].
  split.
  - exact (Hall _ _ ffmpegFrame_run_gate).
  - apply (Hone episode0).
    + apply list_elem_of_here.
    + reflexivity.
Defined.

(** ** Frame generation: the two writes and the extraction *)

Lemma firstOf_app P Q l1 l2 :
  firstOf P Q (l1 ++ l2)
  = match firstOf P Q l1 with Some b => Some b | None => firstOf P Q l2 end.
Proof.
  induction l1 as [|e l1 IH]; cbn; [done|].
  destruct (P e); [done|]. destruct (Q e); done.
Qed.

Lemma precedes_app P Q l1 l2 :
  precedes P Q l1 = true → precedes P Q (l1 ++ l2) = true.
Proof.
  unfold precedes. rewrite !bool_decide_eq_true, firstOf_app. by intros ->.
Qed.

Lemma isExec_stable_frameState id v o w r w' :
  isExec o → completes o w r w' →
  frameStateStorage w !! id = Some v → frameStateStorage w' !! id = Some v.
Proof. intros [c ->] Hc. inversion Hc; subst; done. Qed.

Lemma isExec_stable_answer id v o w r w' :
  isExec o → completes o w r w' →
  answerStorage w !! id = Some v → answerStorage w' !! id = Some v.
Proof. intros [c ->] Hc. inversion Hc; subst; done. Qed.

Lemma generationCall_frameState id answer o w r w' :
  generationCall id answer o → completes o w r w' →
  frameStateStorage w !! id = Some (mkFileState None) →
  frameStateStorage w' !! id = Some (mkFileState None).
Proof.
  intros [->|[H|(a & _ & ->)]] Hc; [| |].
  - inversion Hc; subst. intros _. cbn. apply lookup_insert_eq.
  - by apply (isExec_stable_frameState _ _ _ _ _ _ H Hc).
  - inversion Hc; subst. done.
Qed.

Lemma generationCall_answer id a o w r w' :
  generationCall id (Some a) o → completes o w r w' →
  answerStorage w !! id = Some a → answerStorage w' !! id = Some a.
Proof.
  intros [->|[H|(a' & [= <-] & ->)]] Hc; [| |].
  - inversion Hc; subst. done.
  - by apply (isExec_stable_answer _ _ _ _ _ _ H Hc).
  - inversion Hc; subst. intros _. cbn. apply lookup_insert_eq.
Qed.

Lemma env_star_init w s : env_star (init w) s → s = init w.
Proof.
  intros H. inversion H as [|s1 s2 s3 Hstep Hrest]; subst; [done|].
  inversion Hstep as [s0 p o v w' Hp _|s0 p o Hp|s0 p' p o v Hc _|s0 p' p o Hc _];
    subst; cbn in *; first [by apply elem_of_nil in Hp | by apply elem_of_nil in Hc].
Qed.

Lemma issues_mono {A} (P P' : op → Prop) (t : task A) :
  (∀ o, P o → P' o) → issues P t → issues P' t.
Proof.
  intros HP. induction t as [a|k IH|eps k IH|o k IH|p o k IH|ps k IH];
    cbn; [done|auto|auto| | |auto].
  - intros [Ho Hk]. split; auto.
  - intros [Ho Hk]. split; auto.
Qed.

Lemma fulfilled_mono s s' p v : env_star s s' → fulfilled s p v → fulfilled s' p v.
Proof.
  intros H [o Ho]. apply env_star_frame in H as (_ & l & Hl).
  exists o. rewrite Hl. apply elem_of_app. by left.
Qed.

(** What every execution of [generateFrame] looks like: the log opens with
    the call that writes the frame state; and when the function returns,
    both writes have been carried out and the two records are in place. *)
Lemma generateFrame_run config eps w res s' :
  exec (generateFrame config eps) (init w) res s' →
  ∃ id l,
    log s' = EvIssue 0 (SetFrameState id (mkFileState None)) :: l
    ∧ ∀ r, res = Returned r →
           ∃ random answerP,
             r = Some (mkItem id) ∧ randomEpisode random ∈ eps
             ∧ EvSettle 0 (SetFrameState id (mkFileState None)) (Some VUnit) ∈ l
             ∧ EvSettle answerP (SetAnswer id (answerOf random)) (Some VUnit) ∈ l
             ∧ frameStateStorage (world s') !! id = Some (mkFileState None)
             ∧ answerStorage (world s') !! id = Some (answerOf random).
Proof.
  cbn [generateFrame exec]. intros (id & s1 & Hs1 & Hbind).
  apply env_star_init in Hs1 as ->.
  set (oF := SetFrameState id (mkFileState None)) in *.
  set (s2 := issue oF (init w)) in *.
  exists id. destruct (exec_log _ _ _ _ Hbind) as [l Hl]. exists l.
  split; [exact Hl|]. intros r ->.
  apply exec_bind in Hbind as [(chosen & s3 & Hff & Hrest)|[[=] _]].
  set (QF := λ w0 : World, frameStateStorage w0 !! id = Some (mkFileState None)).
  assert (Fresh (generationCall id None) s2) as F2.
  { apply Fresh_issue; [by left|apply Fresh_init]. }
  assert (Owns QF 0 oF s2) as O2.
  { by apply (Owns_create (generationCall id None)); [|apply Fresh_init]. }
  assert (issues (generationCall id None) (ffmpegFrame config eps (imagePathForId config id)))
    as Hiss.
  { apply (issues_mono isExec); [by right; left|apply ffmpegLoop_issues]. }
  pose proof (Fresh_exec _ _ _ _ _ Hiss Hff F2) as F3.
  pose proof (Owns_exec (generationCall id None) QF 0 oF
                (generationCall_frameState id None)
                ltac:(by intros ??? Hc; inversion Hc; subst; apply lookup_insert_eq)
                _ _ _ _ Hiss Hff F2 O2) as O3.
  apply ffmpegLoop_sound in Hff as (xs & [Hc3 _] & _ & Hchosen);
    [|done|unfold roundsLeft; lia].
  destruct (Hchosen _ eq_refl) as (random & -> & Hin & _).
  cbn [exec] in Hrest.
  destruct Hrest as (s4 & Hs4 & s5 & Hs5 & [(vs & Hvs & Hs' & [= <-])|(? & _ & _ & [=] & _)]).
  set (a := answerOf random) in *. set (oA := SetAnswer id a) in *.
  set (QA := λ w0 : World, answerStorage w0 !! id = Some a).
  set (P2 := generationCall id (Some a)).
  assert (∀ o w0 v w0', P2 o → completes o w0 v w0' → QF w0 → QF w0') as HstF.
  { apply generationCall_frameState. }
  assert (∀ w0 v w0', completes oF w0 v w0' → QF w0') as HestF.
  { intros ??? Hc. inversion Hc; subst. apply lookup_insert_eq. }
  assert (∀ o w0 v w0', P2 o → completes o w0 v w0' → QA w0 → QA w0') as HstA.
  { apply generationCall_answer. }
  assert (∀ w0 v w0', completes oA w0 v w0' → QA w0') as HestA.
  { intros ??? Hc. inversion Hc; subst. apply lookup_insert_eq. }
  assert (Fresh P2 s3) as F3'.
  { apply (Fresh_mono (generationCall id None)); [|done].
    intros o [H|[H|(? & [=] & _)]]; [by left|by right; left]. }
  pose proof (Fresh_env_star _ _ _ Hs4 F3') as F4.
  pose proof (Owns_env_star P2 QF 0 oF HstF HestF _ _ Hs4 F3' O3) as O4.
  assert (P2 oA) as HoA by (right; right; eauto).
  pose proof (Fresh_issue _ _ _ HoA F4) as F4'.
  pose proof (Owns_issue QF 0 oF oA _ O4) as O4'.
  pose proof (Owns_create P2 QA (next s4) oA s4 eq_refl F4) as A4'.
  pose proof (Fresh_env_star _ _ _ Hs5 F4') as F5.
  pose proof (Owns_env_star P2 QF 0 oF HstF HestF _ _ Hs5 F4' O4') as O5.
  pose proof (Owns_env_star P2 QA _ oA HstA HestA _ _ Hs5 F4' A4') as A5.
  pose proof (Owns_env_star P2 QF 0 oF HstF HestF _ _ Hs' F5 O5) as O'.
  pose proof (Owns_env_star P2 QA _ oA HstA HestA _ _ Hs' F5 A5) as A'.
  apply Forall2_cons_inv_l in Hvs as (vA & vs' & HfA & Hvs & ->).
  apply Forall2_cons_inv_l in Hvs as (vF & vs'' & HfF & _ & ->).
  apply (fulfilled_mono _ _ _ _ Hs') in HfA as [o1 HfA].
  apply (fulfilled_mono _ _ _ _ Hs') in HfF as [o2 HfF].
  destruct (owns_settled _ _ _ _ A' _ _ HfA) as (-> & (wa & wa' & Hca) & HQA).
  destruct (owns_settled _ _ _ _ O' _ _ HfF) as (-> & (wf & wf' & Hcf) & HQF).
  inversion Hca; subst. inversion Hcf; subst.
  exists random, (next s4). split; [done|]. split; [done|].
  rewrite Hl in HfA, HfF. cbn in HfA, HfF.
  apply elem_of_cons in HfA as [[=]|HfA]. apply elem_of_cons in HfF as [[=]|HfF].
  done.
Qed.

(** C1.  When [generateFrame] returns, it returns an item [{ imageId }] for
    which both writes have been carried out: the log holds the fulfilment of
    the frame-state write (null expiry) and of the answer write (season,
    episode and seek time of the chosen frame, null expiry), and both
    records are in their stores. *)
Theorem generateFrame_writes_complete config eps w r s' :
  exec (generateFrame config eps) (init w) (Returned r) s' →
  ∃ id random fileP answerP,
    r = Some (mkItem id) ∧ randomEpisode random ∈ eps
    ∧ EvSettle fileP (SetFrameState id (mkFileState None)) (Some VUnit) ∈ log s'
    ∧ EvSettle answerP (SetAnswer id (answerOf random)) (Some VUnit) ∈ log s'
    ∧ frameStateStorage (world s') !! id = Some (mkFileState None)
    ∧ answerStorage (world s') !! id = Some (answerOf random).
Proof.
  intros Hexec. apply generateFrame_run in Hexec as (id & l & Hl & Hret).
  destruct (Hret r eq_refl) as (random & answerP & -> & Hin & HF & HA & HwF & HwA).
  exists id, random, 0%nat, answerP. rewrite Hl.
  repeat split; try done; by apply list_elem_of_further.
Qed.

Lemma generateFrame_run_late :
  exec (generateFrame config_nogate [episode0]) (init world0)
       (Returned (Some (mkItem "0a1b-ff"))) run_generate.
Proof.
  cbn. exists "0a1b-ff".
  eexists. split; [apply env_refl|]. cbn.
  left. exists random0. split; [by left|].
  eexists. split; [apply env_refl|].
  eexists. split.
  { fulfil_one 1%nat (Exec (extractionOf random0 out0)) VUnit (wrote out0 world0). }
  left. exists [VUnit]. split; [fulfilled_now|]. cbn.
  eexists. split; [apply env_refl|].
  eexists. split.
  { eapply env_next.
    - apply (env_fulfil _ 0%nat (SetFrameState "0a1b-ff" (mkFileState None)) VUnit
               (set_frameState (<["0a1b-ff" := mkFileState None]>) (wrote out0 world0)));
        [in_list|constructor].
    - fulfil_one 2%nat (SetAnswer "0a1b-ff" (answerOf random0)) VUnit
        (set_answer (<["0a1b-ff" := answerOf random0]>)
           (set_frameState (<["0a1b-ff" := mkFileState None]>) (wrote out0 world0))). }
  left. exists [VUnit; VUnit]. split; [fulfilled_now|].
  split; [apply env_refl|reflexivity].
Qed.

Lemma generateFrame_writes_complete_witness :
  ∃ id random fileP answerP,
    Some (mkItem "0a1b-ff") = Some (mkItem id) ∧ randomEpisode random ∈ [episode0]
    ∧ EvSettle fileP (SetFrameState id (mkFileState None)) (Some VUnit) ∈ log run_generate
    ∧ EvSettle answerP (SetAnswer id (answerOf random)) (Some VUnit) ∈ log run_generate
    ∧ frameStateStorage (world run_generate) !! id = Some (mkFileState None)
    ∧ answerStorage (world run_generate) !! id = Some (answerOf random).
Proof.
  apply (generateFrame_writes_complete config_nogate [episode0] world0
           (Some (mkItem "0a1b-ff")) run_generate).
  exact generateFrame_run_late.
Defined.

(** C6, as amended.  In every execution of [generateFrame] the call that
    writes the frame state (null expiry) is made before any extraction is
    started; the write is awaited only at the end: when the function
    returns, it has been carried out and the record is in its store. *)
Theorem generateFrame_tracks_first config eps w res s' :
  exec (generateFrame config eps) (init w) res s' →
  precedes (issueOf isSetFrameState) (issueOf isExtraction) (log s') = true
  ∧ ∀ r, res = Returned r →
         ∃ id fileP,
           r = Some (mkItem id)
           ∧ EvSettle fileP (SetFrameState id (mkFileState None)) (Some VUnit) ∈ log s'
           ∧ frameStateStorage (world s') !! id = Some (mkFileState None).
Proof.
  intros Hexec. apply generateFrame_run in Hexec as (id & l & Hl & Hret). split.
  - rewrite Hl. reflexivity.
  - intros r Hr.
    destruct (Hret r Hr) as (random & answerP & -> & Hin & HF & HA & HwF & HwA).
    exists id, 0%nat. rewrite Hl. repeat split; try done.
    by apply list_elem_of_further.
Qed.

Lemma generateFrame_tracks_first_witness :
  precedes (issueOf isSetFrameState) (issueOf isExtraction) (log run_generate) = true
  ∧ ∀ r, Returned (Some (mkItem "0a1b-ff")) = Returned r →
         ∃ id fileP,
           r = Some (mkItem id)
           ∧ EvSettle fileP (SetFrameState id (mkFileState None)) (Some VUnit)
               ∈ log run_generate
           ∧ frameStateStorage (world run_generate) !! id = Some (mkFileState None).
Proof.
  apply (generateFrame_tracks_first config_nogate [episode0] world0
           (Returned (Some (mkItem "0a1b-ff"))) run_generate).
  exact generateFrame_run_late.
Defined.

(** C6 as stated fails: in this execution of [generateFrame] the extraction
    is started while the frame-state write is still in flight. *)
Lemma generateFrame_extracts_before_write_done :
  exec (generateFrame config_nogate [episode0]) (init world0)
       (Returned (Some (mkItem "0a1b-ff"))) run_generate
  ∧ log run_generate
    = [EvIssue 0 (SetFrameState "0a1b-ff" (mkFileState None));
       EvIssue 1 (Exec (extractionOf random0 out0));
       EvSettle 1 (Exec (extractionOf random0 out0)) (Some VUnit);
       EvIssue 2 (SetAnswer "0a1b-ff" (answerOf random0));
       EvSettle 0 (SetFrameState "0a1b-ff" (mkFileState None)) (Some VUnit);
       EvSettle 2 (SetAnswer "0a1b-ff" (answerOf random0)) (Some VUnit)]
  ∧ precedes (fulfilOf isSetFrameState) (issueOf isExtraction) (log run_generate)
    = false.
Proof.
  split; [exact generateFrame_run_late|]. split; reflexivity.
Qed.

(** ** Run expiry and archival: the stores after the sweep *)

Lemma cleanupExpiredRunEffect_lookup config now runId w k :
  runStateStorage (cleanupExpiredRunEffect config now runId w) !! k
  = (if decide (runId = k) then liveAfter now (runStateStorage w !! k)
     else runStateStorage w !! k)
  ∧ archivedRunStorage (cleanupExpiredRunEffect config now runId w) !! k
    = (if decide (runId = k)
       then archiveAfter config now (runStateStorage w !! k) (archivedRunStorage w !! k)
       else archivedRunStorage w !! k).
Proof.
  unfold cleanupExpiredRunEffect, liveAfter, archiveAfter.
  destruct (decide (runId = k)) as [->|Hne].
  - destruct (runStateStorage w !! k) as [data|] eqn:E; cbn; [|by rewrite E].
    destruct (runExpired now data); cbn; [|by rewrite E].
    destruct (runImportant config data); cbn;
      by rewrite ?lookup_delete_eq, ?lookup_insert_eq.
  - destruct (runStateStorage w !! runId) as [data|]; [|done].
    destruct (runExpired now data); [|done].
    destruct (runImportant config data); cbn;
      by rewrite ?lookup_delete_ne, ?lookup_insert_ne.
Qed.

Lemma cleanupExpiredRuns_fold config now ids w k :
  NoDup ids →
  let w' := foldl (λ w' runId, cleanupExpiredRunEffect config now runId w') w ids in
  runStateStorage w' !! k
  = (if bool_decide (k ∈ ids) then liveAfter now (runStateStorage w !! k)
     else runStateStorage w !! k)
  ∧ archivedRunStorage w' !! k
    = (if bool_decide (k ∈ ids)
       then archiveAfter config now (runStateStorage w !! k) (archivedRunStorage w !! k)
       else archivedRunStorage w !! k).
Proof.
  intros Hnd. cbv zeta. revert w.
  induction Hnd as [|id ids Hnotin Hnd IH]; intros w; [done|].
  cbn [foldl]. destruct (IH (cleanupExpiredRunEffect config now id w)) as [IH1 IH2].
  rewrite IH1, IH2.
  destruct (cleanupExpiredRunEffect_lookup config now id w k) as [-> ->].
  destruct (decide (id = k)) as [->|Hne].
  - rewrite (bool_decide_eq_false_2 (k ∈ ids)) by done.
    rewrite bool_decide_eq_true_2 by (left; done). done.
  - rewrite (bool_decide_ext (k ∈ id :: ids) (k ∈ ids)); [done|].
    rewrite elem_of_cons. split; [intros [E|H]; [congruence|done]|by right].
Qed.

Lemma cleanupExpiredRuns_lookup config now w k :
  runStateStorage (cleanupExpiredRuns config now w) !! k
  = liveAfter now (runStateStorage w !! k)
  ∧ archivedRunStorage (cleanupExpiredRuns config now w) !! k
    = archiveAfter config now (runStateStorage w !! k) (archivedRunStorage w !! k).
Proof.
  unfold cleanupExpiredRuns.
  destruct (cleanupExpiredRuns_fold config now (getKeys (runStateStorage w)) w k
              (getKeys_NoDup _)) as [-> ->].
  case_bool_decide as Hk; [done|].
  destruct (runStateStorage w !! k) eqn:E; [|done].
  destruct Hk. apply getKeys_elem. eauto.
Qed.

Lemma runExpired_unset_or_elapsed now data :
  runExpiryTs data = None ∨ (∃ t, runExpiryTs data = Some t ∧ t < now) →
  runExpired now data = true.
Proof.
  unfold runExpired. intros [->|(t & -> & Hlt)]; [done|].
  unfold js_lt. cbn. apply orb_true_iff. right. by apply Z.ltb_lt.
Qed.

(** ** Run expiry and archival: the callback, call by call *)

Lemma Stable_env_star (P : op → Prop) (Q : World → Prop) s s' :
  (∀ o w v w', P o → completes o w v w' → Q w → Q w') →
  env_star s s' → Fresh P s → Q (world s) → Q (world s').
Proof.
  intros Hst H. induction H as [s|s1 s2 s3 Hstep _ IH]; [done|].
  intros F HQ. apply IH; [by apply (Fresh_env_step _ _ _ Hstep)|].
  destruct Hstep as [s p o v w' Hp Hc|s p o Hp|s p' p o v Hc Hf|s p' p o Hc Hr];
    cbn; [|done..].
  destruct (fresh_pending _ _ F _ _ Hp). eauto.
Qed.

Lemma env_star_quiet s s' :
  pending s = [] → chained s = [] → env_star s s' → s' = s.
Proof.
  intros Hp Hc H. destruct H as [|s1 s2 s3 Hstep _]; [done|].
  destruct Hstep as [s p o v w' Hin _|s p o Hin|s p' p o v Hin _|s p' p o Hin _];
    rewrite ?Hp, ?Hc in Hin; by apply elem_of_nil in Hin.
Qed.

Lemma env_star_single s s' p o :
  pending s = [(p, o)] → chained s = [] → env_star s s' →
  s' = s
  ∨ (∃ v w', completes o (world s) v w' ∧ s' = settle p o (Some v) w' s)
  ∨ s' = settle p o None (world s) s.
Proof.
  intros Hp Hc H. destruct H as [|s1 s2 s3 Hstep Hrest]; [by left|]. right.
  destruct Hstep as [s p0 o0 v w' Hin Hcomp|s p0 o0 Hin|s p' p0 o0 v Hin _|s p' p0 o0 Hin _].
  - rewrite Hp in Hin. apply list_elem_of_singleton in Hin. injection Hin as -> ->.
    left. exists v, w'. split; [done|].
    apply env_star_quiet in Hrest; [done| |done].
    cbn. rewrite Hp. cbn. by rewrite decide_False by (intros H; by apply H).
  - rewrite Hp in Hin. apply list_elem_of_singleton in Hin. injection Hin as -> ->.
    right. apply env_star_quiet in Hrest; [done| |done].
    cbn. rewrite Hp. cbn. by rewrite decide_False by (intros H; by apply H).
  - rewrite Hc in Hin. by apply elem_of_nil in Hin.
  - rewrite Hc in Hin. by apply elem_of_nil in Hin.
Qed.

Lemma World_eq (w1 w2 : World) :
  frameStateStorage w1 = frameStateStorage w2 →
  answerStorage w1 = answerStorage w2 →
  runStateStorage w1 = runStateStorage w2 →
  archivedRunStorage w1 = archivedRunStorage w2 →
  files w1 = files w2 →
  w1 = w2.
Proof. destruct w1, w2. cbn. by intros -> -> -> -> ->. Qed.

Lemma runFrame_stable runId w archive o w1 v w2 :
  runCall runId archive o → completes o w1 v w2 →
  runFrame runId w archive w1 → runFrame runId w archive w2.
Proof.
  intros [->|(d & Hd & ->)] Hc (H1 & H2 & H3 & H4 & H5); inversion Hc; subst;
    (split; [done|]); (split; [done|]); (split; [done|]); cbn.
  - split; [|done]. intros k Hk. rewrite lookup_delete_ne by done. auto.
  - split; [done|]. intros k [Hk|Hn]; [|discriminate Hn].
    rewrite lookup_insert_ne by done. auto.
Qed.

Lemma runCall_removed runId archive o w1 v w2 :
  runCall runId archive o → completes o w1 v w2 →
  runStateStorage w1 !! runId = None → runStateStorage w2 !! runId = None.
Proof.
  intros [->|(d & Hd & ->)] Hc; inversion Hc; subst; cbn; [|done].
  intros _. apply lookup_delete_eq.
Qed.

Lemma runCall_archived runId d o w1 v w2 :
  runCall runId (Some d) o → completes o w1 v w2 →
  archivedRunStorage w1 !! runId = Some d → archivedRunStorage w2 !! runId = Some d.
Proof.
  intros [->|(d' & [= <-] & ->)] Hc; inversion Hc; subst; cbn; [done|].
  intros _. apply lookup_insert_eq.
Qed.

(** The executions of the callback for one run, from a state with nothing
    in flight: the archive write is never started ahead of the removal; and
    when the callback returns, the stores are those of
    [cleanupExpiredRunEffect], with the removal carried out and, for an
    important run, started before the archive write, which is carried out
    as well. *)
Lemma cleanupExpiredRun_run config now runId w res s' :
  exec (cleanupExpiredRun config now runId) (init w) res s' →
  firstOf (issueOf isRemoveRun) (issueOf isSetArchivedRun) (log s') ≠ Some false
  ∧ (res = Returned tt →
     world s' = cleanupExpiredRunEffect config now runId w
     ∧ ∀ data, runStateStorage w !! runId = Some data → runExpired now data = true →
         (∃ p, EvSettle p (RemoveRun runId) (Some VUnit) ∈ log s')
         ∧ (runImportant config data = true →
            precedes (issueOf isRemoveRun) (issueOf isSetArchivedRun) (log s') = true
            ∧ ∃ p, EvSettle p (SetArchivedRun runId (archivedCopy data)) (Some VUnit)
                     ∈ log s')).
Proof.
  cbn [cleanupExpiredRun exec]. intros (s1 & Hs1 & s2 & Hs2 & Hawait).
  apply env_star_init in Hs1 as ->.
  apply (env_star_single _ _ 0%nat (GetRun runId)) in Hs2; [|done..].
  unfold cleanupExpiredRunEffect.
  destruct Hs2 as [->|[(v & w' & Hc & ->)| ->]].
  - (* nothing settled: the await cannot go on *)
    destruct Hawait as [(vs & Hvs & _)|(p & _ & _ & -> & ->)]; [|done].
    apply Forall2_cons_inv_l in Hvs as (v & _ & [o Hv] & _). cbn in Hv.
    apply list_elem_of_singleton in Hv. discriminate Hv.
  - inversion Hc; subst. clear Hc.
    destruct Hawait as [(vs & Hvs & Hrest)|(p & _ & _ & -> & ->)]; [|done].
    apply Forall2_cons_inv_l in Hvs as (v & vs' & [o Hv] & Hnil & ->).
    apply Forall2_nil_inv_l in Hnil as ->.
    cbn in Hv. apply elem_of_cons in Hv as [[=]|Hv].
    apply list_elem_of_singleton in Hv. injection Hv as -> ->.
    change (world (issue (GetRun runId) (init w))) with w in *.
    set (s2 := settle 0 (GetRun runId) (Some (VRun (runStateStorage w !! runId))) w
                 (issue (GetRun runId) (init w))) in *.
    assert (∀ s'', env_star s2 s'' → s'' = s2) as Hquiet.
    { intros s''. by apply env_star_quiet. }
    destruct (runStateStorage w !! runId) as [data|] eqn:Edata.
    2:{ destruct Hrest as [Hs' ->]. apply Hquiet in Hs' as ->.
        split; [done|]. intros _. split; [done|]. intros data [=]. }
    destruct (runExpired now data) eqn:Eexp.
    2:{ destruct Hrest as [Hs' ->]. apply Hquiet in Hs' as ->.
        split; [done|]. intros _. split; [done|]. intros data' [= <-]. congruence. }
    cbn [exec] in Hrest. destruct Hrest as (s3 & Hs3 & Hrest).
    apply Hquiet in Hs3 as ->.
    set (sD := issue (RemoveRun runId) s2) in *.
    assert (firstOf (issueOf isRemoveRun) (issueOf isSetArchivedRun) (log s') = Some true)
      as Hfirst.
    { destruct (exec_log _ _ _ _ Hrest) as [l ->]. by rewrite firstOf_app. }
    split; [by rewrite Hfirst|]. intros ->.
    set (archive := if runImportant config data then Some (archivedCopy data) else None).
    set (Q1 := λ w0 : World, runStateStorage w0 !! runId = None).
    assert (∀ o w0 v w0', runCall runId archive o → completes o w0 v w0' → Q1 w0 → Q1 w0')
      as Hst1 by apply runCall_removed.
    assert (∀ w0 v w0', completes (RemoveRun runId) w0 v w0' → Q1 w0') as Hest1.
    { intros ??? Hc. inversion Hc; subst. apply lookup_delete_eq. }
    assert (Fresh (runCall runId archive) s2) as F2.
    { split; cbn; [intros p o H; by apply elem_of_nil in H
                  |intros p' p o H; by apply elem_of_nil in H|].
      intros e He. apply elem_of_cons in He as [->|He]; [cbn; lia|].
      apply list_elem_of_singleton in He as ->. cbn. lia. }
    pose proof (Fresh_issue (runCall runId archive) (RemoveRun runId) s2
                  (or_introl eq_refl) F2) as FD.
    pose proof (Owns_create _ Q1 1%nat (RemoveRun runId) s2 eq_refl F2) as OD.
    assert (runFrame runId w archive (world sD)) as TD.
    { by repeat split. }
    assert (∀ sE, Fresh (runCall runId archive) sE → Owns Q1 1 (RemoveRun runId) sE →
                  runFrame runId w archive (world sE) →
                  (archive = None ∨
                   ∃ pA d, archive = Some d
                     ∧ Owns (λ w0, archivedRunStorage w0 !! runId = Some d) pA
                            (SetArchivedRun runId d) sE
                     ∧ (∃ o v, EvSettle pA o (Some v) ∈ log sE)) →
                  (∃ o v, EvSettle 1 o (Some v) ∈ log sE) →
                  world sE =
                    (if runImportant config data
                     then set_archivedRun (<[runId := archivedCopy data]>)
                            (set_runState (delete runId) w)
                     else set_runState (delete runId) w)
                  ∧ (∃ p, EvSettle p (RemoveRun runId) (Some VUnit) ∈ log sE)
                  ∧ (runImportant config data = true →
                     ∃ p, EvSettle p (SetArchivedRun runId (archivedCopy data)) (Some VUnit)
                            ∈ log sE)) as Hfinal.
    { intros sE FE OE (T1 & T2 & T3 & T4 & T5) HA (o1 & v1 & H1).
      destruct (owns_settled _ _ _ _ OE _ _ H1) as (-> & (wa & wb & Hc1) & HQ1).
      inversion Hc1; subst. unfold Q1 in HQ1.
      assert (runStateStorage (world sE) = delete runId (runStateStorage w)) as Hlive.
      { apply map_eq. intros k. destruct (decide (k = runId)) as [->|Hk].
        - by rewrite lookup_delete_eq.
        - rewrite lookup_delete_ne by done. auto. }
      unfold archive in *. destruct (runImportant config data).
      - destruct HA as [[=]|(pA & d & [= <-] & OA & oA & vA & HsA)].
        destruct (owns_settled _ _ _ _ OA _ _ HsA) as (-> & (wc & wd & Hc2) & HQ2).
        inversion Hc2; subst.
        split; [|by eauto].
        apply World_eq; cbn; try done.
        apply map_eq. intros k. destruct (decide (k = runId)) as [->|Hk].
        + by rewrite lookup_insert_eq.
        + rewrite lookup_insert_ne by done. auto.
      - split; [|split; [by eauto|done]].
        apply World_eq; cbn; try done.
        apply map_eq. intros k. auto. }
    assert (∀ data', Some data = Some data' → runExpired now data' = true →
              (∃ p, EvSettle p (RemoveRun runId) (Some VUnit) ∈ log s')
              ∧ (runImportant config data' = true →
                 ∃ p, EvSettle p (SetArchivedRun runId (archivedCopy data')) (Some VUnit)
                        ∈ log s') →
              (∃ p, EvSettle p (RemoveRun runId) (Some VUnit) ∈ log s')
              ∧ (runImportant config data' = true →
                 precedes (issueOf isRemoveRun) (issueOf isSetArchivedRun) (log s') = true
                 ∧ ∃ p, EvSettle p (SetArchivedRun runId (archivedCopy data')) (Some VUnit)
                          ∈ log s')) as Hshape.
    { intros data' _ _ [Hr Ha]. split; [done|]. intros Hi. split; [|auto].
      unfold precedes. by rewrite Hfirst, bool_decide_eq_true_2. }
    cut (world s' =
           (if runImportant config data
            then set_archivedRun (<[runId := archivedCopy data]>)
                   (set_runState (delete runId) w)
            else set_runState (delete runId) w)
         ∧ (∃ p, EvSettle p (RemoveRun runId) (Some VUnit) ∈ log s')
         ∧ (runImportant config data = true →
            ∃ p, EvSettle p (SetArchivedRun runId (archivedCopy data)) (Some VUnit)
                   ∈ log s')).
    { intros (Hw & Hr & Ha). split; [done|]. intros data' [= <-] _.
      apply (Hshape data); auto. }
    clear Hshape Hfirst.
    assert (∀ o w0 v w0', runCall runId archive o → completes o w0 v w0' →
              runFrame runId w archive w0 → runFrame runId w archive w0') as HstT
      by apply runFrame_stable.
    unfold archive in *. destruct (runImportant config data) eqn:Eimp.
    + (* important: the archive write is started next *)
      cbn [exec] in Hrest.
      destruct Hrest as (s4 & Hs4 & s5 & Hs5
                         & [(vs & Hvs & Hs' & _)|(? & _ & _ & [=] & _)]).
      set (d := archivedCopy data) in *. set (oA := SetArchivedRun runId d) in *.
      set (QA := λ w0 : World, archivedRunStorage w0 !! runId = Some d).
      assert (∀ o w0 v w0', runCall runId (Some d) o → completes o w0 v w0' →
                QA w0 → QA w0') as HstA by apply runCall_archived.
      assert (∀ w0 v w0', completes oA w0 v w0' → QA w0') as HestA.
      { intros ??? Hc. inversion Hc; subst. apply lookup_insert_eq. }
      pose proof (Fresh_env_star _ _ _ Hs4 FD) as F4.
      pose proof (Owns_env_star _ Q1 1%nat _ Hst1 Hest1 _ _ Hs4 FD OD) as O4.
      pose proof (Stable_env_star _ _ _ _ HstT Hs4 FD TD) as T4.
      assert (runCall runId (Some d) oA) as HoA by (right; eauto).
      pose proof (Fresh_issue _ oA _ HoA F4) as F4'.
      pose proof (Owns_issue Q1 1%nat _ oA _ O4) as O4'.
      pose proof (Owns_create _ QA (next s4) oA s4 eq_refl F4) as A4'.
      pose proof (Fresh_env_star _ _ _ Hs5 F4') as F5.
      pose proof (Owns_env_star _ Q1 1%nat _ Hst1 Hest1 _ _ Hs5 F4' O4') as O5.
      pose proof (Owns_env_star _ QA _ oA HstA HestA _ _ Hs5 F4' A4') as A5.
      pose proof (Stable_env_star _ _ _ _ HstT Hs5 F4' T4) as T5.
      pose proof (Fresh_env_star _ _ _ Hs' F5) as F'.
      pose proof (Owns_env_star _ Q1 1%nat _ Hst1 Hest1 _ _ Hs' F5 O5) as O'.
      pose proof (Owns_env_star _ QA _ oA HstA HestA _ _ Hs' F5 A5) as A'.
      pose proof (Stable_env_star _ _ _ _ HstT Hs' F5 T5) as T'.
      apply Forall2_cons_inv_l in Hvs as (v1 & vs' & Hf1 & Hvs & ->).
      apply Forall2_cons_inv_l in Hvs as (v2 & vs'' & Hf2 & _ & ->).
      apply (fulfilled_mono _ _ _ _ Hs') in Hf1 as [o1 Hf1].
      apply (fulfilled_mono _ _ _ _ Hs') in Hf2 as [o2 Hf2].
      apply (Hfinal s' F' O' T'); [|by eauto].
      right. exists (next s4), d. split; [done|]. split; [done|]. eauto.
    + cbn [exec] in Hrest.
      destruct Hrest as (s4 & Hs4 & [(vs & Hvs & Hs' & _)|(? & _ & _ & [=] & _)]).
      pose proof (Fresh_env_star _ _ _ Hs4 FD) as F4.
      pose proof (Owns_env_star _ Q1 1%nat _ Hst1 Hest1 _ _ Hs4 FD OD) as O4.
      pose proof (Stable_env_star _ _ _ _ HstT Hs4 FD TD) as T4.
      pose proof (Fresh_env_star _ _ _ Hs' F4) as F'.
      pose proof (Owns_env_star _ Q1 1%nat _ Hst1 Hest1 _ _ Hs' F4 O4) as O'.
      pose proof (Stable_env_star _ _ _ _ HstT Hs' F4 T4) as T'.
      apply Forall2_cons_inv_l in Hvs as (v1 & vs' & Hf1 & _ & ->).
      apply (fulfilled_mono _ _ _ _ Hs') in Hf1 as [o1 Hf1].
      apply (Hfinal s' F' O' T'); [by left|by eauto].
  - (* the read failed *)
    destruct Hawait as [(vs & Hvs & _)|(p & _ & _ & -> & ->)]; [|done].
    apply Forall2_cons_inv_l in Hvs as (v & _ & [o Hv] & _). cbn in Hv.
    apply elem_of_cons in Hv as [[=]|Hv].
    apply list_elem_of_singleton in Hv. discriminate Hv.
Qed.

(** C8, as amended.  A run whose expiry is unset or has elapsed is gone
    from the live store after the sweep; when its history is as long as the
    retention threshold or longer, the archive holds it with its expiry
    cleared, otherwise the archive is as before.  In the callback for that
    run, the removal of the live record is started first and the archive
    write after it, never the other way round; the two are awaited together,
    so both have been carried out when the callback returns, and the stores
    are then as the sweep leaves them. *)
Theorem cleanupExpiredRuns_archives config now w runId data :
  runStateStorage w !! runId = Some data →
  runExpiryTs data = None ∨ (∃ t, runExpiryTs data = Some t ∧ t < now) →
  (runStateStorage (cleanupExpiredRuns config now w) !! runId = None
   ∧ (runRetentionThreshold config ≤ Z.of_nat (length (history data)) →
      archivedRunStorage (cleanupExpiredRuns config now w) !! runId
      = Some (mkRun (history data) None))
   ∧ (Z.of_nat (length (history data)) < runRetentionThreshold config →
      archivedRunStorage (cleanupExpiredRuns config now w) !! runId
      = archivedRunStorage w !! runId))
  ∧ ∀ res s',
      exec (cleanupExpiredRun config now runId) (init w) res s' →
      firstOf (issueOf isRemoveRun) (issueOf isSetArchivedRun) (log s') ≠ Some false
      ∧ (res = Returned tt →
         world s' = cleanupExpiredRunEffect config now runId w
         ∧ (∃ p, EvSettle p (RemoveRun runId) (Some VUnit) ∈ log s')
         ∧ (runRetentionThreshold config ≤ Z.of_nat (length (history data)) →
            precedes (issueOf isRemoveRun) (issueOf isSetArchivedRun) (log s') = true
            ∧ ∃ p, EvSettle p (SetArchivedRun runId (mkRun (history data) None))
                     (Some VUnit) ∈ log s')).
Proof.
  intros Hdata Hexp. apply runExpired_unset_or_elapsed in Hexp. split.
  - destruct (cleanupExpiredRuns_lookup config now w runId) as [-> ->].
    rewrite Hdata. unfold liveAfter, archiveAfter, runImportant. cbn. rewrite Hexp.
    split; [done|]. split; intros H.
    + apply Z.leb_le in H. by rewrite H.
    + apply Z.leb_gt in H. by rewrite H.
  - intros res s' Hexec. apply cleanupExpiredRun_run in Hexec as [Hfirst Hret].
    split; [done|]. intros Hres. destruct (Hret Hres) as [Hw Hdone].
    destruct (Hdone data Hdata Hexp) as [Hr Ha]. split; [done|]. split; [done|].
    intros H. apply Ha. unfold runImportant. by apply Z.leb_le.
Qed.

Lemma cleanupExpiredRun_run_removal_first :
  exec (cleanupExpiredRun config0 T0 "run1") (init world_run) (Returned tt) run_cleanup.
Proof.
  cbn.
  eexists. split; [apply env_refl|].
  eexists. split.
  { fulfil_one 0%nat (GetRun "run1") (VRun (Some run10)) world_run. }
  left. exists [VRun (Some run10)]. split; [fulfilled_now|]. cbn.
  eexists. split; [apply env_refl|].
  eexists. split; [apply env_refl|].
  eexists. split.
  { eapply env_next.
    - apply (env_fulfil _ 1%nat (RemoveRun "run1") VUnit
               (set_runState (delete "run1") world_run)); [in_list|constructor].
    - fulfil_one 2%nat (SetArchivedRun "run1" (archivedCopy run10)) VUnit
        (set_archivedRun (<["run1" := archivedCopy run10]>)
           (set_runState (delete "run1") world_run)). }
  left. exists [VUnit; VUnit]. split; [fulfilled_now|].
  split; [apply env_refl|reflexivity].
Qed.

Lemma cleanupExpiredRuns_archives_witness :
  (runStateStorage (cleanupExpiredRuns config0 T0 world_run) !! "run1" = None
   ∧ archivedRunStorage (cleanupExpiredRuns config0 T0 world_run) !! "run1"
     = Some (mkRun (history run10) None))
  ∧ (world run_cleanup = cleanupExpiredRunEffect config0 T0 "run1" world_run
     ∧ precedes (issueOf isRemoveRun) (issueOf isSetArchivedRun) (log run_cleanup) = true).
Proof.
  destruct (cleanupExpiredRuns_archives config0 T0 world_run "run1" run10 eq_refl)
    as [(Hlive & Harch & _) Hcall].
  { right. exists (T0 - 1). split; [reflexivity|]. vm_compute. reflexivity. }
  split.
  - split; [exact Hlive|]. apply Harch. vm_compute. intros H. discriminate H.
  - destruct (Hcall _ _ cleanupExpiredRun_run_removal_first) as [_ Hret].
    destruct (Hret eq_refl) as (Hw & _ & Hp). split; [exact Hw|].
    apply Hp. vm_compute. intros H. discriminate H.
Defined.

(** C8 as stated fails on the order: in this execution the live record is
    deleted while the archive does not hold the run yet; the archive write
    is carried out afterwards. *)
Lemma cleanupExpiredRun_deletes_before_archived :
  exec (cleanupExpiredRun config0 T0 "run1") (init world_run) (Returned tt) run_cleanup
  ∧ log run_cleanup
    = [EvIssue 0 (GetRun "run1");
       EvSettle 0 (GetRun "run1") (Some (VRun (Some run10)));
       EvIssue 1 (RemoveRun "run1");
       EvIssue 2 (SetArchivedRun "run1" (archivedCopy run10));
       EvSettle 1 (RemoveRun "run1") (Some VUnit);
       EvSettle 2 (SetArchivedRun "run1" (archivedCopy run10)) (Some VUnit)]
  ∧ precedes (fulfilOf isSetArchivedRun) (fulfilOf isRemoveRun) (log run_cleanup) = false
  ∧ precedes (fulfilOf isSetArchivedRun) (issueOf isRemoveRun) (log run_cleanup) = false.
Proof.
  split; [exact cleanupExpiredRun_run_removal_first|]. repeat split; reflexivity.
Qed.

(** ** The two listings of the image sweep *)

Lemma firstOf_None P Q l e :
  firstOf P Q l = None → e ∈ l → P e = false ∧ Q e = false.
Proof.
  induction l as [|x l IH]; cbn; [by intros _ ?%elem_of_nil|].
  destruct (P x) eqn:EP; [done|]. destruct (Q x) eqn:EQ; [done|].
  intros H [->|He]%elem_of_cons; auto.
Qed.

Lemma firstOf_no_Q P Q l :
  (∀ e, e ∈ l → Q e = false) → firstOf P Q l ≠ Some false.
Proof.
  induction l as [|x l IH]; cbn; [done|]. intros H.
  destruct (P x); [done|]. rewrite (H x) by left.
  apply IH. intros e He. apply H. by right.
Qed.

Section Chained.
Variable p p' : nat.
Variable o' : op.

Lemma Waits_create s :
  p' = next s → Fresh (λ _, True) s → Waits p p' o' (chain p o' s).
Proof.
  intros Hp' [F1 F2 F3]. split; cbn.
  - intros q o [H|H]%elem_of_app.
    + destruct (F2 _ _ _ H). lia.
    + apply list_elem_of_singleton in H. by injection H as _ -> ->.
  - intros o H. destruct (F1 _ _ H). lia.
  - intros o r H. apply F3 in H. cbn in H. lia.
  - apply firstOf_no_Q. intros e He. apply F3 in He.
    destruct e as [q o|q o r]; cbn in *; [|done].
    apply Nat.eqb_neq. lia.
Qed.

Lemma Waits_env_step s s' : env_step s s' → Waits p p' o' s → Waits p p' o' s'.
Proof.
  intros Hstep [W1 W2 W3 W4].
  destruct Hstep as [s q o v w' Hp Hc|s q o Hp|s q' q o v Hc Hf|s q' q o Hc Hr];
    split; cbn.
  - done.
  - intros o0 [_ H]%list_elem_of_filter. destruct (W2 _ H).
    split; [done|]. apply elem_of_app. by left.
  - intros o0 r [H|H]%elem_of_app; apply elem_of_app; left; [eauto|].
    apply list_elem_of_singleton in H. injection H as -> -> ->.
    by destruct (W2 _ Hp).
  - rewrite firstOf_app. destruct (firstOf _ _ (log s)) as [[]|]; [done..|].
    cbn. by destruct (q =? p)%nat.
  - done.
  - intros o0 [_ H]%list_elem_of_filter. destruct (W2 _ H).
    split; [done|]. apply elem_of_app. by left.
  - intros o0 r [H|H]%elem_of_app; apply elem_of_app; left; [eauto|].
    apply list_elem_of_singleton in H. discriminate H.
  - rewrite firstOf_app. by destruct (firstOf _ _ (log s)) as [[]|].
  - intros q0 o0 [_ H]%list_elem_of_filter. eauto.
  - intros o0 [H|H]%elem_of_app.
    + destruct (W2 _ H). split; [done|]. apply elem_of_app. by left.
    + apply list_elem_of_singleton in H. injection H as -> ->.
      destruct (W1 _ _ Hc) as [_ ->]. split; [done|].
      apply elem_of_app. right. by apply list_elem_of_singleton.
  - intros o0 r [H|H]%elem_of_app; apply elem_of_app; left; [eauto|].
    apply list_elem_of_singleton in H. discriminate H.
  - rewrite firstOf_app. destruct (firstOf _ _ (log s)) as [[]|] eqn:E; [done..|].
    cbn. destruct (Nat.eqb_spec q' p'); [subst q'|done].
    destruct (W1 _ _ Hc) as [-> _]. destruct Hf as [o1 Hf].
    destruct (firstOf_None _ _ _ _ E Hf) as [HP _]. cbn in HP.
    by rewrite Nat.eqb_refl in HP.
  - intros q0 o0 [_ H]%list_elem_of_filter. eauto.
  - intros o0 H. destruct (W2 _ H). split; [done|]. apply elem_of_app. by left.
  - intros o0 r [H|H]%elem_of_app; apply elem_of_app; left; [eauto|].
    apply list_elem_of_singleton in H. discriminate H.
  - rewrite firstOf_app. by destruct (firstOf _ _ (log s)) as [[]|].
Qed.

Lemma Waits_env_star s s' : env_star s s' → Waits p p' o' s → Waits p p' o' s'.
Proof. induction 1; eauto using Waits_env_step. Qed.

(** Once the chained call has succeeded, it was made, after the promise it
    waits for was fulfilled. *)
Lemma Waits_fulfilled s v :
  Waits p p' o' s → fulfilled s p' v →
  EvIssue p' o' ∈ log s
  ∧ precedes (fulfilledP p) (issuedP p') (log s) = true.
Proof.
  intros [W1 W2 W3 W4] [o Ho]. pose proof (W3 _ _ Ho) as Hi. split; [done|].
  unfold precedes. apply bool_decide_eq_true.
  destruct (firstOf _ _ (log s)) as [[]|] eqn:E; [done|done|].
  destruct (firstOf_None _ _ _ _ E Hi) as [_ HQ]. cbn in HQ.
  by rewrite Nat.eqb_refl in HQ.
Qed.
End Chained.

(** A promise that stands for a call is fulfilled by that call, with a
    value that the call gives. *)
Lemma Owns_fulfilled Q pF oF s v :
  Owns Q pF oF s → fulfilled s pF v →
  EvSettle pF oF (Some v) ∈ log s ∧ ∃ w w', completes oF w v w'.
Proof.
  intros O [o Ho]. destruct (owns_settled _ _ _ _ O _ _ Ho) as (-> & Hc & _).
  done.
Qed.

Lemma Owns_any_env_star pF oF s s' :
  env_star s s' → Fresh (λ _, True) s →
  Owns (λ _, True) pF oF s → Owns (λ _, True) pF oF s'.
Proof.
  apply (Owns_env_star (λ _, True) (λ _, True) pF oF);
    [intros ? ? ? ? _ _ _; exact I|intros ? ? ? _; exact I].
Qed.

(** C5, as amended.  In every execution of the listing step (promises 0 to
    3: the keys, the first listing, the timer of one second, the second
    listing), the three direct calls are made in that order, and the second
    listing is never started before the timer has fired; when the step
    returns, the second listing was started, after the timer fired.  The
    first listing is not awaited in between: the step returns only once the
    keys and both listings are there, all three calls having succeeded, and
    what it returns are their three results. *)
Theorem listFrames_second_after_timer config w res s' :
  exec (listFrames config) (init w) res s' →
  let globPattern :=
    pathJoin (frameOutputDir config) ("*." +:+ imageOutputExtension config) in
  firstOf (fulfilledP 2) (issuedP 3) (log s') ≠ Some false
  ∧ (∃ l1 l2 l3,
       log s' = [EvIssue 0 GetFrameKeys] ++ l1 ++ [EvIssue 1 (Glob globPattern)]
                ++ l2 ++ [EvIssue 2 (Sleep 1000)] ++ l3)
  ∧ ∀ r, res = Returned r →
         EvIssue 3 (Glob globPattern) ∈ log s'
         ∧ precedes (fulfilledP 2) (issuedP 3) (log s') = true
         ∧ ∃ frameFileIds frames1 frames2,
             r = (frameFileIds, frames1, frames2)
             ∧ EvSettle 0 GetFrameKeys (Some (VKeys frameFileIds)) ∈ log s'
             ∧ EvSettle 1 (Glob globPattern) (Some (VKeys frames1)) ∈ log s'
             ∧ EvSettle 3 (Glob globPattern) (Some (VKeys frames2)) ∈ log s'.
Proof.
  cbn [listFrames exec].
  intros (s1 & Hs1 & s2 & Hs2 & s3 & Hs3 & s4 & Hs4 & s5 & Hs5 & Hawait).
  apply env_star_init in Hs1 as ->.
  set (pat := pathJoin (frameOutputDir config) ("*." +:+ imageOutputExtension config))
    in *.
  cbv zeta.
  pose proof (Fresh_issue (λ _, True) GetFrameKeys _ I (Fresh_init _ w)) as FA.
  pose proof (Fresh_env_star _ _ _ Hs2 FA) as F2.
  pose proof (Fresh_issue _ (Glob pat) _ I F2) as FB.
  pose proof (Fresh_env_star _ _ _ Hs3 FB) as F3.
  pose proof (Fresh_issue _ (Sleep 1000) _ I F3) as FC.
  pose proof (Fresh_env_star _ _ _ Hs4 FC) as F4.
  pose proof (Fresh_chain _ (next s3) (Glob pat) _ I F4) as FD.
  pose proof (Fresh_env_star _ _ _ Hs5 FD) as F5.
  (* the promises of the keys and of the two listings *)
  assert (Owns (λ _, True) 0 GetFrameKeys s5) as O0.
  { apply (Owns_any_env_star _ _ _ _ Hs5 FD), Owns_chain.
    apply (Owns_any_env_star _ _ _ _ Hs4 FC), Owns_issue.
    apply (Owns_any_env_star _ _ _ _ Hs3 FB), Owns_issue.
    apply (Owns_any_env_star _ _ _ _ Hs2 FA).
    apply (Owns_create (λ _, True)); [done|apply Fresh_init]. }
  destruct (env_star_frame _ _ Hs2) as (N2 & l1 & L2).
  destruct (env_star_frame _ _ Hs3) as (N3 & l2 & L3).
  destruct (env_star_frame _ _ Hs4) as (N4 & l3 & L4).
  destruct (env_star_frame _ _ Hs5) as (N5 & l4 & L5).
  cbn in N2, N3, N4, N5, L2, L3, L4, L5.
  assert (Owns (λ _, True) 1 (Glob pat) s5) as O1.
  { apply (Owns_any_env_star _ _ _ _ Hs5 FD), Owns_chain.
    apply (Owns_any_env_star _ _ _ _ Hs4 FC), Owns_issue.
    apply (Owns_any_env_star _ _ _ _ Hs3 FB).
    by apply (Owns_create (λ _, True)). }
  rewrite N2 in *. cbn in N3. rewrite N3 in *. cbn in N4. rewrite N4 in *.
  assert (Owns (λ _, True) 3 (Glob pat) s5) as O3.
  { apply (Owns_any_env_star _ _ _ _ Hs5 FD).
    by apply (Owns_create_chain (λ _, True)). }
  pose proof (Waits_create 2 3 (Glob pat) s4 (eq_sym N4) F4) as W4.
  pose proof (Waits_env_star _ _ _ _ _ Hs5 W4) as W5.
  assert (∀ s'', env_star s5 s'' →
            firstOf (fulfilledP 2) (issuedP 3) (log s'') ≠ Some false
            ∧ ∃ l1 l2 l3,
                log s'' = [EvIssue 0 GetFrameKeys] ++ l1 ++ [EvIssue 1 (Glob pat)]
                          ++ l2 ++ [EvIssue 2 (Sleep 1000)] ++ l3) as Hshape.
  { intros s'' Hs''. split.
    - by destruct (Waits_env_star _ _ _ _ _ Hs'' W5).
    - destruct (env_star_frame _ _ Hs'') as (_ & l5 & ->).
      exists l1, l2, (l3 ++ l4 ++ l5). rewrite L5, L4, L3, L2.
      by rewrite <- !(assoc_L (++)). }
  destruct Hawait as [(vs & Hvs & Hret)|(q & _ & _ & -> & ->)].
  - apply Forall2_cons_inv_l in Hvs as (v0 & vs0 & Hf0 & Hvs & ->).
    apply Forall2_cons_inv_l in Hvs as (v1 & vs1 & Hf1 & Hvs & ->).
    apply Forall2_cons_inv_l in Hvs as (v3 & vs3 & Hf3 & Hvs & ->).
    apply Forall2_nil_inv_l in Hvs as ->.
    destruct (Owns_fulfilled _ _ _ _ _ O0 Hf0) as (E0 & w0 & w0' & C0).
    destruct (Owns_fulfilled _ _ _ _ _ O1 Hf1) as (E1 & w1 & w1' & C1).
    destruct (Owns_fulfilled _ _ _ _ _ O3 Hf3) as (E3 & w3 & w3' & C3).
    assert (∃ s'', env_star s5 s'' ∧ s'' = s') as (s'' & Hs' & Es'').
    { destruct v0, v1, v3; destruct Hret as [Hs' _]; eauto. }
    destruct (Hshape _ Hs') as [Hfirst Hcalls].
    destruct (Waits_fulfilled 2 3 (Glob pat) s'' v3) as [Hi Hp].
    { by apply (Waits_env_star _ _ _ _ _ Hs'). }
    { by apply (fulfilled_mono _ _ _ _ Hs'). }
    subst s''. split; [done|]. split; [done|].
    inversion C0; subst. inversion C1; subst. inversion C3; subst.
    destruct Hret as [_ ->].
    intros r [= <-]. split; [done|]. split; [done|].
    destruct (env_star_frame _ _ Hs') as (_ & l5 & ->).
    eexists _, _, _. split; [done|].
    split; [|split]; apply elem_of_app; by left.
  - destruct (Hshape _ (env_refl s5)) as [Hfirst Hcalls].
    split; [done|]. split; [done|]. intros r [=].
Qed.

Lemma listFrames_run_overlap :
  exec (listFrames config0) (init world_out0)
       (Returned ([], [out0], [out0])) run_listing.
Proof.
  assert (∀ f, f ∈ [out0] → f ∈ files world_out0) as Hfiles.
  { intros f ->%list_elem_of_singleton. vm_compute. reflexivity. }
  cbn.
  eexists. split; [apply env_refl|].
  eexists. split; [apply env_refl|].
  eexists. split; [apply env_refl|].
  eexists. split; [apply env_refl|].
  eexists. split.
  { eapply env_next.
    { apply (env_fulfil _ 2%nat (Sleep 1000) VUnit world_out0); [in_list|constructor]. }
    eapply env_next.
    { apply (env_fire _ 3%nat 2%nat (Glob "/tmp/genimg/*.webp") VUnit);
        [in_list|eexists; in_list]. }
    eapply env_next.
    { apply (env_fulfil _ 0%nat GetFrameKeys
               (VKeys (getKeys (frameStateStorage world_out0))) world_out0);
        [in_list|constructor]. }
    eapply env_next.
    { apply (env_fulfil _ 3%nat (Glob "/tmp/genimg/*.webp") (VKeys [out0]) world_out0);
        [in_list|by constructor]. }
    eapply env_next.
    { apply (env_fulfil _ 1%nat (Glob "/tmp/genimg/*.webp") (VKeys [out0]) world_out0);
        [in_list|by constructor]. }
    apply env_refl. }
  left. exists [VKeys []; VKeys [out0]; VKeys [out0]]. split; [fulfilled_now|].
  split; [apply env_refl|reflexivity].
Qed.

Lemma listFrames_second_after_timer_witness :
  firstOf (fulfilledP 2) (issuedP 3) (log run_listing) ≠ Some false
  ∧ (∃ l1 l2 l3,
       log run_listing
       = [EvIssue 0 GetFrameKeys] ++ l1
         ++ [EvIssue 1 (Glob (pathJoin (frameOutputDir config0)
                                ("*." +:+ imageOutputExtension config0)))]
         ++ l2 ++ [EvIssue 2 (Sleep 1000)] ++ l3)
  ∧ ∀ r, Returned ([] : list string, [out0], [out0]) = Returned r →
         EvIssue 3 (Glob (pathJoin (frameOutputDir config0)
                            ("*." +:+ imageOutputExtension config0)))
           ∈ log run_listing
         ∧ precedes (fulfilledP 2) (issuedP 3) (log run_listing) = true
         ∧ ∃ frameFileIds frames1 frames2,
             r = (frameFileIds, frames1, frames2)
             ∧ EvSettle 0 GetFrameKeys (Some (VKeys frameFileIds)) ∈ log run_listing
             ∧ EvSettle 1 (Glob (pathJoin (frameOutputDir config0)
                                    ("*." +:+ imageOutputExtension config0)))
                 (Some (VKeys frames1)) ∈ log run_listing
             ∧ EvSettle 3 (Glob (pathJoin (frameOutputDir config0)
                                    ("*." +:+ imageOutputExtension config0)))
                 (Some (VKeys frames2)) ∈ log run_listing.
Proof.
  apply (listFrames_second_after_timer config0 world_out0
           (Returned ([], [out0], [out0])) run_listing).
  exact listFrames_run_overlap.
Defined.

(** C5 as stated fails: in this execution the second listing (promise 3) is
    started before the first listing (promise 1) has come to an end. *)
Lemma listFrames_second_starts_during_first :
  exec (listFrames config0) (init world_out0)
       (Returned ([], [out0], [out0])) run_listing
  ∧ log run_listing
    = [EvIssue 0 GetFrameKeys;
       EvIssue 1 (Glob "/tmp/genimg/*.webp");
       EvIssue 2 (Sleep 1000);
       EvSettle 2 (Sleep 1000) (Some VUnit);
       EvIssue 3 (Glob "/tmp/genimg/*.webp");
       EvSettle 0 GetFrameKeys (Some (VKeys []));
       EvSettle 3 (Glob "/tmp/genimg/*.webp") (Some (VKeys [out0]));
       EvSettle 1 (Glob "/tmp/genimg/*.webp") (Some (VKeys [out0]))]
  ∧ precedes (endedP 1) (issuedP 3) (log run_listing) = false.
Proof.
  split; [exact listFrames_run_overlap|]. split; reflexivity.
Qed.

(** * Properties of the rest of the code *)

(** ** More on strings *)

Lemma length_chars (s : string) : length (list_ascii_of_string s) = String.length s.
Proof. induction s as [|c s IH]; cbn; [done|]. by rewrite IH. Qed.

Lemma chars_substring n m (s : string) :
  list_ascii_of_string (String.substring n m s)
  = take m (drop n (list_ascii_of_string s)).
Proof.
  revert n m. induction s as [|c s IH]; intros [|n] [|m]; cbn;
    rewrite ?IH; done.
Qed.

(** ** Expired images *)

Lemma cleanupExpiredImage_lookup config now id w k :
  frameStateStorage (cleanupExpiredImage config now id w) !! k
  = if decide (id = k) then frameStateStorage w !! k ≫= fileKept now
    else frameStateStorage w !! k.
Proof.
  unfold cleanupExpiredImage, fileKept, fileExpired.
  destruct (decide (id = k)) as [->|Hne].
  - destruct (frameStateStorage w !! k) as [st|] eqn:E; cbn; [|by rewrite E].
    destruct (truthy _ && js_le _ _); cbn; [apply lookup_delete_eq|done].
  - destruct (frameStateStorage w !! id) as [st|]; [|done].
    destruct (truthy _ && js_le _ _); cbn; [by apply lookup_delete_ne|done].
Qed.

Lemma cleanupExpiredImage_files config now id w f :
  f ∈ files (cleanupExpiredImage config now id w)
  ↔ f ∈ files w ∧ ¬ expiredImage config now w [id] f.
Proof.
  unfold cleanupExpiredImage, expiredImage, fileExpired.
  destruct (frameStateStorage w !! id) as [st|] eqn:E.
  - destruct (truthy _ && js_le _ _) eqn:Ex; cbn.
    + rewrite elem_of_difference, elem_of_singleton. split.
      * intros [Hf Hne]. split; [done|].
        intros (id' & st' & ->%list_elem_of_singleton & _ & _ & ->). done.
      * intros [Hf Hne]. split; [done|]. intros ->. apply Hne.
        exists id, st. rewrite list_elem_of_singleton. done.
    + split; [|tauto]. intros Hf. split; [done|].
      intros (id' & st' & ->%list_elem_of_singleton & E' & Ex' & _).
      rewrite E in E'. injection E' as <-. congruence.
  - split; [|tauto]. intros Hf. split; [done|].
    intros (id' & st' & ->%list_elem_of_singleton & E' & _). congruence.
Qed.

Lemma cleanupExpiredImage_frame config now id w :
  answerStorage (cleanupExpiredImage config now id w) = answerStorage w
  ∧ runStateStorage (cleanupExpiredImage config now id w) = runStateStorage w
  ∧ archivedRunStorage (cleanupExpiredImage config now id w) = archivedRunStorage w.
Proof.
  unfold cleanupExpiredImage. destruct (frameStateStorage w !! id) as [st|]; [|done].
  by destruct (truthy _ && js_le _ _).
Qed.

Lemma fileKept_twice now (o : option StoredFileState) :
  (o ≫= fileKept now) ≫= fileKept now = o ≫= fileKept now.
Proof.
  destruct o as [st|]; [|done]. cbn. unfold fileKept.
  destruct (fileExpired now st) eqn:E; cbn; [done|]. by rewrite E.
Qed.

Lemma cleanupExpiredImages_lookup config now ids w k :
  frameStateStorage (cleanupExpiredImages config now ids w) !! k
  = if bool_decide (k ∈ ids) then frameStateStorage w !! k ≫= fileKept now
    else frameStateStorage w !! k.
Proof.
  unfold cleanupExpiredImages. revert w.
  induction ids as [|id ids IH]; intros w; [done|].
  cbn [foldl]. rewrite IH, cleanupExpiredImage_lookup.
  destruct (decide (id = k)) as [->|Hne].
  - rewrite (bool_decide_eq_true_2 (k ∈ k :: ids)) by left.
    case_bool_decide; [apply fileKept_twice|done].
  - rewrite (bool_decide_ext (k ∈ id :: ids) (k ∈ ids)); [done|].
    rewrite elem_of_cons. split; [intros [E|H]; [congruence|done]|by right].
Qed.

Lemma cleanupExpiredImages_files config now ids w f :
  f ∈ files (cleanupExpiredImages config now ids w)
  ↔ f ∈ files w ∧ ¬ expiredImage config now w ids f.
Proof.
  unfold cleanupExpiredImages. revert w.
  induction ids as [|id ids IH]; intros w.
  - cbn. split; [|tauto]. intros Hf. split; [done|].
    by intros (id & st & ?%elem_of_nil & _).
  - cbn [foldl]. rewrite IH, cleanupExpiredImage_files.
    unfold expiredImage. split.
    + intros [[Hf Hhead] Hrest]. split; [done|].
      intros (id' & st & Hin & E & Ex & ->).
      apply elem_of_cons in Hin as [->|Hin].
      * apply Hhead. exists id, st. rewrite list_elem_of_singleton. done.
      * destruct (decide (id = id')) as [->|Hne].
        -- apply Hhead. exists id', st. rewrite list_elem_of_singleton. done.
        -- apply Hrest. exists id', st. split; [done|].
           rewrite cleanupExpiredImage_lookup, decide_False by done. done.
    + intros [Hf Hnone]. split; [split; [done|]|].
      * intros (id' & st & ->%list_elem_of_singleton & E & Ex & ->).
        apply Hnone. exists id, st. split; [left|done].
      * intros (id' & st & Hin & E & Ex & ->).
        rewrite cleanupExpiredImage_lookup in E.
        destruct (decide (id = id')) as [->|Hne].
        -- destruct (frameStateStorage w !! id') as [st'|] eqn:E'; [|done].
           cbn in E. unfold fileKept in E.
           destruct (fileExpired now st') eqn:Ex'; [done|].
           injection E as <-. congruence.
        -- apply Hnone. exists id', st. split; [by right|done].
Qed.

Lemma cleanupExpiredImages_frame config now ids w :
  answerStorage (cleanupExpiredImages config now ids w) = answerStorage w
  ∧ runStateStorage (cleanupExpiredImages config now ids w) = runStateStorage w
  ∧ archivedRunStorage (cleanupExpiredImages config now ids w) = archivedRunStorage w.
Proof.
  unfold cleanupExpiredImages. revert w.
  induction ids as [|id ids IH]; intros w; [done|].
  cbn [foldl]. destruct (IH (cleanupExpiredImage config now id w)) as (-> & -> & ->).
  apply cleanupExpiredImage_frame.
Qed.

Lemma hasInfix_singleton (c : ascii) l : hasInfix [c] l ↔ c ∈ l.
Proof.
  unfold hasInfix. split.
  - intros (a & b & ->). rewrite elem_of_app. right. left.
  - intros (a & b & ->)%list_elem_of_split. by exists a, b.
Qed.

(** The name of an image file gives no other key than the id of the file,
    when the id holds no slash. *)
Lemma filenameToKey_imagePath_inv config id key :
  ¬ contains "/" id →
  filenameToKey (imageOutputExtension config) (imagePathForId config id) = Some key →
  key = id.
Proof.
  rewrite contains_chars. cbn [list_ascii_of_string]. rewrite hasInfix_singleton.
  intros Hslash. unfold filenameToKey, imagePathForId.
  rewrite !chars_app. cbn [list_ascii_of_string].
  rewrite !reverse_app. cbn [reverse rev_append]. rewrite <- !(assoc_L (++)).
  set (e := reverse (list_ascii_of_string (imageOutputExtension config))).
  set (d := reverse (list_ascii_of_string (frameOutputDir config))).
  assert (string_of_list_ascii (reverse (reverse (list_ascii_of_string id))) = id)
    as Hrev.
  { rewrite reverse_involutive. apply string_of_list_ascii_of_string. }
  assert ("/"%char ∉ reverse (list_ascii_of_string id)) as Hk.
  { by rewrite elem_of_reverse. }
  revert Hrev Hk. generalize (reverse (list_ascii_of_string id)). intros k0 Hrev Hk.
  change (reverse ["."%char]) with ["."%char].
  change (reverse ["/"%char]) with ["/"%char].
  rewrite bool_decide_eq_true_2.
  2:{ exists (k0 ++ ["/"%char] ++ d). by rewrite <- !(assoc_L (++)). }
  rewrite (assoc_L (++) e ["."%char]).
  rewrite drop_app_length.
  change (["/"%char] ++ d) with ("/"%char :: d).
  destruct (takeWhile_spec isKeyChar k0) as (k & rest & -> & _ & Hall & Hrest).
  destruct rest as [|c rest].
  - rewrite app_nil_r in *.
    rewrite (takeWhile_app isKeyChar k "/"%char d Hall eq_refl).
    destruct k as [|x k]; [done|]. rewrite drop_app_length.
    intros [= <-]. done.
  - rewrite <- (assoc_L (++)), <- app_comm_cons.
    rewrite (takeWhile_app isKeyChar k c _ Hall Hrest).
    destruct k as [|x k]; [done|]. rewrite drop_app_length.
    assert (c ≠ "/"%char) as Hc.
    { intros ->. apply Hk. rewrite elem_of_app. right. left. }
    destruct c as [[] [] [] [] [] [] [] []]; try done.
Qed.

(** X1.  [cleanupExpiredImages] on any list of ids (stale, or with an id twice):
    the record and the image file of a listed frame whose expiry is set and not
    later than [now] are removed; the record of a frame that is not listed, not
    there or not expired is left as it is, and so is its file. *)
Theorem cleanupExpiredImages_expiry config now ids w id :
  let w' := cleanupExpiredImages config now ids w in
  (∀ st t, id ∈ ids → frameStateStorage w !! id = Some st →
           fileExpiryTs st = Some t → t ≠ 0 → t ≤ now →
           frameStateStorage w' !! id = None ∧ imagePathForId config id ∉ files w')
  ∧ (id ∉ ids ∨ frameStateStorage w !! id = None
     ∨ (∃ st, frameStateStorage w !! id = Some st
              ∧ (fileExpiryTs st = None ∨ fileExpiryTs st = Some 0
                 ∨ ∃ t, fileExpiryTs st = Some t ∧ now < t)) →
     frameStateStorage w' !! id = frameStateStorage w !! id
     ∧ (imagePathForId config id ∈ files w → imagePathForId config id ∈ files w')).
Proof.
  cbv zeta. split.
  - intros st t Hin Hst Ht Hnz Hle.
    assert (fileExpired now st = true) as Hex.
    { unfold fileExpired, js_le. rewrite Ht. cbn.
      destruct (Z.eqb_spec t 0); [done|]. cbn. by apply Z.leb_le. }
    split.
    + rewrite cleanupExpiredImages_lookup, bool_decide_eq_true_2, Hst by done.
      cbn. unfold fileKept. by rewrite Hex.
    + rewrite cleanupExpiredImages_files. intros [_ Hnot]. apply Hnot.
      by exists id, st.
  - intros Hkeep.
    assert (∀ st, id ∈ ids → frameStateStorage w !! id = Some st →
                  fileExpired now st = false) as Hnot.
    { intros st Hin Hst. destruct Hkeep as [?|[E|(st' & E & Hexp)]]; [done|congruence|].
      rewrite Hst in E. injection E as <-. unfold fileExpired, js_le.
      destruct Hexp as [-> | [-> | (t & -> & Hlt)]]; [done|done|].
      cbn. rewrite andb_false_iff. right. apply Z.leb_gt. lia. }
    split.
    + rewrite cleanupExpiredImages_lookup. case_bool_decide as Hin; [|done].
      destruct (frameStateStorage w !! id) as [st|] eqn:Hst; [|done].
      cbn. unfold fileKept. by rewrite (Hnot st).
    + intros Hf. rewrite cleanupExpiredImages_files. split; [done|].
      intros (id' & st & Hin & Hst & Hex & ->%imagePathForId_inj).
      rewrite (Hnot st) in Hex; done.
Qed.

(** ** The image sweep as a whole *)

Lemma imageSweep_lookup config now frames1 frames2 w k :
  frameStateStorage (cleanupOrphanedAndExpiredImages config now frames1 frames2 w) !! k
  = frameStateStorage w !! k ≫= fileKept now.
Proof.
  unfold cleanupOrphanedAndExpiredImages. rewrite cleanupExpiredImages_lookup.
  cbn [orphanSweep set_files frameStateStorage].
  case_bool_decide as Hk; [done|].
  destruct (frameStateStorage w !! k) eqn:E; [|done].
  destruct Hk. apply getKeys_elem. eauto.
Qed.

Lemma imageSweep_files config now frames1 frames2 w f :
  f ∈ files (cleanupOrphanedAndExpiredImages config now frames1 frames2 w)
  ↔ f ∈ files w
    ∧ (f ∉ cleanupOrphanedImages config (getKeys (frameStateStorage w)) frames1 frames2)
    ∧ ¬ expiredImage config now w (getKeys (frameStateStorage w)) f.
Proof.
  unfold cleanupOrphanedAndExpiredImages. rewrite cleanupExpiredImages_files.
  unfold orphanSweep, expiredImage. cbn [set_files files frameStateStorage].
  rewrite elem_of_difference, elem_of_list_to_set. tauto.
Qed.

Lemma imageSweep_frame config now frames1 frames2 w :
  let w' := cleanupOrphanedAndExpiredImages config now frames1 frames2 w in
  answerStorage w' = answerStorage w
  ∧ runStateStorage w' = runStateStorage w
  ∧ archivedRunStorage w' = archivedRunStorage w.
Proof.
  cbv zeta. unfold cleanupOrphanedAndExpiredImages.
  destruct (cleanupExpiredImages_frame config now (getKeys (frameStateStorage w))
              (orphanSweep config (getKeys (frameStateStorage w)) frames1 frames2 w))
    as (-> & -> & ->).
  done.
Qed.

Lemma imageSweep_keeps config now frames1 frames2 w id st :
  frameStateStorage w !! id = Some st →
  fileExpired now st = false →
  ¬ contains "/" id →
  let w' := cleanupOrphanedAndExpiredImages config now frames1 frames2 w in
  frameStateStorage w' !! id = Some st
  ∧ (imagePathForId config id ∈ files w → imagePathForId config id ∈ files w').
Proof.
  intros Hst Hnot Hslash. cbv zeta. split.
  - rewrite imageSweep_lookup, Hst. cbn. unfold fileKept. by rewrite Hnot.
  - intros Hf. rewrite imageSweep_files. split; [done|]. split.
    + rewrite cleanupOrphanedImages_elem.
      intros (_ & _ & key & Hkey & Hn).
      apply filenameToKey_imagePath_inv in Hkey as ->; [|done].
      apply Hn, getKeys_elem. eauto.
    + intros (id' & st' & _ & Hst' & Hex & ->%imagePathForId_inj).
      rewrite Hst in Hst'. injection Hst' as <-. congruence.
Qed.

(** X2.  The image sweep never deletes the record or the image file of a tracked
    frame that has not expired, whatever the two listings hold, as long as the
    id holds no slash. *)
Theorem image_sweep_keeps_tracked config now frames1 frames2 w id st :
  frameStateStorage w !! id = Some st →
  fileExpiryTs st = None ∨ (∃ t, fileExpiryTs st = Some t ∧ now < t) →
  ¬ contains "/" id →
  let w' := cleanupOrphanedAndExpiredImages config now frames1 frames2 w in
  frameStateStorage w' !! id = Some st
  ∧ (imagePathForId config id ∈ files w → imagePathForId config id ∈ files w').
Proof.
  intros Hst Hexp Hslash. apply imageSweep_keeps; [done| |done].
  unfold fileExpired, js_le. destruct Hexp as [-> | (t & -> & Hlt)]; [done|].
  cbn. rewrite andb_false_iff. right. apply Z.leb_gt. lia.
Qed.

Lemma image_sweep_keeps_tracked_witness :
  let w' := cleanupOrphanedAndExpiredImages config0 T0 [out0] [out0] world_tracked in
  frameStateStorage w' !! "0a1b-ff" = Some (mkFileState None)
  ∧ (imagePathForId config0 "0a1b-ff" ∈ files world_tracked →
     imagePathForId config0 "0a1b-ff" ∈ files w').
Proof.
  apply (image_sweep_keeps_tracked config0 T0 [out0] [out0] world_tracked
           "0a1b-ff" (mkFileState None)).
  - reflexivity.
  - left. reflexivity.
  - rewrite contains_chars. cbn [list_ascii_of_string].
    rewrite hasInfix_singleton. intros H.
    repeat (apply elem_of_cons in H as [H|H]; [discriminate H|]).
    by apply elem_of_nil in H.
Defined.

(** ** The three sweeps of a tick *)

Lemma cleanupAnswer_frame now id w :
  frameStateStorage (cleanupAnswer now id w) = frameStateStorage w
  ∧ runStateStorage (cleanupAnswer now id w) = runStateStorage w
  ∧ archivedRunStorage (cleanupAnswer now id w) = archivedRunStorage w
  ∧ files (cleanupAnswer now id w) = files w.
Proof.
  unfold cleanupAnswer. destruct (answerStorage w !! id) as [a|]; [|done].
  by destruct (truthy _ && js_lt _ _).
Qed.

Lemma cleanupAnswers_frame now w :
  frameStateStorage (cleanupAnswers now w) = frameStateStorage w
  ∧ runStateStorage (cleanupAnswers now w) = runStateStorage w
  ∧ archivedRunStorage (cleanupAnswers now w) = archivedRunStorage w
  ∧ files (cleanupAnswers now w) = files w.
Proof.
  unfold cleanupAnswers. generalize (getKeys (answerStorage w)). intros ids.
  revert w. induction ids as [|id ids IH]; intros w; [done|].
  cbn [foldl]. destruct (IH (cleanupAnswer now id w)) as (-> & -> & -> & ->).
  apply cleanupAnswer_frame.
Qed.

Lemma cleanupExpiredRunEffect_frame config now id w :
  frameStateStorage (cleanupExpiredRunEffect config now id w) = frameStateStorage w
  ∧ answerStorage (cleanupExpiredRunEffect config now id w) = answerStorage w
  ∧ files (cleanupExpiredRunEffect config now id w) = files w.
Proof.
  unfold cleanupExpiredRunEffect. destruct (runStateStorage w !! id) as [d|]; [|done].
  destruct (runExpired now d); [|done]. by destruct (runImportant config d).
Qed.

Lemma cleanupExpiredRuns_frame config now w :
  frameStateStorage (cleanupExpiredRuns config now w) = frameStateStorage w
  ∧ answerStorage (cleanupExpiredRuns config now w) = answerStorage w
  ∧ files (cleanupExpiredRuns config now w) = files w.
Proof.
  unfold cleanupExpiredRuns. generalize (getKeys (runStateStorage w)). intros ids.
  revert w. induction ids as [|id ids IH]; intros w; [done|].
  cbn [foldl]. destruct (IH (cleanupExpiredRunEffect config now id w)) as (-> & -> & ->).
  apply cleanupExpiredRunEffect_frame.
Qed.

(** X3.  The frame sweep and the answer sweep treat the instant of expiry
    differently: in a tick at the very time a frame and its answer expire, the
    record and the image of the frame are removed, and the answer is kept. *)
Theorem cleanupTick_at_expiry config now frames1 frames2 w id a :
  now ≠ 0 →
  frameStateStorage w !! id = Some (mkFileState (Some now)) →
  answerStorage w !! id = Some a →
  answerExpiryTs a = Some now →
  let w' := cleanupTick config now frames1 frames2 w in
  frameStateStorage w' !! id = None
  ∧ (imagePathForId config id ∉ files w')
  ∧ answerStorage w' !! id = Some a.
Proof.
  intros Hnow Hst Ha Hexp. cbv zeta. unfold cleanupTick.
  set (w1 := cleanupAnswers now w).
  set (w2 := cleanupOrphanedAndExpiredImages config now frames1 frames2 w1).
  destruct (cleanupExpiredRuns_frame config now w2) as (-> & -> & ->).
  destruct (cleanupAnswers_frame now w) as (Hf1 & _ & _ & Hfiles1).
  assert (fileExpired now (mkFileState (Some now)) = true) as Hex.
  { unfold fileExpired, js_le. cbn. destruct (Z.eqb_spec now 0); [done|].
    cbn. apply Z.leb_le. lia. }
  split; [|split].
  - unfold w2. rewrite imageSweep_lookup. unfold w1. rewrite Hf1, Hst. cbn.
    unfold fileKept. by rewrite Hex.
  - unfold w2. rewrite imageSweep_files. intros (_ & _ & Hnot). apply Hnot.
    exists id, (mkFileState (Some now)). unfold w1. rewrite Hf1.
    split; [apply getKeys_elem; eauto|done].
  - destruct (imageSweep_frame config now frames1 frames2 w1) as (Ha2 & _).
    fold w2 in Ha2. rewrite Ha2. unfold w1.
    rewrite cleanupAnswers_lookup, Ha. cbn. unfold answerKept, js_lt.
    rewrite Hexp. cbn. rewrite Z.ltb_irrefl. by rewrite andb_false_r.
Qed.

Lemma cleanupTick_at_expiry_witness :
  let w' := cleanupTick config0 T0 [out0] [out0] world_expiring in
  frameStateStorage w' !! "0a1b-ff" = None
  ∧ (imagePathForId config0 "0a1b-ff" ∉ files w')
  ∧ answerStorage w' !! "0a1b-ff" = Some (mkAnswer 1 2 (167 # 2) (Some T0)).
Proof.
  apply (cleanupTick_at_expiry config0 T0 [out0] [out0] world_expiring "0a1b-ff"
           (mkAnswer 1 2 (167 # 2) (Some T0))).
  - intros H. discriminate H.
  - reflexivity.
  - reflexivity.
  - reflexivity.
Defined.

(** Each sweep reads its own stores only. *)
Lemma cleanupAnswers_reads now w1 w2 :
  answerStorage w1 = answerStorage w2 →
  answerStorage (cleanupAnswers now w1) = answerStorage (cleanupAnswers now w2).
Proof. intros E. apply map_eq. intros k. by rewrite !cleanupAnswers_lookup, E. Qed.

Lemma imageSweep_reads config now frames1 frames2 w1 w2 :
  frameStateStorage w1 = frameStateStorage w2 → files w1 = files w2 →
  frameStateStorage (cleanupOrphanedAndExpiredImages config now frames1 frames2 w1)
  = frameStateStorage (cleanupOrphanedAndExpiredImages config now frames1 frames2 w2)
  ∧ files (cleanupOrphanedAndExpiredImages config now frames1 frames2 w1)
    = files (cleanupOrphanedAndExpiredImages config now frames1 frames2 w2).
Proof.
  intros E1 E2. split.
  - apply map_eq. intros k. by rewrite !imageSweep_lookup, E1.
  - apply set_eq. intros f. rewrite !imageSweep_files. unfold expiredImage.
    by rewrite E1, E2.
Qed.

Lemma cleanupExpiredRuns_reads config now w1 w2 :
  runStateStorage w1 = runStateStorage w2 →
  archivedRunStorage w1 = archivedRunStorage w2 →
  runStateStorage (cleanupExpiredRuns config now w1)
  = runStateStorage (cleanupExpiredRuns config now w2)
  ∧ archivedRunStorage (cleanupExpiredRuns config now w1)
    = archivedRunStorage (cleanupExpiredRuns config now w2).
Proof.
  intros E1 E2. split; apply map_eq; intros k.
  - rewrite (proj1 (cleanupExpiredRuns_lookup config now w1 k)).
    rewrite (proj1 (cleanupExpiredRuns_lookup config now w2 k)). by rewrite E1.
  - rewrite (proj2 (cleanupExpiredRuns_lookup config now w1 k)).
    rewrite (proj2 (cleanupExpiredRuns_lookup config now w2 k)). by rewrite E1, E2.
Qed.

(** X4.  The three sweeps of a tick, which the plugin starts together, work on
    stores of their own; carried out one after the other, in any order and each
    with its own reading of the clock, they leave the same stores and the same
    output directory. *)
Theorem cleanup_sweeps_commute config nowA nowI nowR frames1 frames2 w :
  let A := cleanupAnswers nowA in
  let I := cleanupOrphanedAndExpiredImages config nowI frames1 frames2 in
  let R := cleanupExpiredRuns config nowR in
  A (I w) = I (A w) ∧ A (R w) = R (A w) ∧ I (R w) = R (I w).
Proof.
  cbv zeta.
  pose proof (λ w, cleanupAnswers_frame nowA w) as FA.
  pose proof (λ w, imageSweep_frame config nowI frames1 frames2 w) as FI.
  pose proof (λ w, cleanupExpiredRuns_frame config nowR w) as FR.
  cbv zeta in FI.
  split; [|split]; apply World_eq.
  - rewrite (proj1 (FA _)). symmetry.
    apply imageSweep_reads; apply FA.
  - rewrite (proj1 (FI _)). apply cleanupAnswers_reads, FI.
  - rewrite (proj1 (proj2 (FA _))), !(proj1 (proj2 (FI _))). symmetry. apply FA.
  - rewrite (proj1 (proj2 (proj2 (FA _)))), !(proj2 (proj2 (FI _))). symmetry. apply FA.
  - rewrite (proj2 (proj2 (proj2 (FA _)))). symmetry.
    apply imageSweep_reads; apply FA.
  - rewrite (proj1 (FA _)), !(proj1 (FR _)). symmetry. apply FA.
  - rewrite (proj1 (proj2 (FR _))). apply cleanupAnswers_reads, FR.
  - rewrite (proj1 (proj2 (FA _))). symmetry.
    apply cleanupExpiredRuns_reads; apply FA.
  - rewrite (proj1 (proj2 (proj2 (FA _)))). symmetry.
    apply cleanupExpiredRuns_reads; apply FA.
  - rewrite (proj2 (proj2 (proj2 (FA _)))), !(proj2 (proj2 (FR _))). symmetry. apply FA.
  - rewrite (proj1 (FR _)). apply imageSweep_reads; apply FR.
  - rewrite (proj1 (FI _)), !(proj1 (proj2 (FR _))). symmetry. apply FI.
  - rewrite (proj1 (proj2 (FI _))). symmetry.
    apply cleanupExpiredRuns_reads; apply FI.
  - rewrite (proj2 (proj2 (FI _))). symmetry.
    apply cleanupExpiredRuns_reads; apply FI.
  - rewrite (proj2 (proj2 (FR _))). apply imageSweep_reads; apply FR.
Qed.

(** ** A sweep after a sweep *)

Lemma answerKept_later now now' (o : option StoredAnswer) :
  now ≤ now' →
  (o ≫= answerKept now) ≫= answerKept now' = o ≫= answerKept now'.
Proof.
  intros Hle. destruct o as [a|]; [|done]. cbn. unfold answerKept.
  destruct (truthy (answerExpiryTs a) && js_lt (answerExpiryTs a) now) eqn:E; [|done].
  cbn. apply andb_true_iff in E as [Ht Hlt]. rewrite Ht. cbn.
  unfold js_lt in *. apply Z.ltb_lt in Hlt.
  destruct (Z.ltb_spec (from_option (λ t, t) 0 (answerExpiryTs a)) now'); [done|lia].
Qed.

(** X5.  A sweep of the answers makes up for the sweeps before it: at a time not
    earlier than theirs, it leaves the stores that it would have left without
    them.  In particular a sweep that is run twice at the same time changes
    nothing the second time. *)
Theorem cleanupAnswers_later now now' w :
  now ≤ now' →
  cleanupAnswers now' (cleanupAnswers now w) = cleanupAnswers now' w.
Proof.
  intros Hle.
  destruct (cleanupAnswers_frame now w) as (E1 & E2 & E3 & E4).
  destruct (cleanupAnswers_frame now' w) as (F1 & F2 & F3 & F4).
  destruct (cleanupAnswers_frame now' (cleanupAnswers now w)) as (G1 & G2 & G3 & G4).
  apply World_eq; [congruence| |congruence..].
  apply map_eq. intros k. rewrite !cleanupAnswers_lookup. by apply answerKept_later.
Qed.

Lemma cleanupAnswers_later_witness :
  cleanupAnswers (T0 + 5) (cleanupAnswers T0 world_answers)
  = cleanupAnswers (T0 + 5) world_answers.
Proof.
  apply (cleanupAnswers_later T0 (T0 + 5) world_answers).
  vm_compute. discriminate.
Defined.

Lemma runExpired_later now now' data :
  now ≤ now' → runExpired now data = true → runExpired now' data = true.
Proof.
  unfold runExpired, js_lt. intros Hle. rewrite !orb_true_iff, !Z.ltb_lt.
  intros [H|H]; [by left|right; lia].
Qed.

(** X6.  The same for the sweep of the runs: a run that an earlier sweep has
    removed or archived is where a later sweep would have put it. *)
Theorem cleanupExpiredRuns_later config now now' w :
  now ≤ now' →
  cleanupExpiredRuns config now' (cleanupExpiredRuns config now w)
  = cleanupExpiredRuns config now' w.
Proof.
  intros Hle.
  destruct (cleanupExpiredRuns_frame config now w) as (E1 & E2 & E3).
  destruct (cleanupExpiredRuns_frame config now' w) as (F1 & F2 & F3).
  destruct (cleanupExpiredRuns_frame config now' (cleanupExpiredRuns config now w))
    as (G1 & G2 & G3).
  assert (∀ k,
    let live := runStateStorage w !! k in
    let arch := archivedRunStorage w !! k in
    liveAfter now' (liveAfter now live) = liveAfter now' live
    ∧ archiveAfter config now' (liveAfter now live) (archiveAfter config now live arch)
      = archiveAfter config now' live arch) as Hk.
  { intros k. cbv zeta. destruct (runStateStorage w !! k) as [d|]; [|done].
    cbn. destruct (runExpired now d) eqn:Ex; cbn.
    - rewrite (runExpired_later now now' d Hle Ex). done.
    - done. }
  apply World_eq; [congruence|congruence| | |congruence].
  - apply map_eq. intros k.
    rewrite !(proj1 (cleanupExpiredRuns_lookup _ _ _ k)). apply Hk.
  - apply map_eq. intros k.
    rewrite !(proj2 (cleanupExpiredRuns_lookup _ _ _ k)).
    rewrite !(proj1 (cleanupExpiredRuns_lookup _ _ _ k)). apply Hk.
Qed.

Lemma cleanupExpiredRuns_later_witness :
  cleanupExpiredRuns config0 (T0 + 5) (cleanupExpiredRuns config0 T0 world_run)
  = cleanupExpiredRuns config0 (T0 + 5) world_run.
Proof.
  apply (cleanupExpiredRuns_later config0 T0 (T0 + 5) world_run).
  vm_compute. discriminate.
Defined.

(** ** Run archival when a write fails *)

(** X7.  Archiving a run is not all-or-nothing.  The removal of the live record
    does not wait for the archive write, so for every expired run that is
    important there is an execution of the callback in which the removal is
    carried out, the archive write fails, and the callback throws: the run is
    gone from the live store and the archive is as it was. *)
Theorem cleanupExpiredRun_can_lose_run config now runId w data :
  runStateStorage w !! runId = Some data →
  runExpired now data = true →
  runImportant config data = true →
  ∃ s', exec (cleanupExpiredRun config now runId) (init w) Thrown s'
        ∧ runStateStorage (world s') !! runId = None
        ∧ archivedRunStorage (world s') = archivedRunStorage w.
Proof.
  intros Hdata Hexp Himp.
  set (oG := GetRun runId). set (oR := RemoveRun runId).
  set (oA := SetArchivedRun runId (archivedCopy data)).
  set (w1 := set_runState (delete runId) w).
  set (s2 := settle 0 oG (Some (VRun (Some data))) w (issue oG (init w))).
  set (s4 := issue oA (issue oR s2)).
  set (s5 := settle 2 oA None w1 (settle 1 oR (Some VUnit) w1 s4)).
  exists s5. split; [|split].
  - cbn [cleanupExpiredRun exec].
    exists (init w). split; [apply env_refl|].
    exists s2. split.
    { eapply env_next; [|apply env_refl].
      apply (env_fulfil _ 0%nat oG (VRun (Some data)) w); [cbn; in_log|].
      rewrite <- Hdata. constructor. }
    left. exists [VRun (Some data)]. split.
    { repeat constructor. exists oG. cbn. in_log. }
    rewrite Hexp. cbn [exec].
    exists s2. split; [apply env_refl|].
    rewrite Himp. cbn [exec].
    exists (issue oR s2). split; [apply env_refl|].
    exists s5. split.
    { eapply env_next; [|eapply env_next; [|apply env_refl]].
      - apply (env_fulfil _ 1%nat oR VUnit w1); [cbn; in_log|constructor].
      - apply (env_reject (settle 1 oR (Some VUnit) w1 s4) 2%nat oA). cbn. in_log. }
    right. exists 2%nat. split; [right; left|]. split; [|done].
    exists oA. cbn. in_log.
  - cbn. apply lookup_delete_eq.
  - done.
Qed.

Lemma cleanupExpiredRun_can_lose_run_witness :
  ∃ s', exec (cleanupExpiredRun config0 T0 "run1") (init world_run) Thrown s'
        ∧ runStateStorage (world s') !! "run1" = None
        ∧ archivedRunStorage (world s') = archivedRunStorage world_run.
Proof.
  apply (cleanupExpiredRun_can_lose_run config0 T0 "run1" world_run run10);
    reflexivity.
Defined.

(** ** Recovery scan: what is recovered, and what is left *)

Lemma recoverOne_result_stats config id w st :
  (recoverOne config id w st).1.1 = recoverResult config id w.
Proof.
  unfold recoverResult, recoverOne.
  repeat match goal with |- context [if ?b then _ else _] => destruct b end; done.
Qed.

Lemma sameFrame_sym config id w1 w2 :
  sameFrame config id w1 w2 → sameFrame config id w2 w1.
Proof. intros (H1 & H2 & H3). repeat split; done || apply H3. Qed.

Lemma sameFrame_trans config id w1 w2 w3 :
  sameFrame config id w1 w2 → sameFrame config id w2 w3 → sameFrame config id w1 w3.
Proof.
  intros (H1 & H2 & H3) (G1 & G2 & G3). split; [congruence|]. split; [congruence|].
  tauto.
Qed.

Lemma recoverOne_sameFrame config id' id w st :
  id' ≠ id → sameFrame config id (recoverOne config id' w st).1.2 w.
Proof. intros Hne. apply (recoverOne_other config id' id w st Hne). Qed.

Lemma recoverAll_sameFrame config ids id w st :
  id ∉ ids → sameFrame config id (recoverAll config ids w st).1.2 w.
Proof.
  revert w st. induction ids as [|id' ids IH]; intros w st Hn; cbn [recoverAll].
  - done.
  - apply not_elem_of_cons in Hn as [Hne Hn].
    pose proof (recoverOne_sameFrame config id' id w st (not_eq_sym Hne)) as H1.
    destruct (recoverOne config id' w st) as [[r w1] st1].
    specialize (IH w1 st1 Hn).
    destruct (recoverAll config ids w1 st1) as [[rs w2] st2]. cbn in *.
    by apply (sameFrame_trans _ _ _ w1).
Qed.

Lemma recoverResult_local config id w1 w2 :
  sameFrame config id w1 w2 → recoverResult config id w1 = recoverResult config id w2.
Proof.
  intros (H1 & H2 & H3). unfold recoverResult, recoverOne. rewrite H1, H2.
  rewrite (bool_decide_ext _ _ H3).
  repeat match goal with |- context [if ?b then _ else _] => destruct b end; done.
Qed.

Lemma recoverResult_ready config id w :
  is_Some (frameStateStorage w !! id) →
  recoverResult config id w = id ↔ id = "" ∨ readyFrame config w id.
Proof.
  intros [st Hst]. unfold recoverResult, recoverOne, readyFrame, present.
  rewrite Hst. cbn [fileExpirySet from_option].
  rewrite (bool_decide_eq_true_2 (is_Some (Some st))) by eauto. cbn [andb negb].
  destruct (answerStorage w !! id) as [a|] eqn:Ha.
  - rewrite (bool_decide_eq_true_2 (is_Some (Some a))) by eauto. cbn [negb].
    destruct (truthy (fileExpiryTs st)) eqn:Et; cbn.
    + split; [by left|]. intros [->|((st' & [= <-] & E) & _)]; [done|congruence].
    + case_bool_decide as Hf; cbn.
      * split; [|done]. intros _. right. eauto 6.
      * split; [by left|]. intros [->|(_ & _ & ?)]; done.
  - rewrite (bool_decide_eq_false_2 (is_Some None)) by (by intros [? ?]). cbn.
    split; [by left|]. intros [->|(_ & [? ?] & _)]; done.
Qed.

Lemma recoverAll_elem config ids id w st :
  NoDup ids → id ≠ "" →
  id ∈ (recoverAll config ids w st).1.1 ↔ id ∈ ids ∧ recoverResult config id w = id.
Proof.
  intros Hnd Hid. revert w st.
  induction Hnd as [|id' ids Hnotin Hnd IH]; intros w st; cbn [recoverAll].
  - cbn. split; [by intros ?%elem_of_nil|by intros [?%elem_of_nil _]].
  - pose proof (recoverOne_result_stats config id' w st) as Hr.
    pose proof (recoverOne_result config id' w st) as Hres.
    pose proof (λ H, recoverOne_sameFrame config id' id w st H) as Hsame.
    destruct (recoverOne config id' w st) as [[r w1] st1].
    specialize (IH w1 st1).
    destruct (recoverAll config ids w1 st1) as [[rs w2] st2]. cbn in *.
    rewrite !elem_of_cons, IH. destruct (decide (id' = id)) as [->|Hne].
    + split.
      * intros [->|[Hin _]]; [|done]. split; [by left|done].
      * intros [_ E]. left. congruence.
    + rewrite (recoverResult_local config id w1 w (Hsame Hne)). split.
      * intros [->|[Hin E]]; [|by auto]. destruct Hres; congruence.
      * intros [[->|Hin] E]; [done|by right].
Qed.

Lemma filter_results (g : string → bool) (ids : list string) :
  List.filter (λ x, negb (String.eqb x "")) (map (λ id, if g id then id else "") ids)
  = List.filter (λ id, g id && negb (String.eqb id "")) ids.
Proof.
  induction ids as [|id ids IH]; [done|]. cbn [map List.filter].
  destruct (g id); cbn [andb].
  - destruct (negb (String.eqb id "")); by rewrite IH.
  - cbn. exact IH.
Qed.

Lemma recoverAll_results config ids w st :
  NoDup ids →
  (recoverAll config ids w st).1.1
  = map (λ id, if String.eqb (recoverResult config id w) id then id else "") ids.
Proof.
  intros Hnd. revert w st.
  induction Hnd as [|id' ids Hnotin Hnd IH]; intros w st; cbn [recoverAll]; [done|].
  pose proof (recoverOne_result_stats config id' w st) as Hr.
  pose proof (recoverOne_result config id' w st) as Hres.
  pose proof (λ id H, recoverOne_sameFrame config id' id w st H) as Hsame.
  destruct (recoverOne config id' w st) as [[r w1] st1].
  specialize (IH w1 st1).
  destruct (recoverAll config ids w1 st1) as [[rs w2] st2]. cbn in *.
  rewrite IH. f_equal.
  - rewrite <- Hr. destruct (String.eqb_spec r id'); [done|]. by destruct Hres.
  - apply map_ext_in. intros id Hin%list_elem_of_In.
    rewrite (recoverResult_local config id w1 w); [done|].
    apply Hsame. intros ->. done.
Qed.

Lemma recoverFrames_ready config w id :
  id ≠ "" → readyFrame config w id →
  mkItem id ∈ recovered (recoverFrames config w).
Proof.
  intros Hne Hready. unfold recoverFrames.
  pose proof (recoverAll_elem config (getKeys (frameStateStorage w)) id w noStats
                (getKeys_NoDup _) Hne) as Helem.
  destruct (recoverAll config (getKeys (frameStateStorage w)) w noStats)
    as [[rs w'] st]. cbn in *.
  rewrite list_elem_of_In, in_map_iff. exists id. split; [done|].
  apply filter_In. split.
  - apply list_elem_of_In, Helem.
    assert (is_Some (frameStateStorage w !! id)) as Hk.
    { destruct Hready as ((s & Hs & _) & _). eauto. }
    split; [by apply getKeys_elem|].
    apply recoverResult_ready; [done|by right].
  - by destruct (String.eqb_spec id "").
Qed.

(** X8.  The recovered list holds exactly the frames that are ready to be served
    (tracked and not served, with an answer and an image file), apart from the
    id [""]; and it holds none of them twice.  So the scan never hands back a
    frame that has been served, that has lost its answer or that has no image. *)
Theorem recovery_exact config w :
  (∀ id, mkItem id ∈ recovered (recoverFrames config w)
         ↔ id ≠ "" ∧ readyFrame config w id)
  ∧ NoDup (recovered (recoverFrames config w)).
Proof.
  unfold recoverFrames.
  pose proof (recoverAll_elem config (getKeys (frameStateStorage w))) as Helem.
  pose proof (recoverAll_results config (getKeys (frameStateStorage w)) w noStats
                (getKeys_NoDup _)) as Hres.
  destruct (recoverAll config (getKeys (frameStateStorage w)) w noStats)
    as [[rs w'] st] eqn:E.
  cbn [recovered]. split.
  - intros id. rewrite list_elem_of_In, in_map_iff. split.
    + intros (x & [= ->] & Hx%filter_In). destruct Hx as [Hin Hne].
      destruct (String.eqb_spec id ""); [done|]. split; [done|].
      specialize (Helem id w noStats (getKeys_NoDup _) n). rewrite E in Helem.
      apply list_elem_of_In, Helem in Hin as [Hk Hr].
      apply getKeys_elem in Hk.
      apply (recoverResult_ready config id w Hk) in Hr as [?|?]; done.
    + intros [Hne Hready].
      pose proof (recoverFrames_ready config w id Hne Hready) as H.
      unfold recoverFrames in H. rewrite E in H. cbn in H.
      by rewrite list_elem_of_In, in_map_iff in H.
  - cbn in Hres. rewrite Hres, filter_results.
    apply NoDup_ListNoDup, Finite.Injective_map_NoDup; [by intros ?? [= ->]|].
    apply List.NoDup_filter, NoDup_ListNoDup, getKeys_NoDup.
Qed.

Lemma consistentFrame_sameFrame config id w1 w2 :
  sameFrame config id w1 w2 → consistentFrame config w2 id → consistentFrame config w1 id.
Proof.
  intros (H1 & H2 & H3) Hc st Hst. rewrite H1 in Hst. rewrite H2, H3. by apply Hc.
Qed.

Lemma recoverOne_consistent config id w st :
  consistentFrame config (recoverOne config id w st).1.2 id.
Proof.
  unfold recoverOne, consistentFrame, present.
  destruct (frameStateStorage w !! id) as [f|] eqn:Hf;
    destruct (answerStorage w !! id) as [a|] eqn:Ha;
    rewrite ?(bool_decide_eq_true_2 (is_Some (Some _))) by eauto;
    rewrite ?(bool_decide_eq_false_2 (is_Some None)) by (by intros [? ?]);
    cbn [andb negb orb fileExpirySet answerExpirySet from_option].
  - destruct (truthy (fileExpiryTs f)) eqn:Et; cbn [fst snd].
    + intros st'. rewrite Hf, Ha. intros [= <-]. split; [eauto|congruence].
    + case_bool_decide as Hfile; cbn [fst snd].
      * intros st'. rewrite Hf, Ha. intros [= <-]. split; [eauto|done].
      * intros st'. destruct (truthy (answerExpiryTs a)); cbn;
          by rewrite lookup_delete_eq.
  - cbn. intros st'. by rewrite lookup_delete_eq.
  - destruct (truthy (answerExpiryTs a)); cbn; intros st'; by rewrite Hf.
  - case_bool_decide as Hfile; cbn; intros st'; [by rewrite Hf|].
    by rewrite lookup_delete_eq.
Qed.

Lemma recoverAll_consistent config ids w st :
  NoDup ids →
  (∀ id, id ∉ ids → consistentFrame config w id) →
  ∀ id, consistentFrame config (recoverAll config ids w st).1.2 id.
Proof.
  intros Hnd. revert w st.
  induction Hnd as [|id' ids Hnotin Hnd IH]; intros w st Hout id; cbn [recoverAll].
  - apply Hout, not_elem_of_nil.
  - pose proof (recoverOne_consistent config id' w st) as Hc.
    pose proof (λ id H, recoverOne_sameFrame config id' id w st H) as Hsame.
    destruct (recoverOne config id' w st) as [[r w1] st1].
    specialize (IH w1 st1).
    destruct (recoverAll config ids w1 st1) as [[rs w2] st2]. cbn in *.
    apply IH. intros id0 Hn. destruct (decide (id' = id0)) as [<-|Hne]; [done|].
    apply (consistentFrame_sameFrame _ _ _ w); [by apply Hsame|].
    apply Hout. rewrite not_elem_of_cons. split; [congruence|done].
Qed.

(** X9.  The scan leaves the stores consistent, whatever state it finds them in:
    afterwards every tracked frame has an answer, and every tracked frame that
    has not been served has its image file. *)
Theorem recovery_leaves_consistent config w id st :
  let w' := worldAfter (recoverFrames config w) in
  frameStateStorage w' !! id = Some st →
  is_Some (answerStorage w' !! id)
  ∧ (truthy (fileExpiryTs st) = false → imagePathForId config id ∈ files w').
Proof.
  cbv zeta. unfold recoverFrames.
  pose proof (recoverAll_consistent config (getKeys (frameStateStorage w)) w noStats
                (getKeys_NoDup _)) as H.
  destruct (recoverAll config (getKeys (frameStateStorage w)) w noStats)
    as [[rs w'] st']. cbn in *.
  apply H. intros id0 Hn st0 Hst0. destruct Hn. apply getKeys_elem. eauto.
Qed.

Lemma recovery_leaves_consistent_witness :
  let w' := worldAfter (recoverFrames config0 world_broken) in
  frameStateStorage w' = {[ "c3" := mkFileState None ]}
  ∧ is_Some (answerStorage w' !! "c3")
  ∧ (truthy (fileExpiryTs (mkFileState None)) = false →
     imagePathForId config0 "c3" ∈ files w').
Proof.
  cbv zeta. split; [vm_compute; reflexivity|].
  apply (recovery_leaves_consistent config0 world_broken "c3" (mkFileState None)).
  vm_compute. reflexivity.
Defined.

Lemma recoverOne_tracked_stats config id w st :
  is_Some (frameStateStorage w !! id) →
  unservedAnswer (recoverOne config id w st).2 = unservedAnswer st
  ∧ cleanedFileAnswer (recoverOne config id w st).2 = cleanedFileAnswer st.
Proof.
  intros Hf. unfold recoverOne, present.
  rewrite (bool_decide_eq_true_2 _ Hf). cbn [negb andb].
  repeat match goal with |- context [if ?b then _ else _] => destruct b end; done.
Qed.

Lemma recoverAll_tracked_stats config ids w st :
  NoDup ids →
  (∀ id, id ∈ ids → is_Some (frameStateStorage w !! id)) →
  unservedAnswer (recoverAll config ids w st).2 = unservedAnswer st
  ∧ cleanedFileAnswer (recoverAll config ids w st).2 = cleanedFileAnswer st.
Proof.
  intros Hnd. revert w st.
  induction Hnd as [|id' ids Hnotin Hnd IH]; intros w st Hin; cbn [recoverAll]; [done|].
  pose proof (recoverOne_tracked_stats config id' w st (Hin id' ltac:(left))) as Hst.
  pose proof (λ id H, recoverOne_sameFrame config id' id w st H) as Hsame.
  destruct (recoverOne config id' w st) as [[r w1] st1].
  specialize (IH w1 st1).
  destruct (recoverAll config ids w1 st1) as [[rs w2] st2]. cbn in *.
  destruct IH as [-> ->]; [|done].
  intros id Hid. destruct (Hsame id) as (-> & _); [by intros ->|].
  apply Hin. by right.
Qed.

(** X10.  The scan goes through the keys of the frame-state store, so, as long
    as nothing else changes the stores during the scan, it never meets an answer
    without a frame: the counters [unservedAnswer] and [cleanedFileAnswer] stay
    at 0, and the answer of an id that is not tracked is left as it is, expired
    or not. *)
Theorem recovery_skips_untracked_answers config w :
  unservedAnswer (stats (recoverFrames config w)) = 0%nat
  ∧ cleanedFileAnswer (stats (recoverFrames config w)) = 0%nat
  ∧ ∀ id, frameStateStorage w !! id = None →
          answerStorage (worldAfter (recoverFrames config w)) !! id
          = answerStorage w !! id.
Proof.
  unfold recoverFrames.
  pose proof (recoverAll_tracked_stats config (getKeys (frameStateStorage w)) w noStats
                (getKeys_NoDup _) (λ id H, proj1 (getKeys_elem _ id) H)) as Hst.
  pose proof (λ id, recoverAll_sameFrame config (getKeys (frameStateStorage w)) id
                      w noStats) as Hsame.
  destruct (recoverAll config (getKeys (frameStateStorage w)) w noStats)
    as [[rs w'] st']. cbn in *.
  destruct Hst as [-> ->]. split; [done|]. split; [done|].
  intros id Hid. apply Hsame. rewrite getKeys_elem, Hid. by intros [? ?].
Qed.

Example recovery_broken_world :
  recovered (recoverFrames config0 world_broken) = [mkItem "c3"]
  ∧ stats (recoverFrames config0 world_broken) = mkStats 1 0 0 0 1 1
  ∧ answerStorage (worldAfter (recoverFrames config0 world_broken))
    = {[ "c3" := answer0; "d4" := answer0 ]}.
Proof. vm_compute. done. Qed.

(** ** A scan after a scan *)

Lemma recoverOne_consistent_noop config id w st :
  is_Some (frameStateStorage w !! id) →
  consistentFrame config w id →
  (recoverOne config id w st).1.2 = w
  ∧ noAnswer (recoverOne config id w st).2 = noAnswer st
  ∧ missingFile (recoverOne config id w st).2 = missingFile st.
Proof.
  intros [f Hf] Hc. destruct (Hc f Hf) as [[a Ha] Hfile].
  unfold recoverOne, present. rewrite Hf, Ha.
  rewrite !bool_decide_eq_true_2 by eauto.
  cbn [negb andb fileExpirySet from_option].
  destruct (truthy (fileExpiryTs f)); [done|].
  by rewrite bool_decide_eq_true_2 by auto.
Qed.

Lemma recoverAll_consistent_noop config ids w st :
  (∀ id, id ∈ ids → is_Some (frameStateStorage w !! id)) →
  (∀ id, consistentFrame config w id) →
  (recoverAll config ids w st).1.2 = w
  ∧ noAnswer (recoverAll config ids w st).2 = noAnswer st
  ∧ missingFile (recoverAll config ids w st).2 = missingFile st.
Proof.
  intros Hin Hc. revert st.
  induction ids as [|id ids IH]; intros st; cbn [recoverAll]; [done|].
  destruct (recoverOne_consistent_noop config id w st (Hin id ltac:(left)) (Hc id))
    as (Hw & Hn & Hm).
  destruct (recoverOne config id w st) as [[r w1] st1]. cbn in Hw, Hn, Hm. subst w1.
  specialize (IH (λ id' H, Hin id' (list_elem_of_further _ _ _ H)) st1).
  destruct (recoverAll config ids w st1) as [[rs w2] st2]. cbn in *.
  destruct IH as (-> & -> & ->). done.
Qed.

(** X11.  The scan repairs everything in one go: run again on the stores that it
    has left, it changes nothing, and it meets no frame without an answer and no
    frame without an image. *)
Theorem recovery_settles config w :
  let w' := worldAfter (recoverFrames config w) in
  worldAfter (recoverFrames config w') = w'
  ∧ noAnswer (stats (recoverFrames config w')) = 0%nat
  ∧ missingFile (stats (recoverFrames config w')) = 0%nat.
Proof.
  cbv zeta.
  assert (∀ id, consistentFrame config (worldAfter (recoverFrames config w)) id) as Hc.
  { unfold recoverFrames.
    pose proof (recoverAll_consistent config (getKeys (frameStateStorage w)) w noStats
                  (getKeys_NoDup _)) as H.
    destruct (recoverAll config (getKeys (frameStateStorage w)) w noStats)
      as [[rs w'] st']. cbn in *.
    apply H. intros id0 Hn st0 Hst0. destruct Hn. apply getKeys_elem. eauto. }
  revert Hc. generalize (worldAfter (recoverFrames config w)). intros w' Hc.
  unfold recoverFrames.
  pose proof (recoverAll_consistent_noop config (getKeys (frameStateStorage w')) w'
                noStats (λ id H, proj1 (getKeys_elem _ id) H) Hc) as H.
  destruct (recoverAll config (getKeys (frameStateStorage w')) w' noStats)
    as [[rs w2] st2]. cbn in *. exact H.
Qed.

(** ** What the scan leaves alone *)

Lemma shrunk_refl w : shrunk w w.
Proof. by repeat split. Qed.

Lemma shrunk_trans w1 w2 w3 : shrunk w1 w2 → shrunk w2 w3 → shrunk w1 w3.
Proof.
  intros (H1 & H2 & H3 & H4 & H5) (G1 & G2 & G3 & G4 & G5).
  split; [by trans (frameStateStorage w2)|]. split; [by trans (answerStorage w2)|].
  split; [by trans (files w2)|]. split; congruence.
Qed.

Lemma recoverOne_shrunk config id w st : shrunk w (recoverOne config id w st).1.2.
Proof.
  unfold recoverOne, shrunk.
  repeat match goal with |- context [if ?b then _ else _] => destruct b end;
    cbn; repeat split; try done;
    try apply delete_subseteq; try apply subseteq_difference_l; done.
Qed.

Lemma recoverAll_shrunk config ids w st : shrunk w (recoverAll config ids w st).1.2.
Proof.
  revert w st. induction ids as [|id ids IH]; intros w st; cbn [recoverAll].
  - apply shrunk_refl.
  - pose proof (recoverOne_shrunk config id w st) as H1.
    destruct (recoverOne config id w st) as [[r w1] st1].
    specialize (IH w1 st1).
    destruct (recoverAll config ids w1 st1) as [[rs w2] st2]. cbn in *.
    by apply (shrunk_trans _ w1).
Qed.

(** X12.  The scan only ever deletes: the frame-state records, the answers and
    the files that it leaves were there before, unchanged; it adds nothing, and
    it does not touch the run stores. *)
Theorem recovery_only_deletes config w :
  let w' := worldAfter (recoverFrames config w) in
  frameStateStorage w' ⊆ frameStateStorage w
  ∧ answerStorage w' ⊆ answerStorage w
  ∧ files w' ⊆ files w
  ∧ runStateStorage w' = runStateStorage w
  ∧ archivedRunStorage w' = archivedRunStorage w.
Proof.
  cbv zeta. unfold recoverFrames.
  pose proof (recoverAll_shrunk config (getKeys (frameStateStorage w)) w noStats) as H.
  destruct (recoverAll config (getKeys (frameStateStorage w)) w noStats)
    as [[rs w'] st']. exact H.
Qed.

(** ** Choosing a frame *)

Lemma chooseEpisode_index (random : Q) (n : nat) :
  (0 <= random)%Q → (random < 1)%Q → (0 < n)%nat →
  0 ≤ mathFloor (random * inject_Z (Z.of_nat n)) < Z.of_nat n.
Proof.
  intros H0 H1 Hn. unfold mathFloor.
  set (x := (random * inject_Z (Z.of_nat n))%Q).
  assert (0 < inject_Z (Z.of_nat n))%Q as HN.
  { change 0%Q with (inject_Z 0). rewrite <- Zlt_Qlt. lia. }
  assert (0 <= x)%Q as Hx0 by (unfold x; nra).
  assert (x < inject_Z (Z.of_nat n))%Q as Hx1 by (unfold x; nra).
  pose proof (Qfloor_le x) as Hle. pose proof (Qlt_floor x) as Hlt.
  split.
  - assert (inject_Z 0 < inject_Z (Qfloor x + 1))%Q as H.
    { change (inject_Z 0) with 0%Q. by apply (Qle_lt_trans _ x). }
    rewrite <- Zlt_Qlt in H. lia.
  - rewrite Zlt_Qlt. by apply (Qle_lt_trans _ x).
Qed.

(** X13.  [chooseRandomFrame] picks an episode of the catalogue, and any of
    them: for a random number in [0, 1) the index is within the list when there
    is an episode, every episode is picked for some random number, and an empty
    catalogue gives [undefined]. *)
Theorem chooseEpisode_in_catalogue {A} (episodes : list A) :
  (∀ random, (0 <= random)%Q → (random < 1)%Q → episodes ≠ [] →
             ∃ e, chooseEpisode random episodes = Some e ∧ e ∈ episodes)
  ∧ (∀ e, e ∈ episodes →
          ∃ random, (0 <= random)%Q ∧ (random < 1)%Q
                    ∧ chooseEpisode random episodes = Some e)
  ∧ (∀ random, episodes = [] → chooseEpisode random episodes = None).
Proof.
  split; [|split].
  - intros random H0 H1 Hne. unfold chooseEpisode.
    assert (0 < length episodes)%nat as Hn by (destruct episodes; [done|cbn; lia]).
    pose proof (chooseEpisode_index random (length episodes) H0 H1 Hn) as [Hi0 Hi1].
    destruct (Z.ltb_spec (mathFloor (random * inject_Z (Z.of_nat (length episodes)))) 0);
      [lia|].
    destruct (lookup_lt_is_Some_2 episodes
                (Z.to_nat (mathFloor (random * inject_Z (Z.of_nat (length episodes))))))
      as [e He]; [lia|].
    exists e. split; [done|]. by apply list_elem_of_lookup_2 in He.
  - intros e (i & Hi)%list_elem_of_lookup_1.
    pose proof (lookup_lt_Some _ _ _ Hi) as Hlt.
    assert (0 < inject_Z (Z.of_nat (length episodes)))%Q as HN.
    { change 0%Q with (inject_Z 0). rewrite <- Zlt_Qlt. lia. }
    assert (inject_Z (Z.of_nat i) < inject_Z (Z.of_nat (length episodes)))%Q as Hi1.
    { rewrite <- Zlt_Qlt. lia. }
    assert (inject_Z 0 <= inject_Z (Z.of_nat i))%Q as Hi0.
    { rewrite <- Zle_Qle. lia. }
    exists (inject_Z (Z.of_nat i) / inject_Z (Z.of_nat (length episodes)))%Q.
    split; [|split].
    + apply Qle_shift_div_l; [done|]. by rewrite Qmult_0_l.
    + apply Qlt_shift_div_r; [done|]. by rewrite Qmult_1_l.
    + unfold chooseEpisode, mathFloor.
      rewrite (Qfloor_comp _ (inject_Z (Z.of_nat i))).
      2:{ field. intros E. rewrite E in HN. by apply Qlt_irrefl in HN. }
      rewrite Qfloor_Z. destruct (Z.ltb_spec (Z.of_nat i) 0); [lia|].
      by rewrite Nat2Z.id.
  - intros random ->. unfold chooseEpisode, mathFloor. cbn [length].
    rewrite (Qfloor_comp _ (inject_Z 0)) by (cbn; ring).
    by rewrite Qfloor_Z.
Qed.

Section RandomTimeFacts.

Variable offsetTimeBySkipRanges : Q → list (Q * Q) → Q.

(** X14.  Taking numbers as exact rationals, and whatever
    [offsetTimeBySkipRanges] returns: the seek time is a whole number of frames,
    the one nearest to the offset time (a half is rounded upwards); the offset
    time is capped by the length of the episode, so the seek time is later than
    the end of the episode by half a frame at most. *)
Theorem randomTimeInEpisode_nearest_frame random episode :
  (0 < framerate episode)%Q →
  let offsetTime := offsetTimeInEpisode offsetTimeBySkipRanges random episode in
  let time := randomTimeInEpisode offsetTimeBySkipRanges random episode in
  (offsetTime <= episodeLength episode)%Q
  ∧ (∃ frame : Z,
       (time * framerate episode == inject_Z frame)%Q
       ∧ (offsetTime * framerate episode - (1 # 2) < inject_Z frame)%Q
       ∧ (inject_Z frame <= offsetTime * framerate episode + (1 # 2))%Q)
  ∧ (time <= episodeLength episode + 1 / (2 * framerate episode))%Q.
Proof.
  intros Hfr. cbv zeta. unfold randomTimeInEpisode, mathRound.
  set (offsetTime := offsetTimeInEpisode offsetTimeBySkipRanges random episode).
  set (fr := framerate episode) in *.
  set (x := (offsetTime * fr + (1 # 2))%Q).
  assert (offsetTime <= episodeLength episode)%Q as Hcap by apply Q.le_min_r.
  pose proof (Qfloor_le x) as Hle. pose proof (Qlt_floor x) as Hlt.
  rewrite inject_Z_plus in Hlt. change (inject_Z 1) with 1%Q in Hlt.
  assert (¬ fr == 0)%Q as Hnz by (intros E; rewrite E in Hfr; by apply Qlt_irrefl in Hfr).
  split; [done|]. split.
  - exists (Qfloor x). split; [by field|]. unfold x in *. split; lra.
  - apply Qle_shift_div_r; [done|].
    assert ((episodeLength episode + 1 / (2 * fr)) * fr
            == episodeLength episode * fr + (1 # 2))%Q as -> by (by field).
    assert (offsetTime * fr <= episodeLength episode * fr)%Q
      by (by apply Qmult_le_compat_r; [|apply Qlt_le_weak]).
    unfold x in *. lra.
Qed.

End RandomTimeFacts.

Lemma randomTimeInEpisode_nearest_frame_witness :
  (randomTimeInEpisode noSkip (999 # 1000) timing0 == 101 # 10)%Q
  ∧ (episodeLength timing0 < randomTimeInEpisode noSkip (999 # 1000) timing0)%Q
  ∧ (randomTimeInEpisode noSkip (999 # 1000) timing0
     <= episodeLength timing0 + 1 / (2 * framerate timing0))%Q.
Proof.
  split; [vm_compute; reflexivity|]. split; [vm_compute; reflexivity|].
  apply (randomTimeInEpisode_nearest_frame noSkip (999 # 1000) timing0).
  vm_compute. reflexivity.
Defined.

(** ** The quality gate, subprocess by subprocess *)

Lemma commands_app l1 l2 : commands (l1 ++ l2) = commands l1 ++ commands l2.
Proof. apply omap_app. Qed.

Lemma Cmds_trans s1 s2 s3 xs ys : Cmds s1 s2 xs → Cmds s2 s3 ys → Cmds s1 s3 (xs ++ ys).
Proof.
  intros (_ & l1 & Hl1 & <-) (Hc & l2 & Hl2 & <-). split; [done|].
  exists (l1 ++ l2). rewrite Hl2, Hl1, <- (assoc_L (++)), commands_app. done.
Qed.

Lemma Cmds_env_star s s' : chained s = [] → env_star s s' → Cmds s s' [].
Proof.
  intros Hc Hs. induction Hs as [s|s1 s2 s3 Hstep _ IH].
  - split; [done|]. exists []. by rewrite app_nil_r.
  - assert (Cmds s1 s2 []) as H12.
    { destruct Hstep as [s p o v w' Hp Hcomp|s p o Hp|s p' p o v Hch Hf|s p' p o Hch Hr].
      - split; [done|]. by eexists.
      - split; [done|]. by eexists.
      - rewrite Hc in Hch. by apply elem_of_nil in Hch.
      - rewrite Hc in Hch. by apply elem_of_nil in Hch. }
    apply (Cmds_trans _ _ _ [] [] H12). apply IH. by destruct H12.
Qed.

Lemma Cmds_exec s s1 s2 c :
  chained s = [] → env_star s s1 → env_star (issue (Exec c) s1) s2 → Cmds s s2 [c].
Proof.
  intros Hc H1 H2. pose proof (Cmds_env_star _ _ Hc H1) as E1.
  apply (Cmds_trans _ _ _ [] [c] E1).
  assert (Cmds s1 (issue (Exec c) s1) [c]) as E by (split; [by destruct E1|by eexists]).
  apply (Cmds_trans _ _ _ [c] [] E). apply Cmds_env_star; [by destruct E|done].
Qed.

Lemma takesTurns_round out seek input cs :
  takesTurns out cs → takesTurns out (Ffmpeg seek input out :: Identify out :: cs).
Proof.
  intros H [|[|i]] c; cbn.
  - intros [= <-]. eauto.
  - by intros [= <-].
  - apply H.
Qed.

Lemma ffmpegLoop_commands config eps out fuel rejected s res s' :
  chained s = [] →
  exec (ffmpegLoop config eps out fuel rejected) s res s' →
  ∃ cs, Cmds s s' cs ∧ takesTurns out cs
        ∧ (length (filter (λ c, isIdentify c = true) cs) ≤ checksLeft config rejected)%nat.
Proof.
  revert rejected s. induction fuel as [|fuel IH]; intros rejected s Hc.
  { cbn. intros [Hs _]. exists []. split; [by apply Cmds_env_star|].
    split; [by intros i c ?|cbn; lia]. }
  cbn [ffmpegLoop exec].
  intros [(random & Hin & s1 & Hs1 & s2 & Hs2 & Hawait)|(_ & -> & Hs)].
  2:{ exists []. split; [by apply Cmds_env_star|]. split; [by intros i c ?|cbn; lia]. }
  set (x := Ffmpeg (randomSeekTime random) (filename (randomEpisode random)) out) in *.
  pose proof (Cmds_exec _ _ _ x Hc Hs1 Hs2) as E2.
  assert (∀ s'', env_star s2 s'' →
            ∃ cs, Cmds s s'' cs ∧ takesTurns out cs
                  ∧ (length (filter (λ c, isIdentify c = true) cs)
                     ≤ checksLeft config rejected)%nat) as Hone.
  { intros s'' Hs''. exists [x]. split.
    - rewrite <- (app_nil_r [x]). apply (Cmds_trans _ _ _ _ _ E2).
      apply Cmds_env_star; [by destruct E2|done].
    - split.
      + intros [|i] c; cbn; [|done]. intros [= <-]. unfold x. eauto.
      + unfold x. rewrite filter_cons_False, filter_nil by done. cbn [length]. lia. }
  destruct Hawait as [(vs & _ & Hrest)|(p & _ & _ & -> & ->)].
  2:{ apply Hone, env_refl. }
  unfold checksLeft in *.
  destruct (0 <? frameRequiredStandardDeviation config) eqn:Ereq; cbn [andb] in Hrest.
  2:{ destruct Hrest as [Hs' _]. by apply Hone. }
  destruct (Z.ltb_spec (rejected + 1) (frameGenMaxAttempts config)) as [Hlt|Hge].
  2:{ destruct Hrest as [Hs' _]. by apply Hone. }
  cbn [exec] in Hrest. destruct Hrest as (s3 & Hs3 & s4 & Hs4 & Hgate).
  pose proof (Cmds_trans _ _ _ _ _ E2
                (Cmds_exec _ _ _ (Identify out) (proj1 E2) Hs3 Hs4)) as E4.
  cbn [app] in E4.
  assert (∀ s'', env_star s4 s'' →
            ∃ cs, Cmds s s'' cs ∧ takesTurns out cs
                  ∧ (length (filter (λ c, isIdentify c = true) cs)
                     ≤ Z.to_nat (frameGenMaxAttempts config - (rejected + 1)))%nat)
    as Htwo.
  { intros s'' Hs''. exists [x; Identify out]. split.
    - rewrite <- (app_nil_r [x; _]). apply (Cmds_trans _ _ _ _ _ E4).
      apply Cmds_env_star; [by destruct E4|done].
    - split; [apply takesTurns_round; by intros i c ?|]. unfold x.
      rewrite filter_cons_False by done.
      rewrite filter_cons_True, filter_nil by done. cbn [length]. lia. }
  destruct Hgate as [(stdout & _ & Hrest)|(p & _ & _ & -> & ->)].
  2:{ apply Htwo, env_refl. }
  destruct (statBelow stdout (frameRequiredStandardDeviation config)).
  2:{ destruct Hrest as [Hs' _]. by apply Htwo. }
  apply IH in Hrest as (cs & E & Hturns & Hlen); [|by destruct E4].
  unfold checksLeft in Hlen. rewrite ?Ereq in Hlen.
  exists (x :: Identify out :: cs). split; [apply (Cmds_trans _ _ _ _ _ E4 E)|].
  split; [by apply takesTurns_round|].
  rewrite filter_cons_False by done. rewrite filter_cons_True by done. cbn [length]. lia.
Qed.

(** X15.  The subprocesses of [ffmpegFrame]: extractions to the output path and
    checks of it take turns, an extraction first; no more checks are run than
    re-seeks are allowed; and with a required deviation of 0 (or less), or with
    no re-seek allowed, [identify] is never run, and at most one extraction is. *)
Theorem ffmpegFrame_gate config eps out s res s' :
  chained s = [] →
  exec (ffmpegFrame config eps out) s res s' →
  ∃ l, log s' = log s ++ l
       ∧ takesTurns out (commands l)
       ∧ (length (filter (λ c, isIdentify c = true) (commands l))
          ≤ Z.to_nat (frameGenMaxAttempts config))%nat
       ∧ (frameRequiredStandardDeviation config ≤ 0 ∨ frameGenMaxAttempts config ≤ 0 →
          filter (λ c, isIdentify c = true) (commands l) = []
          ∧ (length (commands l) ≤ 1)%nat).
Proof.
  intros Hc Hexec. unfold ffmpegFrame in Hexec.
  apply ffmpegLoop_commands in Hexec as (cs & (_ & l & Hl & <-) & Hturns & Hlen); [|done].
  exists l. split; [done|]. split; [done|]. unfold checksLeft in Hlen.
  replace (frameGenMaxAttempts config - (-1 + 1))
    with (frameGenMaxAttempts config) in Hlen by lia.
  split; [destruct (_ <? _); lia|].
  intros Hoff.
  assert (filter (λ c, isIdentify c = true) (commands l) = []) as Hnone.
  { apply length_zero_iff_nil.
    destruct (Z.ltb_spec 0 (frameRequiredStandardDeviation config)); lia. }
  split; [done|].
  destruct (commands l) as [|c0 [|c1 cs]]; [cbn; lia|cbn; lia|].
  pose proof (Hturns 1%nat c1 eq_refl) as H1. cbn in H1. subst c1.
  rewrite filter_cons in Hnone. destruct (decide _); [done|].
  by rewrite filter_cons_True in Hnone.
Qed.

Lemma ffmpegFrame_gate_witness :
  ∃ l, log run_gate = log (init world0) ++ l
       ∧ takesTurns out0 (commands l)
       ∧ (length (filter (λ c, isIdentify c = true) (commands l))
          ≤ Z.to_nat (frameGenMaxAttempts config_gate))%nat
       ∧ (frameRequiredStandardDeviation config_gate ≤ 0
          ∨ frameGenMaxAttempts config_gate ≤ 0 →
          filter (λ c, isIdentify c = true) (commands l) = []
          ∧ (length (commands l) ≤ 1)%nat).
Proof.
  apply (ffmpegFrame_gate config_gate [episode0] out0 (init world0)
           (Returned (Some random1)) run_gate).
  - reflexivity.
  - exact ffmpegFrame_run_gate.
Defined.

(** ** Frame generation: what it touches *)

Lemma issues_bind {A B} (P : op → Prop) (t : task A) (f : A → task B) :
  issues P t → (∀ a, issues P (f a)) → issues P (bind t f).
Proof.
  intros Ht Hf. induction t as [a|k IH|eps k IH|o k IH|p o k IH|ps k IH];
    cbn [bind issues] in *; [auto|auto|auto| | |auto].
  - destruct Ht as [Ho Hk]. split; auto.
  - destruct Ht as [Ho Hk]. split; auto.
Qed.

(** A fact about the world that none of the calls of a task undoes holds
    at the end of every execution of the task, however it ends. *)
Lemma Stable_exec {A} (P : op → Prop) (Q : World → Prop) (t : task A) s out s' :
  (∀ o w v w', P o → completes o w v w' → Q w → Q w') →
  issues P t → exec t s out s' → Fresh P s → Q (world s) → Q (world s').
Proof.
  intros Hst. revert s.
  induction t as [a|k IH|eps k IH|o k IH|p o k IH|ps k IH];
    intros s Ht; cbn [exec issues] in *.
  - intros [H _]. by apply Stable_env_star.
  - intros [id H]. eauto.
  - intros [(r & _ & H)|(_ & _ & H)]; [eauto|]. by apply Stable_env_star.
  - destruct Ht as [Ho Hk]. intros (s1 & H1 & H) F HQ.
    apply (IH _ _ (Hk _) H).
    + apply Fresh_issue; [done|]. by apply (Fresh_env_star _ _ _ H1).
    + cbn. by apply (Stable_env_star P Q s s1).
  - destruct Ht as [Ho Hk]. intros (s1 & H1 & H) F HQ.
    apply (IH _ _ (Hk _) H).
    + apply Fresh_chain; [done|]. by apply (Fresh_env_star _ _ _ H1).
    + cbn. by apply (Stable_env_star P Q s s1).
  - intros (s1 & H1 & [(vs & _ & H)|(p & _ & _ & _ & ->)]) F HQ.
    + apply (IH _ _ (Ht _) H); [by apply (Fresh_env_star _ _ _ H1)|].
      by apply (Stable_env_star P Q s s1).
    + by apply (Stable_env_star P Q s s1).
Qed.

Lemma exec_Uuid {A} (k : string → task A) s out s' :
  exec (Uuid k) s out s' → ∃ id, exec (k id) s out s'.
Proof. intros H. exact H. Qed.

Lemma ffmpegLoop_issues_own config id eps fuel rejected :
  issues (ownCall config id)
    (ffmpegLoop config eps (imagePathForId config id) fuel rejected).
Proof.
  revert rejected. induction fuel as [|fuel IH]; intros rejected; cbn; [done|].
  intros random. split; [right; right; by eexists|]. intros p vs.
  destruct (_ && _); cbn; [|done].
  split; [right; right; by eexists|]. intros q stdout.
  destruct (statBelow _ _); cbn; auto.
Qed.

Lemma ownCall_sameExcept config id w o w1 v w2 :
  ownCall config id o → completes o w1 v w2 →
  sameExcept config id w w1 → sameExcept config id w w2.
Proof.
  unfold sameExcept.
  intros [(st & ->)|[(a & ->)|(c & -> & Hout)]] Hc (H1 & H2 & H3 & H4 & H5);
    inversion Hc; subst;
    cbn [frameStateStorage answerStorage runStateStorage archivedRunStorage files
         set_frameState set_answer set_files wrote commandOutput] in *.
  - split; [|done]. intros k Hk. rewrite lookup_insert_ne by done. auto.
  - split; [done|]. split; [|done]. intros k Hk.
    rewrite lookup_insert_ne by done. auto.
  - split; [done|]. split; [done|]. split; [done|]. split; [done|].
    intros f Hf. rewrite elem_of_union, elem_of_singleton, <- (H5 f Hf).
    rewrite Hout. tauto.
  - done.
Qed.

(** X16.  Whatever the execution, and also when it throws: a frame generation
    changes nothing but the frame-state record, the answer record and the image
    file of the id it has drawn; the records and the files of other frames and
    the run stores are as they were. *)
Theorem generateFrame_isolated config eps w res s' :
  exec (generateFrame config eps) (init w) res s' →
  ∃ id,
    (∀ k, k ≠ id →
          frameStateStorage (world s') !! k = frameStateStorage w !! k
          ∧ answerStorage (world s') !! k = answerStorage w !! k)
    ∧ runStateStorage (world s') = runStateStorage w
    ∧ archivedRunStorage (world s') = archivedRunStorage w
    ∧ (∀ f, f ≠ imagePathForId config id → f ∈ files (world s') ↔ f ∈ files w).
Proof.
  intros Hexec. apply exec_Uuid in Hexec as (id & Hexec). exists id.
  match type of Hexec with
  | exec ?t _ _ _ => assert (issues (ownCall config id) t) as Hiss
  end.
  { cbn [issues]. split; [left; by eexists|]. intros p.
    apply issues_bind; [apply ffmpegLoop_issues_own|].
    intros [random|]; cbn [issues]; [|done].
    split; [right; left; by eexists|]. done. }
  assert (sameExcept config id w (world s')) as (H1 & H2 & H3 & H4 & H5).
  { apply (Stable_exec (ownCall config id) (sameExcept config id w) _ _ _ _
             (ownCall_sameExcept config id w) Hiss Hexec (Fresh_init _ w)).
    by repeat split. }
  split; [|done]. intros k Hk. split; auto.
Qed.

Lemma generateFrame_isolated_witness :
  ∃ id,
    (∀ k, k ≠ id →
          frameStateStorage (world run_generate) !! k = frameStateStorage world0 !! k
          ∧ answerStorage (world run_generate) !! k = answerStorage world0 !! k)
    ∧ runStateStorage (world run_generate) = runStateStorage world0
    ∧ archivedRunStorage (world run_generate) = archivedRunStorage world0
    ∧ (∀ f, f ≠ imagePathForId config_nogate id →
            f ∈ files (world run_generate) ↔ f ∈ files world0).
Proof.
  apply (generateFrame_isolated config_nogate [episode0] world0
           (Returned (Some (mkItem "0a1b-ff"))) run_generate).
  exact generateFrame_run_late.
Defined.

(** ** Frame generation: the image and its answer *)

Lemma completes_files o w v w' f : completes o w v w' → f ∈ files w → f ∈ files w'.
Proof.
  intros Hc Hf. inversion Hc; subst; cbn; try done.
  apply elem_of_union. by right.
Qed.


Lemma env_star_files s s' f :
  env_star s s' → f ∈ files (world s) → f ∈ files (world s').
Proof.
  intros H. induction H as [s|s1 s2 s3 Hstep _ IH]; [done|].
  intros Hf. apply IH.
  destruct Hstep as [s p o v w' Hp Hc|s p o Hp|s p' p o v Hc Hff|s p' p o Hc Hr];
    cbn; eauto using completes_files.
Qed.

Lemma exec_files {A} (t : task A) s out s' f :
  exec t s out s' → f ∈ files (world s) → f ∈ files (world s').
Proof.
  revert s. induction t as [a|k IH|eps k IH|o k IH|p o k IH|ps k IH];
    intros s; cbn [exec].
  - intros [H _]. by apply env_star_files.
  - intros [id H]. eauto.
  - intros [(r & _ & H)|(_ & _ & H)]; [eauto|]. by apply env_star_files.
  - intros (s1 & H1 & H) Hf. apply (IH _ _ H). cbn. by apply (env_star_files s).
  - intros (s1 & H1 & H) Hf. apply (IH _ _ H). cbn. by apply (env_star_files s).
  - intros (s1 & H1 & [(vs & _ & H)|(p & _ & _ & _ & ->)]) Hf.
    + apply (IH _ _ H). by apply (env_star_files s).
    + by apply (env_star_files s).
Qed.

(** When the loop returns a frame, the output file is there: the loop has
    waited for an extraction to succeed, and nothing removes a file. *)
Lemma ffmpegLoop_file config eps out fuel rejected s random s' :
  Fresh (λ _, True) s →
  exec (ffmpegLoop config eps out fuel rejected) s (Returned (Some random)) s' →
  out ∈ files (world s').
Proof.
  intros F. destruct fuel as [|fuel]; cbn [ffmpegLoop exec].
  { intros [_ [=]]. }
  intros [(random0 & _ & s1 & Hs1 & s2 & Hs2 & Hawait)|(_ & [=] & _)].
  destruct Hawait as [(vs & Hvs & Hrest)|(p & _ & _ & [=] & _)].
  set (o := Exec (Ffmpeg (randomSeekTime random0) (filename (randomEpisode random0)) out))
    in *.
  set (Q := λ w0 : World, out ∈ files w0).
  assert (∀ o' w0 v w0', True → completes o' w0 v w0' → Q w0 → Q w0') as Hst.
  { intros o' w0 v w0' _ Hc. by apply (completes_files o' w0 v). }
  assert (∀ w0 v w0', completes o w0 v w0' → Q w0') as Hest.
  { intros w0 v w0' Hc. inversion Hc; subst. unfold Q, wrote. cbn.
    apply elem_of_union. left. by apply elem_of_singleton. }
  pose proof (Fresh_env_star _ _ _ Hs1 F) as F1.
  pose proof (Owns_create (λ _, True) Q (next s1) o s1 eq_refl F1) as O1.
  pose proof (Owns_env_star (λ _, True) Q _ o Hst Hest _ _ Hs2
                (Fresh_issue _ o _ I F1) O1) as O2.
  apply Forall2_cons_inv_l in Hvs as (v & vs' & [o' Hv] & _ & ->).
  destruct (owns_settled _ _ _ _ O2 _ _ Hv) as (_ & _ & HQ).
  by apply (exec_files _ _ _ _ _ Hrest).
Qed.

(** When [generateFrame] returns, it returns an id whose image file is
    there. *)
Lemma generateFrame_run_file config eps w r s' :
  exec (generateFrame config eps) (init w) (Returned r) s' →
  ∃ id, r = Some (mkItem id) ∧ imagePathForId config id ∈ files (world s').
Proof.
  cbn [generateFrame exec]. intros (id & s1 & Hs1 & Hbind).
  apply env_star_init in Hs1 as ->.
  apply exec_bind in Hbind as [(chosen & s3 & Hff & Hrest)|[[=] _]].
  pose proof Hff as Hsound.
  apply ffmpegLoop_sound in Hsound as (xs & _ & _ & Hchosen);
    [|done|unfold roundsLeft; lia].
  destruct (Hchosen _ eq_refl) as (random & -> & _ & _).
  assert (imagePathForId config id ∈ files (world s3)) as Hfile.
  { apply (ffmpegLoop_file _ _ _ _ _ _ _ _
             (Fresh_issue (λ _, True) _ _ I (Fresh_init _ w)) Hff). }
  exists id. split; [|by apply (exec_files _ _ _ _ _ Hrest)].
  cbn [exec] in Hrest.
  by destruct Hrest as (s4 & _ & s5 & _ & [(vs & _ & _ & [= ->])|(? & _ & _ & [=] & _)]).
Qed.

(** When the loop returns a frame, the last extraction that it started is
    the one for this frame, and it has succeeded: the loop has waited for
    it, and what follows it in the log starts no other extraction. *)
Lemma ffmpegLoop_last config eps out fuel rejected s random s' :
  chained s = [] → Fresh (λ _, True) s →
  exec (ffmpegLoop config eps out fuel rejected) s (Returned (Some random)) s' →
  chained s' = []
  ∧ ∃ p l1 l2,
      log s' = l1 ++ EvIssue p (Exec (extractionOf random out)) :: l2
      ∧ extractions l2 = []
      ∧ EvSettle p (Exec (extractionOf random out)) (Some VUnit) ∈ l2.
Proof.
  revert rejected s. induction fuel as [|fuel IH]; intros rejected s Hc F;
    cbn [ffmpegLoop exec].
  { intros [_ [=]]. }
  intros [(random0 & _ & s1 & Hs1 & s2 & Hs2 & Hawait)|(_ & [=] & _)].
  destruct Hawait as [(vs & Hvs & Hrest)|(p & _ & _ & [=] & _)].
  fold (extractionOf random0 out) in *.
  set (x := Exec (extractionOf random0 out)) in *.
  pose proof (Fresh_env_star _ _ _ Hs1 F) as F1.
  destruct (Ext_env_star _ _ Hc Hs1) as [Hc1 _].
  pose proof (Fresh_issue _ x _ I F1) as F1'.
  pose proof (Fresh_env_star _ _ _ Hs2 F1') as F2.
  destruct (Ext_env_star (issue x s1) s2 Hc1 Hs2) as (Hc2 & la & Hla & Hxa).
  pose proof (Owns_any_env_star _ _ _ _ Hs2 F1'
                (Owns_create (λ _, True) (λ _, True) (next s1) x s1 eq_refl F1)) as O2.
  apply Forall2_cons_inv_l in Hvs as (v & vs' & Hv & _ & ->).
  destruct (Owns_fulfilled _ _ _ _ _ O2 Hv) as (Hset & w0 & w0' & Hcomp).
  assert (v = VUnit) as -> by (inversion Hcomp; done).
  assert (EvSettle (next s1) x (Some VUnit) ∈ la) as Hin.
  { rewrite Hla in Hset. cbn in Hset.
    apply elem_of_app in Hset as [[Hset|Hset]%elem_of_app|Hset]; [| |done].
    - apply (fresh_log _ _ F1) in Hset. cbn in Hset. lia.
    - apply list_elem_of_singleton in Hset. discriminate Hset. }
  (* the round ends with this frame unless the gate rejects it *)
  assert (∀ s'', Ext s2 s'' [] →
            chained s'' = []
            ∧ ∃ p l1 l2, log s'' = l1 ++ EvIssue p x :: l2
                         ∧ extractions l2 = []
                         ∧ EvSettle p x (Some VUnit) ∈ l2) as Hround.
  { intros s'' (Hc'' & lb & Hlb & Hxb). split; [done|].
    exists (next s1), (log s1), (la ++ lb). split; [|split].
    - rewrite Hlb, Hla. cbn. by rewrite <- !(assoc_L (++)).
    - by rewrite extractions_app, Hxa, Hxb.
    - apply elem_of_app. by left. }
  destruct (0 <? frameRequiredStandardDeviation config) eqn:Ereq; cbn [andb] in Hrest.
  2:{ destruct Hrest as [Hs' [= ->]]. apply Hround. by apply Ext_env_star. }
  destruct (Z.ltb_spec (rejected + 1) (frameGenMaxAttempts config)) as [Hlt|Hge].
  2:{ destruct Hrest as [Hs' [= ->]]. apply Hround. by apply Ext_env_star. }
  cbn [exec] in Hrest.
  destruct Hrest as (s3 & Hs3 & s4 & Hs4 & Hgate).
  pose proof (Ext_done _ _ _ _
                (Ext_call _ _ (Exec (Identify out)) _ (Ext_env_star _ _ Hc2 Hs3))
                Hs4) as E4.
  cbn in E4.
  destruct Hgate as [(stdout & _ & Hrest)|(p & _ & _ & [=] & _)].
  destruct (statBelow stdout (frameRequiredStandardDeviation config)).
  2:{ destruct Hrest as [Hs' [= ->]]. apply Hround. by apply (Ext_done _ _ _ _ E4). }
  apply IH in Hrest; [done|by destruct E4|].
  apply (Fresh_env_star _ _ _ Hs4), Fresh_issue; [done|].
  by apply (Fresh_env_star _ _ _ Hs3).
Qed.

(** X17.  When [generateFrame] returns an id, the picture and the answer go
    together: the image file of the id is there, the last extraction that was
    started is the one from the chosen episode at the chosen time into this
    file, this extraction has succeeded (the log has its success after its
    start, and no extraction is started after it), and the answer stored for
    the id names that episode and that time. *)
Theorem generateFrame_image_ready config eps w r s' :
  exec (generateFrame config eps) (init w) (Returned r) s' →
  ∃ id random,
    r = Some (mkItem id) ∧ randomEpisode random ∈ eps
    ∧ imagePathForId config id ∈ files (world s')
    ∧ last (extractions (log s'))
      = Some (extractionOf random (imagePathForId config id))
    ∧ (∃ p l1 l2,
         log s'
         = l1 ++ EvIssue p (Exec (extractionOf random (imagePathForId config id))) :: l2
         ∧ extractions l2 = []
         ∧ EvSettle p (Exec (extractionOf random (imagePathForId config id)))
             (Some VUnit) ∈ l2)
    ∧ answerStorage (world s') !! id = Some (answerOf random).
Proof.
  cbn [generateFrame exec]. intros (id & s1 & Hs1 & Hbind).
  apply env_star_init in Hs1 as ->.
  set (oF := SetFrameState id (mkFileState None)) in *.
  set (s2 := issue oF (init w)) in *.
  apply exec_bind in Hbind as [(chosen & s3 & Hff & Hrest)|[[=] _]].
  assert (Fresh (generationCall id None) s2) as F2.
  { apply Fresh_issue; [by left|apply Fresh_init]. }
  assert (issues (generationCall id None) (ffmpegFrame config eps (imagePathForId config id)))
    as Hiss.
  { apply (issues_mono isExec); [by right; left|apply ffmpegLoop_issues]. }
  pose proof (Fresh_exec _ _ _ _ _ Hiss Hff F2) as F3.
  pose proof Hff as Hsound.
  apply ffmpegLoop_sound in Hsound as (xs & E23 & _ & Hchosen);
    [|done|unfold roundsLeft; lia].
  destruct (Hchosen _ eq_refl) as (random & -> & Hin & Hlast).
  assert (imagePathForId config id ∈ files (world s3)) as Hfile.
  { apply (ffmpegLoop_file _ _ _ _ _ _ _ _ (Fresh_mono _ (λ _, True) _ (λ _ _, I) F2) Hff). }
  destruct (ffmpegLoop_last _ _ _ _ _ s2 _ _ eq_refl
              (Fresh_mono _ (λ _, True) _ (λ _ _, I) F2) Hff)
    as (Hc3 & p & l1 & l2 & Hlog3 & Hx2 & Hdone).
  cbn [exec] in Hrest.
  destruct Hrest as (s4 & Hs4 & s5 & Hs5 & [(vs & Hvs & Hs' & [= ->])|(? & _ & _ & [=] & _)]).
  set (a := answerOf random) in *. set (oA := SetAnswer id a) in *.
  set (QA := λ w0 : World, answerStorage w0 !! id = Some a).
  set (P2 := generationCall id (Some a)).
  assert (∀ o w0 v w0', P2 o → completes o w0 v w0' → QA w0 → QA w0') as HstA.
  { apply generationCall_answer. }
  assert (∀ w0 v w0', completes oA w0 v w0' → QA w0') as HestA.
  { intros ??? Hc. inversion Hc; subst. apply lookup_insert_eq. }
  assert (Fresh P2 s3) as F3'.
  { apply (Fresh_mono (generationCall id None)); [|done].
    intros o [H|[H|(? & [=] & _)]]; [by left|by right; left]. }
  pose proof (Fresh_env_star _ _ _ Hs4 F3') as F4.
  assert (P2 oA) as HoA by (right; right; eauto).
  pose proof (Fresh_issue _ _ _ HoA F4) as F4'.
  pose proof (Owns_create P2 QA (next s4) oA s4 eq_refl F4) as A4'.
  pose proof (Fresh_env_star _ _ _ Hs5 F4') as F5.
  pose proof (Owns_env_star P2 QA _ oA HstA HestA _ _ Hs5 F4' A4') as A5.
  pose proof (Owns_env_star P2 QA _ oA HstA HestA _ _ Hs' F5 A5) as A'.
  apply Forall2_cons_inv_l in Hvs as (vA & vs' & HfA & _ & ->).
  apply (fulfilled_mono _ _ _ _ Hs') in HfA as [o1 HfA].
  destruct (owns_settled _ _ _ _ A' _ _ HfA) as (_ & _ & HQA).
  exists id, random. split; [done|]. split; [done|].
  split; [|split; [|split; [|done]]].
  - apply (env_star_files s5 s'); [done|]. apply (env_star_files (issue oA s4) s5); [done|].
    cbn. by apply (env_star_files s3 s4).
  - pose proof (Ext_done _ _ _ _
                  (Ext_done _ _ _ _
                     (Ext_call _ _ oA _ (Ext_trans _ _ _ _ _ E23
                        (Ext_env_star _ _ (proj1 E23) Hs4))) Hs5) Hs')
      as (_ & l & Hl & Hxs).
    rewrite Hl, extractions_app, Hxs. unfold s2, oA, oF. cbn.
    by rewrite !app_nil_r.
  - pose proof (Ext_done _ _ _ _
                  (Ext_done _ _ _ _
                     (Ext_call _ _ oA _ (Ext_env_star _ _ Hc3 Hs4)) Hs5) Hs')
      as (_ & l & Hl & Hxs).
    exists p, l1, (l2 ++ l). split; [|split].
    + rewrite Hl, Hlog3. by rewrite <- (assoc_L (++)).
    + rewrite extractions_app, Hx2, Hxs. done.
    + apply elem_of_app. by left.
Qed.

Lemma generateFrame_image_ready_witness :
  ∃ id random,
    Some (mkItem "0a1b-ff") = Some (mkItem id) ∧ randomEpisode random ∈ [episode0]
    ∧ imagePathForId config_nogate id ∈ files (world run_generate)
    ∧ last (extractions (log run_generate))
      = Some (extractionOf random (imagePathForId config_nogate id))
    ∧ (∃ p l1 l2,
         log run_generate
         = l1 ++ EvIssue p (Exec (extractionOf random (imagePathForId config_nogate id)))
                :: l2
         ∧ extractions l2 = []
         ∧ EvSettle p (Exec (extractionOf random (imagePathForId config_nogate id)))
             (Some VUnit) ∈ l2)
    ∧ answerStorage (world run_generate) !! id = Some (answerOf random).
Proof.
  apply (generateFrame_image_ready config_nogate [episode0] world0
           (Some (mkItem "0a1b-ff")) run_generate).
  exact generateFrame_run_late.
Defined.

(** ** From generation to recovery *)

Lemma cleanupTick_keeps_ready config now frames1 frames2 w id a :
  ¬ contains "/" id →
  frameStateStorage w !! id = Some (mkFileState None) →
  answerStorage w !! id = Some a → answerExpiryTs a = None →
  imagePathForId config id ∈ files w →
  readyFrame config (cleanupTick config now frames1 frames2 w) id.
Proof.
  intros Hslash Hst Ha Hexp Hfile. unfold cleanupTick.
  set (w1 := cleanupAnswers now w).
  set (w2 := cleanupOrphanedAndExpiredImages config now frames1 frames2 w1).
  destruct (cleanupAnswers_frame now w) as (Hf1 & _ & _ & Hfiles1).
  assert (answerStorage w1 !! id = Some a) as Ha1.
  { unfold w1. rewrite cleanupAnswers_lookup, Ha. cbn. unfold answerKept.
    by rewrite Hexp. }
  destruct (imageSweep_keeps config now frames1 frames2 w1 id (mkFileState None))
    as [Hst2 Hfile2]; [by unfold w1; rewrite Hf1|done|done|].
  fold w2 in Hst2, Hfile2.
  destruct (imageSweep_frame config now frames1 frames2 w1) as (Ha2 & _).
  fold w2 in Ha2.
  destruct (cleanupExpiredRuns_frame config now w2) as (Hf3 & Ha3 & Hfiles3).
  unfold readyFrame. rewrite Hf3, Ha3, Hfiles3, Ha2, Ha1. split; [eauto|].
  split; [eauto|]. apply Hfile2. unfold w1. by rewrite Hfiles1.
Qed.

(** X18.  A frame that has been generated and not served yet is not lost: when
    [generateFrame] has returned its id, a recovery scan of the stores hands the
    id back, at once and also after a cleanup tick, whatever the time of the
    tick and whatever its two listings hold.  (The ids of [myUuid] are not empty
    and hold no slash.) *)
Theorem generated_frame_survives config eps w r s' now frames1 frames2 :
  exec (generateFrame config eps) (init w) (Returned r) s' →
  ∃ id,
    r = Some (mkItem id)
    ∧ (id ≠ "" → mkItem id ∈ recovered (recoverFrames config (world s')))
    ∧ (id ≠ "" → ¬ contains "/" id →
       mkItem id
         ∈ recovered (recoverFrames config
                        (cleanupTick config now frames1 frames2 (world s')))).
Proof.
  intros Hexec.
  destruct (generateFrame_run _ _ _ _ _ Hexec) as (id & l & _ & Hret).
  destruct (Hret r eq_refl) as (random & answerP & -> & _ & _ & _ & Hst & Ha).
  destruct (generateFrame_run_file _ _ _ _ _ Hexec) as (id' & [= <-] & Hfile).
  exists id. split; [done|]. split.
  - intros Hne. apply recoverFrames_ready; [done|].
    split; [eauto|]. split; [eauto|done].
  - intros Hne Hslash. apply recoverFrames_ready; [done|].
    by apply (cleanupTick_keeps_ready _ _ _ _ _ _ (answerOf random)).
Qed.

Lemma generated_frame_survives_witness :
  ∃ id,
    Some (mkItem "0a1b-ff") = Some (mkItem id)
    ∧ (id ≠ "" → mkItem id ∈ recovered (recoverFrames config_nogate (world run_generate)))
    ∧ (id ≠ "" → ¬ contains "/" id →
       mkItem id
         ∈ recovered (recoverFrames config_nogate
                        (cleanupTick config_nogate T0 [out0] [out0] (world run_generate)))).
Proof.
  apply (generated_frame_survives config_nogate [episode0] world0
           (Some (mkItem "0a1b-ff")) run_generate T0 [out0] [out0]).
  exact generateFrame_run_late.
Defined.

(** ** The handler and the name of an image file *)

Lemma substring_prefix (a b : string) :
  String.substring 0 (String.length (a +:+ b) - String.length b) (a +:+ b) = a.
Proof.
  apply chars_inj. rewrite chars_substring, chars_app. cbn [drop].
  rewrite <- !length_chars, chars_app, length_app.
  replace (length (list_ascii_of_string a) + length (list_ascii_of_string b)
           - length (list_ascii_of_string b))%nat
    with (length (list_ascii_of_string a)) by lia.
  by rewrite drop_0, take_app_length.
Qed.

(** X19.  The handler serves the file that frame generation writes: asked for
    [{id}.{ext}], a name free of separators and of dot-dot, it opens the image
    path of [id] and nothing else, and when [fs.createReadStream] hands back a
    stream, as it does whether or not the file is there, this stream is sent,
    with listeners that are given [id] itself. *)
Theorem frame_handler_serves_image config createReadStream id runId cleanuponload :
  let basename := id +:+ "." +:+ imageOutputExtension config in
  ¬ (contains "/" basename ∨ contains "\" basename ∨ contains ".." basename) →
  createReadStream (imagePathForId config id) = None →
  frameGetHandler config createReadStream (Some basename) runId cleanuponload
  = ([imagePathForId config id],
     SendStream (imagePathForId config id) id
       (from_option (λ r, negb (String.eqb r "")) false runId)
       (cleanupRequested cleanuponload)).
Proof.
  cbv zeta. intros Hclean Hstream. unfold frameGetHandler.
  set (basename := id +:+ "." +:+ imageOutputExtension config).
  assert (traversingPathRe (list_ascii_of_string basename) = false) as ->.
  { apply not_true_is_false. rewrite traversingPathRe_infix.
    rewrite !contains_chars in Hclean. exact Hclean. }
  assert (endsWith basename ("." +:+ imageOutputExtension config) = true) as ->.
  { apply endsWith_suffix. by exists id. }
  destruct (String.eqb_spec basename "") as [E|_].
  { apply (f_equal String.length) in E. unfold basename in E.
    rewrite <- !length_chars, !chars_app, !length_app in E. cbn in E. lia. }
  cbn [orb negb].
  change (pathJoin (frameOutputDir config) basename) with (imagePathForId config id).
  rewrite Hstream.
  do 2 f_equal.
  replace (String.length (imageOutputExtension config) + 1)%nat
    with (String.length ("." +:+ imageOutputExtension config))
    by (change (String.length ("." +:+ imageOutputExtension config))
          with (S (String.length (imageOutputExtension config))); lia).
  apply substring_prefix.
Qed.

Lemma frame_handler_serves_image_witness :
  frameGetHandler config0 (λ _, None) (Some "0a1b-ff.webp") (Some "run1") (Some "1")
  = ([imagePathForId config0 "0a1b-ff"],
     SendStream (imagePathForId config0 "0a1b-ff") "0a1b-ff" true true).
Proof.
  apply (frame_handler_serves_image config0 (λ _, None) "0a1b-ff"
           (Some "run1") (Some "1")).
  - rewrite !contains_chars, <- traversingPathRe_infix. vm_compute. discriminate.
  - reflexivity.
Defined.

(** ** The earlier generation endpoint *)

(** X20.  When the earlier [generateFrame] returns an id, one extraction has
    been started, for the chosen episode and time; it has written the image file
    of the id, and the answer stored for the id names that episode and that
    time. *)
Theorem gen_generateFrame_complete config episodeData w item s' :
  exec (Gen.generateFrame config episodeData) (init w) (Returned item) s' →
  ∃ random,
    randomEpisode random ∈ episodeData
    ∧ extractions (log s')
      = [extractionOf random (Gen.imagePath config (imageId item))]
    ∧ Gen.imagePath config (imageId item) ∈ files (world s')
    ∧ answerStorage (world s') !! imageId item = Some (answerOf random).
Proof.
  cbn [Gen.generateFrame exec].
  intros (id & [(random & Hin & s1 & Hs1 & s3 & Hs3 & s5 & Hs5 & Hawait)|(_ & [=] & _)]).
  apply env_star_init in Hs1 as ->.
  destruct Hawait as [(vs & Hvs & Hs' & [= ->])|(? & _ & _ & [=] & _)].
  cbn [imageId next init] in *.
  set (out := Gen.imagePath config id) in *.
  set (oX := Exec (Ffmpeg (randomSeekTime random) (filename (randomEpisode random)) out))
    in *.
  set (oA := SetAnswer id (answerOf random)) in *.
  set (P := λ o : op, o = oX ∨ o = oA).
  set (QX := λ w0 : World, out ∈ files w0).
  set (QA := λ w0 : World, answerStorage w0 !! id = Some (answerOf random)).
  assert (∀ o w0 v w0', P o → completes o w0 v w0' → QX w0 → QX w0') as HstX.
  { intros o w0 v w0' _ Hc. by apply (completes_files o w0 v). }
  assert (∀ w0 v w0', completes oX w0 v w0' → QX w0') as HestX.
  { intros w0 v w0' Hc. inversion Hc; subst. unfold QX, wrote. cbn.
    apply elem_of_union. left. by apply elem_of_singleton. }
  assert (∀ o w0 v w0', P o → completes o w0 v w0' → QA w0 → QA w0') as HstA.
  { intros o w0 v w0' [-> | ->] Hc; inversion Hc; subst; unfold QA; cbn; [done|].
    intros _. apply lookup_insert_eq. }
  assert (∀ w0 v w0', completes oA w0 v w0' → QA w0') as HestA.
  { intros w0 v w0' Hc. inversion Hc; subst. apply lookup_insert_eq. }
  pose proof (Fresh_init P w) as F0.
  pose proof (Fresh_issue P oX _ (or_introl eq_refl) F0) as F2.
  pose proof (Owns_create P QX 0 oX (init w) eq_refl F0) as X2.
  pose proof (Fresh_env_star _ _ _ Hs3 F2) as F3.
  pose proof (Owns_env_star P QX 0 oX HstX HestX _ _ Hs3 F2 X2) as X3.
  pose proof (Fresh_issue P oA _ (or_intror eq_refl) F3) as F4.
  pose proof (Owns_issue QX 0 oX oA _ X3) as X4.
  pose proof (Owns_create P QA (next s3) oA s3 eq_refl F3) as A4.
  pose proof (Fresh_env_star _ _ _ Hs5 F4) as F5.
  pose proof (Owns_env_star P QX 0 oX HstX HestX _ _ Hs5 F4 X4) as X5.
  pose proof (Owns_env_star P QA _ oA HstA HestA _ _ Hs5 F4 A4) as A5.
  pose proof (Owns_env_star P QX 0 oX HstX HestX _ _ Hs' F5 X5) as X'.
  pose proof (Owns_env_star P QA _ oA HstA HestA _ _ Hs' F5 A5) as A'.
  apply Forall2_cons_inv_l in Hvs as (vX & vs' & HfX & Hvs & ->).
  apply Forall2_cons_inv_l in Hvs as (vA & vs'' & HfA & _ & ->).
  apply (fulfilled_mono _ _ _ _ Hs') in HfX as [o1 HfX].
  apply (fulfilled_mono _ _ _ _ Hs') in HfA as [o2 HfA].
  destruct (owns_settled _ _ _ _ X' _ _ HfX) as (_ & _ & HQX).
  destruct (owns_settled _ _ _ _ A' _ _ HfA) as (_ & _ & HQA).
  exists random. split; [done|]. split; [|done].
  assert (Ext (issue oX (init w)) s' []) as (_ & l & Hl & Hxs).
  { apply (Ext_done _ s5); [|done]. apply (Ext_done _ (issue oA s3)); [|done].
    rewrite <- (app_nil_r []). apply Ext_call. by apply Ext_env_star. }
  rewrite Hl, extractions_app, Hxs. done.
Qed.

Lemma gen_generateFrame_run :
  exec (Gen.generateFrame config_gen [episode0]) (init world0)
       (Returned (mkItem "0a1b-ff")) run_gen.
Proof.
  cbn. exists "0a1b-ff". left. exists random0. split; [by left|].
  eexists. split; [apply env_refl|].
  eexists. split; [apply env_refl|].
  eexists. split.
  { eapply env_next.
    - apply (env_fulfil _ 0%nat (Exec (extractionOf random0 out0)) VUnit
               (wrote out0 world0)); [in_list|constructor].
    - fulfil_one 1%nat (SetAnswer "0a1b-ff" (answerOf random0)) VUnit
        (set_answer (<["0a1b-ff" := answerOf random0]>) (wrote out0 world0)). }
  left. exists [VUnit; VUnit]. split; [fulfilled_now|].
  split; [apply env_refl|reflexivity].
Qed.

Lemma gen_generateFrame_complete_witness :
  ∃ random,
    randomEpisode random ∈ [episode0]
    ∧ extractions (log run_gen)
      = [extractionOf random (Gen.imagePath config_gen "0a1b-ff")]
    ∧ Gen.imagePath config_gen "0a1b-ff" ∈ files (world run_gen)
    ∧ answerStorage (world run_gen) !! "0a1b-ff" = Some (answerOf random).
Proof.
  apply (gen_generateFrame_complete config_gen [episode0] world0
           (mkItem "0a1b-ff") run_gen).
  exact gen_generateFrame_run.
Defined.

(** ** Fuzzy match display *)

Lemma chars_js_substring (v : string) a b :
  0 ≤ a → a ≤ b → b ≤ Z.of_nat (String.length v) →
  list_ascii_of_string (Fuzzy.substring v a b)
  = take (Z.to_nat (b - a)) (drop (Z.to_nat a) (list_ascii_of_string v)).
Proof.
  intros Ha Hab Hb. unfold Fuzzy.substring, Fuzzy.clampIndex.
  rewrite chars_substring. f_equal; [lia|f_equal; lia].
Qed.

Lemma slice_app {A} a b c (l : list A) :
  0 ≤ a → a ≤ b → b ≤ c → slice a b l ++ slice b c l = slice a c l.
Proof.
  intros Ha Hab Hbc. unfold slice.
  replace (Z.to_nat b) with (Z.to_nat a + Z.to_nat (b - a))%nat by lia.
  rewrite <- drop_drop, take_take_drop. f_equal. lia.
Qed.

Lemma slice_all {A} (l : list A) : slice 0 (Z.of_nat (length l)) l = l.
Proof. unfold slice. cbn. apply take_ge. lia. Qed.

Lemma chars_valuePart ranges (v : string) a b :
  0 ≤ a → a ≤ b → b ≤ Z.of_nat (String.length v) →
  list_ascii_of_string (Fuzzy.valuePart (Fuzzy.mkMatch ranges (Some v)) a b)
  = slice a b (list_ascii_of_string v).
Proof. intros. by apply chars_js_substring. Qed.

Lemma chars_partsText_cons p parts :
  list_ascii_of_string (partsText (p :: parts))
  = list_ascii_of_string (Fuzzy.part p) ++ list_ascii_of_string (partsText parts).
Proof. cbn [partsText foldr]. apply chars_app. Qed.

Lemma chars_partsText_app parts1 parts2 :
  list_ascii_of_string (partsText (parts1 ++ parts2))
  = list_ascii_of_string (partsText parts1) ++ list_ascii_of_string (partsText parts2).
Proof.
  induction parts1 as [|p parts1 IH]; [done|].
  rewrite <- app_comm_cons, !chars_partsText_cons, IH. by rewrite (assoc_L (++)).
Qed.

Lemma rangesEnd_cons lo r ranges :
  rangesEnd lo (r :: ranges) = rangesEnd (r.2 + 1) ranges.
Proof. unfold rangesEnd. rewrite last_cons. by destruct (last ranges). Qed.

(** The loop covers the text from [lo], the index after the range before,
    to the end of the last range. *)
Lemma chunkLoop_text all (v : string) prev lo ranges :
  let m := Fuzzy.mkMatch all (Some v) in
  let len := Z.of_nat (String.length v) in
  0 ≤ lo → lo ≤ len →
  match prev with Some (_, prevEnd) => lo = prevEnd + 1 | None => lo = 0 end →
  rangesFrom lo len ranges →
  lo ≤ rangesEnd lo ranges ≤ len
  ∧ list_ascii_of_string (partsText (Fuzzy.chunkLoop m prev ranges))
    = slice lo (rangesEnd lo ranges) (list_ascii_of_string v).
Proof.
  cbv zeta. revert prev lo.
  induction ranges as [|[start end_] ranges IH]; intros prev lo Hlo Hlen Hprev Hr.
  - unfold rangesEnd, slice. cbn. split; [lia|].
    replace (Z.to_nat (lo - lo)) with 0%nat by lia. done.
  - destruct Hr as (H1 & H2 & H3 & Hr).
    specialize (IH (Some (start, end_)) (end_ + 1) ltac:(lia) ltac:(lia) eq_refl Hr)
      as [Hend IH].
    rewrite rangesEnd_cons. cbn [snd]. split; [lia|].
    cbn [Fuzzy.chunkLoop].
    rewrite chars_partsText_app, chars_partsText_cons, IH. cbn [Fuzzy.part].
    rewrite chars_valuePart by lia.
    rewrite (slice_app start) by lia.
    assert (list_ascii_of_string
              (partsText
                 match prev with
                 | Some (_, prevEnd) =>
                   [Fuzzy.mkPart
                      (Fuzzy.valuePart (Fuzzy.mkMatch all (Some v)) (prevEnd + 1) start)
                      false]
                 | None =>
                   if negb (start =? 0)
                   then [Fuzzy.mkPart
                           (Fuzzy.valuePart (Fuzzy.mkMatch all (Some v)) 0 start)
                           false]
                   else []
                 end)
            = slice lo start (list_ascii_of_string v)) as ->.
    { destruct prev as [[? prevEnd]|].
      - subst lo. rewrite chars_partsText_cons. cbn [Fuzzy.part partsText foldr].
        rewrite chars_valuePart by lia. apply app_nil_r.
      - subst lo. destruct (Z.eqb_spec start 0) as [->|Hne]; cbn [negb].
        + done.
        + rewrite chars_partsText_cons. cbn [Fuzzy.part partsText foldr].
          rewrite chars_valuePart by lia. apply app_nil_r. }
    apply slice_app; lia.
Qed.

(** X21.  The parts of a text whose ranges are in order give the text back when
    they are put together. *)
Theorem chunkMatchText_round_trip (ranges : list (Z * Z)) (v : string) :
  ranges ≠ [] →
  rangesFrom 0 (Z.of_nat (String.length v)) ranges →
  ∃ parts, Fuzzy.chunkMatchText (Fuzzy.mkMatch ranges (Some v)) = Some parts
           ∧ partsText parts = v.
Proof.
  intros Hne Hr. unfold Fuzzy.chunkMatchText. cbn [Fuzzy.indices Fuzzy.value].
  pose proof (chunkLoop_text ranges v None 0 ranges ltac:(lia) ltac:(lia) eq_refl Hr)
    as [Hend Htext].
  unfold rangesEnd in Hend, Htext.
  destruct (last ranges) as [[? lastEnd]|] eqn:El.
  2:{ apply last_None in El. done. }
  cbn [from_option snd fmap option_fmap option_map default] in *.
  case_bool_decide as Hlast.
  - eexists. split; [done|]. apply chars_inj.
    rewrite chars_partsText_app, Htext, chars_partsText_cons.
    cbn [Fuzzy.part partsText foldr]. unfold id.
    rewrite chars_valuePart by lia.
    cbn [list_ascii_of_string]. rewrite app_nil_r, slice_app by lia.
    rewrite <- length_chars. apply slice_all.
  - eexists. split; [done|]. apply chars_inj. rewrite Htext.
    assert (lastEnd + 1 = Z.of_nat (String.length v)) as ->.
    { by injection Hlast. }
    rewrite <- length_chars. apply slice_all.
Qed.

Lemma chunkMatchText_round_trip_witness :
  ∃ parts,
    Fuzzy.chunkMatchText (Fuzzy.mkMatch [(0, 1); (6, 8)] (Some "hello world"))
    = Some parts
    ∧ partsText parts = "hello world".
Proof.
  apply (chunkMatchText_round_trip [(0, 1); (6, 8)] "hello world").
  - intros H. discriminate H.
  - cbn. lia.
Defined.

Example chunkMatchText_hello :
  Fuzzy.chunkMatchText (Fuzzy.mkMatch [(0, 1); (6, 8)] (Some "hello world"))
  = Some [Fuzzy.mkPart "he" true; Fuzzy.mkPart "llo " false;
          Fuzzy.mkPart "wor" true; Fuzzy.mkPart "ld" false].
Proof. reflexivity. Qed.

Lemma alternates_loop m p ranges tail :
  tail = [] ∨ tail = [false] →
  alternates (true :: map Fuzzy.matching (Fuzzy.chunkLoop m (Some p) ranges) ++ tail).
Proof.
  intros Htail. revert p.
  induction ranges as [|[start end_] ranges IH]; intros [? prevEnd].
  - destruct Htail as [-> | ->]; cbn; auto.
  - cbn [Fuzzy.chunkLoop map app Fuzzy.matching].
    split; [done|]. split; [done|]. apply IH.
Qed.

Lemma length_chunkLoop m p ranges :
  length (Fuzzy.chunkLoop m (Some p) ranges) = (2 * length ranges)%nat.
Proof.
  revert p. induction ranges as [|[start end_] ranges IH]; intros [? prevEnd]; [done|].
  cbn [Fuzzy.chunkLoop app length]. rewrite IH. lia.
Qed.

(** X22.  Matched and unmatched parts take turns, whatever the ranges are; so
    [n] ranges give between [2n - 1] and [2n + 1] parts. *)
Theorem chunkMatchText_alternates m parts :
  Fuzzy.chunkMatchText m = Some parts →
  alternates (map Fuzzy.matching parts)
  ∧ (2 * length (Fuzzy.indices m) - 1 ≤ length parts
     ≤ 2 * length (Fuzzy.indices m) + 1)%nat.
Proof.
  unfold Fuzzy.chunkMatchText.
  destruct (Fuzzy.indices m) as [|[start end_] ranges] eqn:Ei; [done|].
  destruct (last _) as [[? lastEnd]|]; [|done].
  cbn [Fuzzy.chunkLoop].
  assert (∀ t, map Fuzzy.matching t = [] ∨ map Fuzzy.matching t = [false] →
    alternates (map Fuzzy.matching
      ((if negb (start =? 0)
        then [Fuzzy.mkPart (Fuzzy.valuePart m 0 start) false] else [])
       ++ Fuzzy.mkPart (Fuzzy.valuePart m start (end_ + 1)) true
          :: Fuzzy.chunkLoop m (Some (start, end_)) ranges ++ t))) as Halt.
  { intros t Ht.
    pose proof (alternates_loop m (start, end_) ranges (map Fuzzy.matching t) Ht) as H.
    rewrite map_app. cbn [map Fuzzy.matching]. rewrite map_app.
    destruct (negb (start =? 0)); cbn [map app Fuzzy.matching]; [split; [done|]|];
      exact H. }
  case_bool_decide; intros [= <-].
  - split.
    + rewrite <- (assoc_L (++)), <- app_comm_cons. apply Halt. by right.
    + rewrite !length_app. cbn [length]. rewrite length_chunkLoop.
      destruct (negb (start =? 0)); cbn [length]; lia.
  - split.
    + specialize (Halt [] (or_introl eq_refl)). by rewrite app_nil_r in Halt.
    + rewrite !length_app. cbn [length]. rewrite length_chunkLoop.
      destruct (negb (start =? 0)); cbn [length]; lia.
Qed.

Lemma chunkMatchText_alternates_witness :
  alternates [true; false; true; false]
  ∧ (2 * 2 - 1 ≤ 4 ≤ 2 * 2 + 1)%nat.
Proof.
  apply (chunkMatchText_alternates
           (Fuzzy.mkMatch [(0, 1); (6, 8)] (Some "hello world"))
           [Fuzzy.mkPart "he" true; Fuzzy.mkPart "llo " false;
            Fuzzy.mkPart "wor" true; Fuzzy.mkPart "ld" false]).
  reflexivity.
Defined.

Lemma chunkLoop_matched m prev ranges :
  filter (λ p, Fuzzy.matching p = true) (Fuzzy.chunkLoop m prev ranges)
  = map (λ r, Fuzzy.mkPart (Fuzzy.valuePart m r.1 (r.2 + 1)) true) ranges.
Proof.
  revert prev. induction ranges as [|[start end_] ranges IH]; intros prev; [done|].
  cbn [Fuzzy.chunkLoop map fst snd]. rewrite filter_app, filter_cons_True by done.
  rewrite IH.
  destruct prev as [[? prevEnd]|]; [|destruct (negb (start =? 0))];
    rewrite ?filter_cons_False, ?filter_nil by done; done.
Qed.

(** X23.  [chunkMatchText] throws exactly when there is no range; otherwise its
    matched parts are, in order, the texts of the ranges, one for each. *)
Theorem chunkMatchText_matched m :
  match Fuzzy.chunkMatchText m with
  | Some parts =>
    Fuzzy.indices m ≠ []
    ∧ filter (λ p, Fuzzy.matching p = true) parts
      = map (λ r, Fuzzy.mkPart (Fuzzy.valuePart m r.1 (r.2 + 1)) true) (Fuzzy.indices m)
  | None => Fuzzy.indices m = []
  end.
Proof.
  unfold Fuzzy.chunkMatchText.
  destruct (last (Fuzzy.indices m)) as [[? lastEnd]|] eqn:El.
  - assert (Fuzzy.indices m ≠ []) as Hne.
    { intros E. rewrite E in El. discriminate El. }
    case_bool_decide; (split; [done|]).
    + rewrite filter_app, chunkLoop_matched.
      rewrite filter_cons_False, filter_nil by done. apply app_nil_r.
    + apply chunkLoop_matched.
  - by apply last_None.
Qed.

Lemma substring_contains (v : string) a b : contains (Fuzzy.substring v a b) v.
Proof.
  unfold Fuzzy.substring.
  set (n := Nat.min _ _). set (k := (_ - _)%nat).
  exists (string_of_list_ascii (take n (list_ascii_of_string v))),
         (string_of_list_ascii (drop k (drop n (list_ascii_of_string v)))).
  apply chars_inj.
  rewrite !chars_app, chars_substring, !list_ascii_of_string_of_list_ascii.
  by rewrite !take_drop.
Qed.

Lemma valuePart_contains m a b :
  contains (Fuzzy.valuePart m a b) (default "" (Fuzzy.value m)).
Proof.
  unfold Fuzzy.valuePart. destruct (Fuzzy.value m) as [v|]; cbn.
  - apply substring_contains.
  - by exists "", "".
Qed.

Lemma chunkLoop_parts m prev ranges p :
  p ∈ Fuzzy.chunkLoop m prev ranges → ∃ a b, Fuzzy.part p = Fuzzy.valuePart m a b.
Proof.
  revert prev. induction ranges as [|[start end_] ranges IH]; intros prev.
  - by intros ?%elem_of_nil.
  - cbn [Fuzzy.chunkLoop]. rewrite elem_of_app, elem_of_cons.
    intros [H|[->|H]]; [|by eauto|by eauto].
    destruct prev as [[? prevEnd]|]; [|destruct (negb (start =? 0))].
    + apply list_elem_of_singleton in H as ->. eauto.
    + apply list_elem_of_singleton in H as ->. eauto.
    + by apply elem_of_nil in H.
Qed.

(** X24.  Whatever the ranges are (out of the text, out of order, overlapping),
    the text of every part is a piece of the matched text; every part is empty
    when there is no text. *)
Theorem chunkMatchText_pieces m parts p :
  Fuzzy.chunkMatchText m = Some parts →
  p ∈ parts →
  contains (Fuzzy.part p) (default "" (Fuzzy.value m)).
Proof.
  unfold Fuzzy.chunkMatchText.
  destruct (last (Fuzzy.indices m)) as [[? lastEnd]|]; [|done].
  assert (p ∈ Fuzzy.chunkLoop m None (Fuzzy.indices m) →
          contains (Fuzzy.part p) (default "" (Fuzzy.value m))) as Hloop.
  { intros (a & b & ->)%chunkLoop_parts. apply valuePart_contains. }
  case_bool_decide as Hlast; intros [= <-]; [|done].
  rewrite elem_of_app. intros [H|H]; [auto|].
  apply list_elem_of_singleton in H as ->. apply valuePart_contains.
Qed.

Lemma chunkMatchText_pieces_witness :
  contains "d" "hello world".
Proof.
  apply (chunkMatchText_pieces
           (Fuzzy.mkMatch [(8, 6); (-3, 1); (10, 40)] (Some "hello world"))
           [Fuzzy.mkPart "hello wo" false; Fuzzy.mkPart "o" true;
            Fuzzy.mkPart "hello w" false; Fuzzy.mkPart "he" true;
            Fuzzy.mkPart "llo worl" false; Fuzzy.mkPart "d" true;
            Fuzzy.mkPart "" false]
           (Fuzzy.mkPart "d" true)).
  - reflexivity.
  - repeat first [apply list_elem_of_here | apply list_elem_of_further].
Defined.
